(** * ducc: size planner, pass selection, FFT facade shapes, gridder planning

    A shallow embedding of the integer, floating-point and control-flow
    parts of
    - [src/ducc0/math/fft1d.h]        ([util1d], [cfftpass::factorize],
                                       [cfftpass::make_pass], [cfftpblue],
                                       [cfft_multipass], [rfftpass::factorize],
                                       [rfftpass::make_pass], [rfftpblue],
                                       [rfft_multipass]),
    - [python/fft_pymod.cc]           ([makeaxes], [norm_fct], [dct_internal],
                                       [dst_internal], [r2c_internal],
                                       [c2r_internal], [good_size]),
    - [python/gridder_cxx.h]          ([Baselines], [visrange],
                                       [hartley2complex],
                                       [grid2dirty_post], [dirty2grid_pre],
                                       [Params::scanData], [Params::getNuNv],
                                       [Params::countRanges], the [Params]
                                       constructor),
    - [src/ducc0/not_yet_integrated/horner_kernel.h] ([HornerKernel],
                                       [HornerKernelFlexible]),
    - [src/mr_util/vecsupport.h]      ([aligned_array::ralloc]),
    - [src/ducc0/sharp/sharp_almhelpers.cc] ([sharp_standard_alm_info],
                                       [sharp_make_triangular_alm_info]).

    Conventions.  A [size_t] is a [Z] in [0, 2^64) and every [size_t]
    multiplication of the source is followed by [wrap].  Loops that the
    source writes without a bound take a [fuel] and answer [OutOfFuel]
    (or [None]) when it runs out.  [double] and [float] values are
    IEEE 754 data ([spec_float]) and their arithmetic rounds to nearest,
    operation by operation (no product and sum are contracted into a
    fused multiply-add); a conversion to an integer that the C++
    standard leaves undefined ends the run with [UndefinedBehaviour]. *)

From Stdlib Require Import ZArith Zdivisibility Znumtheory List Lia Bool.
From Stdlib Require Import QArith Qround Lqa.
From Stdlib Require Import String.
From Stdlib Require Import SpecFloat.
From Stdlib Require Import Sorted Permutation.
Import ListNotations.
Local Open Scope Z_scope.

(** * The program *)

(** ** [size_t] arithmetic *)

Module SizeT.

Definition modulus : Z := 2 ^ 64.

Definition wrap (z : Z) : Z := z mod modulus.

Definition max : Z := modulus - 1.

End SizeT.

Import SizeT.

(** ** [util1d]: the size planner *)

(** What a loop nest of [good_size_cmplx] / [good_size_real] hands to
    its caller: [return n;] from the innermost loop leaves the whole
    function, otherwise the loop ends and [bestfac] lives on. *)
Inductive loop_result : Type :=
| Return (r : Z)
| Next (bestfac : Z)
| OutOfFuel.

(** [while (x<n) x*=2;] *)
Fixpoint while_double (fuel : nat) (n x : Z) : option Z :=
  match fuel with
  | O => None
  | S fuel' =>
      if x <? n then while_double fuel' n (wrap (x * 2)) else Some x
  end.

(** The [for (;;)] loop:
<<
  if (x<n) x*=3;
  else if (x>n) { if (x<bestfac) bestfac=x; if (x&1) break; x>>=1; }
  else return n;
>> *)
Fixpoint for_ever (fuel : nat) (n x bestfac : Z) : loop_result :=
  match fuel with
  | O => OutOfFuel
  | S fuel' =>
      if x <? n then for_ever fuel' n (wrap (x * 3)) bestfac
      else if n <? x then
        let bestfac' := if x <? bestfac then x else bestfac in
        if negb (Z.land x 1 =? 0) then Next bestfac'
        else for_ever fuel' n (Z.shiftr x 1) bestfac'
      else Return n
  end.

(** Body of the innermost [for] loop, the same text in both functions:
    [size_t x=f; while (x<n) x*=2; for (;;) {...}]. *)
Definition scan_body (fuel : nat) (n f bestfac : Z) : loop_result :=
  match while_double fuel n f with
  | None => OutOfFuel
  | Some x => for_ever fuel n x bestfac
  end.

(** [for (size_t f=f0; f<bestfac; f*=p) body], where [body] may update
    [bestfac] or return from the function. *)
Fixpoint for_mul (p : Z) (body : Z -> Z -> loop_result)
    (fuel : nat) (f bestfac : Z) : loop_result :=
  match fuel with
  | O => OutOfFuel
  | S fuel' =>
      if f <? bestfac then
        match body f bestfac with
        | Next b => for_mul p body fuel' (wrap (f * p)) b
        | r => r
        end
      else Next bestfac
  end.

Definition finish (r : loop_result) : option Z :=
  match r with
  | Return r => Some r
  | Next bestfac => Some bestfac
  | OutOfFuel => None
  end.

Definition good_size_cmplx (fuel : nat) (n : Z) : option Z :=
  if n <=? 12 then Some n
  else
    finish
      (for_mul 11
         (fun f11 => for_mul 7
            (fun f117 => for_mul 5 (scan_body fuel n) fuel f117)
            fuel f11)
         fuel 1 (wrap (2 * n))).

Definition good_size_real (fuel : nat) (n : Z) : option Z :=
  if n <=? 6 then Some n
  else finish (for_mul 5 (scan_body fuel n) fuel 1 (wrap (2 * n))).

(** Fuel that is enough for every loop of the planner on 64-bit sizes. *)
Definition plenty : nat := 200.

(** ** Errors and results of fallible code *)

Inductive error : Type :=
| AssertionFailed (msg : string)    (* MR_assert / MR_fail *)
| InvalidArgument (msg : string)    (* std::invalid_argument *)
| RuntimeError (msg : string)       (* std::runtime_error *)
| UndefinedBehaviour (what : string). (* no exception: behaviour undefined *)

Inductive result (A : Type) : Type :=
| Ok (a : A)
| Fail (e : error)
| Timeout.

Arguments Ok {A} a.
Arguments Fail {A} e.
Arguments Timeout {A}.

Definition bind {A B : Type} (r : result A) (k : A -> result B) : result B :=
  match r with
  | Ok a => k a
  | Fail e => Fail e
  | Timeout => Timeout
  end.

Notation "'do' x <- r ; k" := (bind r (fun x => k))
  (at level 10, x pattern, r at level 100, k at level 200).

Definition MR_assert (cond : bool) (msg : string) : result unit :=
  if cond then Ok tt else Fail (AssertionFailed msg).

(** ** [cfftpass::factorize] and [cfftpass::make_pass] *)

(** [while ((N&mask)==0) { factors.push_back(radix); N>>=shift; }] *)
Fixpoint while_low_bits_zero (mask radix shift : Z) (fuel : nat)
    (N : Z) (factors : list Z) : result (Z * list Z) :=
  match fuel with
  | O => Timeout
  | S fuel' =>
      if Z.land N mask =? 0 then
        while_low_bits_zero mask radix shift fuel'
          (Z.shiftr N shift) (factors ++ [radix])
      else Ok (N, factors)
  end.

(** [swap(factors[0], factors.back())] *)
Definition swap_front_back (factors : list Z) : list Z :=
  match factors with
  | [] => []
  | a :: rest =>
      match rev rest with
      | [] => [a]
      | z :: mid => z :: rev mid ++ [a]
      end
  end.

(** [while ((N%divisor)==0) { factors.push_back(divisor); N/=divisor; }] *)
Fixpoint while_divides (fuel : nat) (divisor N : Z) (factors : list Z)
    : result (Z * list Z) :=
  match fuel with
  | O => Timeout
  | S fuel' =>
      if N mod divisor =? 0 then
        while_divides fuel' divisor (N / divisor) (factors ++ [divisor])
      else Ok (N, factors)
  end.

(** [for (size_t divisor=3; divisor*divisor<=N; divisor+=2) while ...] *)
Fixpoint for_odd_divisors (fuel : nat) (divisor N : Z) (factors : list Z)
    : result (Z * list Z) :=
  match fuel with
  | O => Timeout
  | S fuel' =>
      if wrap (divisor * divisor) <=? N then
        do (N', factors') <- while_divides fuel divisor N factors;
        for_odd_divisors fuel' (wrap (divisor + 2)) N' factors'
      else Ok (N, factors)
  end.

Definition factorize (fuel : nat) (N : Z) : result (list Z) :=
  do _ <- MR_assert (0 <? N) "need a positive number";
  do (N, factors) <- while_low_bits_zero 7 8 3 fuel N [];
  do (N, factors) <- while_low_bits_zero 3 4 2 fuel N factors;
  let '(N, factors) :=
    if Z.land N 1 =? 0
    then (Z.shiftr N 1, swap_front_back (factors ++ [2]))
    else (N, factors) in
  do (N, factors) <- for_odd_divisors fuel 3 N factors;
  Ok (if 1 <? N then factors ++ [N] else factors).

(** The node [make_pass] builds.  Twiddle tables, the children of a
    multipass and the sub-plan of a Bluestein pass are not part of the
    model; a Bluestein node records its sub-transform length [ip2]. *)
Inductive pass : Type :=
| cfftp1
| cfftp2 (l1 ido : Z)
| cfftp3 (l1 ido : Z)
| cfftp4 (l1 ido : Z)
| cfftp5 (l1 ido : Z)
| cfftp7 (l1 ido : Z)
| cfftp8 (l1 ido : Z)
| cfftp11 (l1 ido : Z)
| cfftpg (l1 ido ip : Z)
| cfftpblue (l1 ido ip ip2 : Z)
| cfft_multipass (l1 ido ip : Z)
| cfftp_vecpass (vlen ip : Z).

(** Member initialiser [ip2(util1d::good_size_cmplx(ip*2-1))] of the
    [cfftpblue] constructor. *)
Definition make_cfftpblue (fuel : nat) (l1 ido ip : Z) : result pass :=
  match good_size_cmplx fuel (wrap (ip * 2 - 1)) with
  | Some ip2 => Ok (cfftpblue l1 ido ip ip2)
  | None => Timeout
  end.

Section MakePass.

(** [native_simd<Tfs>::size()], a constant of the build. *)
Variable vlen : Z.

Definition make_pass (fuel : nat) (l1 ido ip : Z) (vectorize : bool)
    : result pass :=
  do _ <- MR_assert (1 <=? ip) "no zero-sized FFTs";
  if vectorize && (300 <? ip) && (ip <? 32768) && (l1 =? 1) && (ido =? 1)
     && (1 <? vlen) && (Z.land ip (vlen - 1) =? 0)
  then Ok (cfftp_vecpass vlen ip)
  else if ip =? 1 then Ok cfftp1
  else
    do factors <- factorize fuel ip;
    if (List.length factors =? 1)%nat then
      if ip =? 2 then Ok (cfftp2 l1 ido)
      else if ip =? 3 then Ok (cfftp3 l1 ido)
      else if ip =? 4 then Ok (cfftp4 l1 ido)
      else if ip =? 5 then Ok (cfftp5 l1 ido)
      else if ip =? 7 then Ok (cfftp7 l1 ido)
      else if ip =? 8 then Ok (cfftp8 l1 ido)
      else if ip =? 11 then Ok (cfftp11 l1 ido)
      else if ip <? 110 then Ok (cfftpg l1 ido ip)
      else make_cfftpblue fuel l1 ido ip
    else Ok (cfft_multipass l1 ido ip).

End MakePass.

(** ** [good_size] of the Python module ([fft_pymod.cc]) *)

Inductive py_result : Type :=
| PyLong (z : Z)
| ValueError (msg : string)
| NoReturn.

(** [n_] is the parsed [Py_ssize_t] argument. *)
Definition good_size (fuel : nat) (n_ : Z) (real : bool) : py_result :=
  if n_ <? 0 then ValueError "Target length must be positive"
  else if SizeT.max / 11 <? n_ - 1 then
    ValueError "Target length is too large to perform an FFT"
  else
    match (if real then good_size_real fuel n_ else good_size_cmplx fuel n_) with
    | Some m => PyLong m
    | None => NoReturn
    end.

(** ** The FFT module of the Python interface ([fft_pymod.cc]) *)

(** [makeaxes]: the axes of a call; [ndim] is [in.ndim()], [axes] the
    optional Python argument. *)
Fixpoint normalize_axes (ndim : Z) (tmp : list Z) : result (list nat) :=
  match tmp with
  | [] => Ok []
  | sz :: rest =>
      let sz := if sz <? 0 then sz + ndim else sz in
      if (ndim <=? sz) || (sz <? 0)
      then Fail (InvalidArgument "axes exceeds dimensionality of output")
      else do rest' <- normalize_axes ndim rest; Ok (Z.to_nat sz :: rest')
  end.

Definition makeaxes (ndim : nat) (axes : option (list Z)) : result (list nat) :=
  match axes with
  | None => Ok (seq 0 ndim)
  | Some tmp =>
      if (ndim <? List.length tmp)%nat || (List.length tmp =? 0)%nat
      then Fail (RuntimeError "bad axes argument")
      else normalize_axes (Z.of_nat ndim) tmp
  end.

(** The value of [norm_fct]: [T(1)], [T(1/sqrt(ldbl_t(N)))] or
    [T(1/ldbl_t(N))], kept symbolic in the count [N]. *)
Inductive norm_factor : Type :=
| One
| InvSqrt (N : Z)
| Inv (N : Z).

(** [norm_fct(int inorm, size_t N)] *)
Definition norm_fct_N (inorm N : Z) : result norm_factor :=
  if inorm =? 0 then Ok One
  else if inorm =? 2 then Ok (Inv N)
  else if inorm =? 1 then Ok (InvSqrt N)
  else Fail (InvalidArgument "invalid value for inorm (must be 0, 1, or 2)").

(** [norm_fct(inorm, shape, axes, fct=1, delta=0)]:
    [for (auto a: axes) N *= fct * size_t(int64_t(shape[a])+delta);] *)
Definition norm_fct (inorm : Z) (shape : list Z) (axes : list nat)
    (fct delta : Z) : result norm_factor :=
  if inorm =? 0 then Ok One
  else
    let N :=
      fold_left
        (fun N a => wrap (N * wrap (fct * wrap (nth a shape 0 + delta))))
        axes 1 in
    norm_fct_N inorm N.

(** [dct_internal] and [dst_internal] up to the call of [ducc0::dct] /
    [ducc0::dst]: the value is the pair [(fct, ortho)] handed over. *)
Definition dct_internal (shape : list Z) (axes_ : option (list Z))
    (type inorm : Z) : result (norm_factor * bool) :=
  do axes <- makeaxes (List.length shape) axes_;
  do fct <- (if type =? 1 then norm_fct inorm shape axes 2 (-1)
             else norm_fct inorm shape axes 2 0);
  Ok (fct, inorm =? 1).

Definition dst_internal (shape : list Z) (axes_ : option (list Z))
    (type inorm : Z) : result (norm_factor * bool) :=
  do axes <- makeaxes (List.length shape) axes_;
  do fct <- (if type =? 1 then norm_fct inorm shape axes 2 1
             else norm_fct inorm shape axes 2 0);
  Ok (fct, inorm =? 1).

Definition dct (shape : list Z) (type : Z) (axes_ : option (list Z))
    (inorm : Z) : result (norm_factor * bool) :=
  if (type <? 1) || (4 <? type) then Fail (InvalidArgument "invalid DCT type")
  else dct_internal shape axes_ type inorm.

Definition dst (shape : list Z) (type : Z) (axes_ : option (list Z))
    (inorm : Z) : result (norm_factor * bool) :=
  if (type <? 1) || (4 <? type) then Fail (InvalidArgument "invalid DST type")
  else dst_internal shape axes_ type inorm.

(** [dims_out[axis] = lastsize] *)
Fixpoint set_nth (i : nat) (v : Z) (l : list Z) : list Z :=
  match l, i with
  | [], _ => []
  | _ :: t, O => v :: t
  | h :: t, S i' => h :: set_nth i' v t
  end.

(** [c2r_internal] up to the call of [ducc0::c2r]: the value is the
    shape of the output array and the factor handed over. *)
Definition c2r_internal (shape : list Z) (axes_ : option (list Z))
    (lastsize inorm : Z) : result (list Z * norm_factor) :=
  do axes <- makeaxes (List.length shape) axes_;
  let axis := last axes 0%nat in
  let lastsize :=
    if lastsize =? 0 then wrap (2 * nth axis shape 0 - 1) else lastsize in
  if negb (lastsize / 2 + 1 =? nth axis shape 0)
  then Fail (InvalidArgument "bad lastsize")
  else
    let dims_out := set_nth axis lastsize shape in
    do fct <- norm_fct inorm dims_out axes 1 0;
    Ok (dims_out, fct).

(** ** Floating-point numbers

    A [float] or [double] is a datum of IEEE 754 arithmetic as the
    standard library specifies it ([spec_float]): a signed zero, a
    signed infinity, NaN, or [(-1)^s * m * 2^e].  An operation rounds
    its exact result to nearest, ties to even, in the format it is
    given; expressions are evaluated as written, one rounding per
    operation. *)

Record format : Type := { prec : Z; emax : Z }.

(** [float] and [double] *)
Definition binary32 : format := {| prec := 24; emax := 128 |}.
Definition binary64 : format := {| prec := 53; emax := 1024 |}.

Definition fp : Type := spec_float.

Definition fadd (T : format) (x y : fp) : fp := SFadd (prec T) (emax T) x y.
Definition fsub (T : format) (x y : fp) : fp := SFsub (prec T) (emax T) x y.
Definition fmul (T : format) (x y : fp) : fp := SFmul (prec T) (emax T) x y.
Definition fdiv (T : format) (x y : fp) : fp := SFdiv (prec T) (emax T) x y.

Notation "x +[ T ] y" := (fadd T x y) (at level 50, left associativity).
Notation "x -[ T ] y" := (fsub T x y) (at level 50, left associativity).
Notation "x *[ T ] y" := (fmul T x y) (at level 40, left associativity).
Notation "x /[ T ] y" := (fdiv T x y) (at level 40, left associativity).

(** Conversion of an integer to [T], and [T(0)]. *)
Definition of_Z (T : format) (z : Z) : fp :=
  binary_normalize (prec T) (emax T) z 0 false.

Definition zero : fp := S754_zero false.

(** Conversion [T(x)] of a floating-point value. *)
Definition convert (T : format) (x : fp) : fp :=
  match x with
  | S754_finite s m e => binary_round (prec T) (emax T) s m e
  | _ => x
  end.

(** [std::max(a,b)] is [(a<b) ? b : a], [std::min(a,b)] is
    [(b<a) ? b : a]. *)
Definition fmax (a b : fp) : fp := if SFltb a b then b else a.
Definition fmin (a b : fp) : fp := if SFltb b a then b else a.

(** [x] without its fractional part; nothing for NaN and the
    infinities. *)
Definition truncate (x : fp) : option Z :=
  match x with
  | S754_zero _ => Some 0
  | S754_finite s m e => Some (cond_Zopp s (Z.shiftl (Z.pos m) e))
  | _ => None
  end.

(** Conversion [size_t(x)]: the truncated value, and undefined when
    that is not a [size_t]. *)
Definition size_t_of_double (x : fp) : option Z :=
  match truncate x with
  | Some z => if (0 <=? z) && (z <? modulus) then Some z else None
  | None => None
  end.

(** Arithmetic on [double]. *)
Declare Scope double_scope.
Delimit Scope double_scope with D.
Infix "+" := (fadd binary64) : double_scope.
Infix "-" := (fsub binary64) : double_scope.
Infix "*" := (fmul binary64) : double_scope.
Infix "/" := (fdiv binary64) : double_scope.
Notation "- x" := (SFopp x) : double_scope.

(** [double(z)], also for integer operands and literals. *)
Definition dbl (z : Z) : fp := of_Z binary64 z.

(** The literal [0.5]. *)
Definition half : fp := (dbl 1 / dbl 2)%D.

(** ** The gridder ([gridder_cxx.h]): data *)

(** A two-dimensional [mav]: its shape and its elements.  An absent
    optional array is an array of size 0. *)
Record mav2 (A : Type) : Type := {
  shape0 : nat;
  shape1 : nat;
  at2 : nat -> nat -> A
}.

Arguments shape0 {A} m.
Arguments shape1 {A} m.
Arguments at2 {A} m i j.

Definition size2 {A : Type} (m : mav2 A) : nat := (shape0 m * shape1 m)%nat.

(** [m.fill(v)] *)
Definition fill2 {A : Type} (m : mav2 A) (v : A) : mav2 A :=
  {| shape0 := shape0 m; shape1 := shape1 m; at2 := fun _ _ => v |}.

(** [mav<T,2>(nullptr, {0,0}, false)] *)
Definition null2 {A : Type} (d : A) : mav2 A :=
  {| shape0 := 0; shape1 := 0; at2 := fun _ _ => d |}.

(** [std::complex<T>]: real and imaginary part. *)
Definition complex : Type := (fp * fp)%type.

(** [std::norm]: the squared magnitude, [x*x + y*y]. *)
Definition norm (T : format) (z : complex) : fp :=
  fst z *[T] fst z +[T] snd z *[T] snd z.

Record UVW : Type := { u : fp; v : fp; w : fp }.

Definition UVW_scale (c : UVW) (fct : fp) : UVW :=
  {| u := (u c * fct)%D; v := (v c * fct)%D; w := (w c * fct)%D |}.

Record Baselines : Type := {
  coord : list UVW;
  f_over_c : list fp;
  nrows : nat;
  nchan : nat;
  umax : fp;
  vmax : fp
}.

Definition speedOfLight : fp := dbl 299792458.

(** The channel loop of the [Baselines] constructor. *)
Fixpoint scan_freq (freq f_over_c : list fp) (fcmax : fp) : result (list fp * fp) :=
  match freq with
  | [] => Ok (f_over_c, fcmax)
  | f :: rest =>
      do _ <- MR_assert (SFltb zero f) "negative channel frequency encountered";
      let foc := (f / speedOfLight)%D in
      scan_freq rest (f_over_c ++ [foc]) (fmax fcmax (SFabs foc))
  end.

(** [Baselines(coord_, freq, negate_v)].  The source leaves [umax]
    uninitialised before taking maxima; it starts at 0 here. *)
Definition make_Baselines (coord_ : mav2 fp) (freq : list fp) (negate_v : bool)
    : result Baselines :=
  do _ <- MR_assert (shape1 coord_ =? 3)%nat "dimension mismatch";
  do (foc, fcmax) <- scan_freq freq [] zero;
  let vfac := if negate_v then dbl (-1) else dbl 1 in
  let rows := seq 0 (shape0 coord_) in
  Ok {| coord := map (fun i => {| u := at2 coord_ i 0;
                                  v := (vfac * at2 coord_ i 1)%D;
                                  w := at2 coord_ i 2 |}) rows;
        f_over_c := foc;
        nrows := shape0 coord_;
        nchan := List.length freq;
        umax := (fold_left (fun m i => fmax m (SFabs (at2 coord_ i 0))) rows zero
                 * fcmax)%D;
        vmax := (fold_left (fun m i => fmax m (SFabs (at2 coord_ i 1))) rows zero
                 * fcmax)%D |}.

Definition effectiveCoord (bl : Baselines) (row chan : nat) : UVW :=
  UVW_scale (nth row (coord bl) {| u := zero; v := zero; w := zero |})
            (nth chan (f_over_c bl) zero).

(** ** [Params::scanData] *)

Record scan_state : Type := {
  active : list Z;
  nvis : Z;
  wmin_d : fp;
  wmax_d : fp
}.

Definition checkShape (shp1 shp2 : nat * nat) : result unit :=
  MR_assert ((fst shp1 =? fst shp2)%nat && (snd shp1 =? snd shp2)%nat)
            "shape mismatch".

Definition shape2 {A : Type} (m : mav2 A) : nat * nat := (shape0 m, shape1 m).

(** The literal [1e300]. *)
Definition huge : fp := dbl (10 ^ 300).

Section ScanData.

(** The type [T] of the visibilities and weights. *)
Variable T : format.
Variable bl : Baselines.
Variable ms_in : mav2 complex.
Variable wgt : mav2 fp.
Variable mask : mav2 Z.

Definition have_ms : bool := negb (size2 ms_in =? 0)%nat.
Definition have_wgt : bool := negb (size2 wgt =? 0)%nat.
Definition have_mask : bool := negb (size2 mask =? 0)%nat.

(** The test of the scan loop on sample [(irow, ichan)]. *)
Definition sample_test (irow ichan : nat) : bool :=
  (negb have_ms || negb (SFeqb (norm T (at2 ms_in irow ichan)) zero)) &&
  (negb have_wgt || negb (SFeqb (at2 wgt irow ichan) zero)) &&
  (negb have_mask || negb (at2 mask irow ichan =? 0)).

Definition abs_w (irow ichan : nat) : fp := SFabs (w (effectiveCoord bl irow ichan)).

Definition set_active (idx : nat) (a : list Z) : list Z := set_nth idx 1 a.

(** Body of the inner loop. *)
Definition scan_sample (irow : nat) (st : scan_state) (ichan : nat) : scan_state :=
  if sample_test irow ichan then
    {| active := set_active (irow * nchan bl + ichan) (active st);
       nvis := nvis st + 1;
       wmin_d := fmin (wmin_d st) (abs_w irow ichan);
       wmax_d := fmax (wmax_d st) (abs_w irow ichan) |}
  else st.

Definition scan_row (st : scan_state) (irow : nat) : scan_state :=
  fold_left (scan_sample irow) (seq 0 (nchan bl)) st.

(** The rows are shared among threads in the source, each thread keeping
    its own minimum, maximum and count, merged under a mutex; here one
    thread scans all rows in order, and each thread writes its own
    entries of [active]. *)
Definition scanData : result scan_state :=
  let nrow := nrows bl in
  do _ <- (if have_wgt then checkShape (shape2 wgt) (nrow, nchan bl) else Ok tt);
  do _ <- (if have_ms then checkShape (shape2 ms_in) (nrow, nchan bl) else Ok tt);
  do _ <- (if have_mask then checkShape (shape2 mask) (nrow, nchan bl) else Ok tt);
  Ok (fold_left scan_row (seq 0 nrow)
        {| active := repeat 0 (nrow * nchan bl);
           nvis := 0;
           wmin_d := huge;
           wmax_d := (- huge)%D |}).

End ScanData.

(** ** The [Params] constructor, [ms2dirty] and [dirty2ms] *)

(** The two arrays a call may write. *)
Record outputs : Type := {
  ms_out : mav2 complex;
  dirty_out : mav2 fp
}.

(** Code that writes the output arrays and may throw: the arrays as
    they are when it returns or throws. *)
Definition gridM (A : Type) : Type := outputs -> result A * outputs.

Definition retM {A : Type} (a : A) : gridM A := fun o => (Ok a, o).

Definition bindM {A B : Type} (m : gridM A) (k : A -> gridM B) : gridM B :=
  fun o =>
    match m o with
    | (Ok a, o') => k a o'
    | (Fail e, o') => (Fail e, o')
    | (Timeout, o') => (Timeout, o')
    end.

Definition liftM {A : Type} (r : result A) : gridM A := fun o => (r, o).

Notation "'run' x <- m ; k" := (bindM m (fun x => k))
  (at level 10, x pattern, m at level 100, k at level 200).

Definition fill_ms_out (z : complex) : gridM unit :=
  fun o => (Ok tt, {| ms_out := fill2 (ms_out o) z; dirty_out := dirty_out o |}).

Definition fill_dirty_out (x : fp) : gridM unit :=
  fun o => (Ok tt, {| ms_out := ms_out o; dirty_out := fill2 (dirty_out o) x |}).

Section Params.

Variable T : format.

(** Everything the constructor does after the [nvis==0] test: kernel
    and grid planning, range construction, gridding or degridding. *)
Variable gridding_phase : bool -> Baselines -> scan_state -> gridM unit.

Definition Params (uvw : mav2 fp) (freq : list fp)
    (ms_in : mav2 complex) (dirty_in : mav2 fp)
    (wgt : mav2 fp) (mask : mav2 Z) (negate_v : bool) : gridM unit :=
  let gridding := (0 <? size2 ms_in)%nat in
  run bl <- liftM (make_Baselines uvw freq negate_v);
  run _ <- (if negb gridding then fill_ms_out (zero, zero) else retM tt);
  run st <- liftM (scanData T bl ms_in wgt mask);
  if nvis st =? 0 then
    (if gridding then fill_dirty_out zero else retM tt)
  else gridding_phase gridding bl st.

(** [ms2dirty]: the outcome and the dirty image afterwards. *)
Definition ms2dirty (uvw : mav2 fp) (freq : list fp) (ms : mav2 complex)
    (wgt : mav2 fp) (mask : mav2 Z) (dirty : mav2 fp) (negate_v : bool)
    : result unit * mav2 fp :=
  let '(r, o) :=
    Params uvw freq ms (null2 zero) wgt mask negate_v
      {| ms_out := null2 (zero, zero); dirty_out := dirty |} in
  (r, dirty_out o).

(** [dirty2ms]: the outcome and the visibilities afterwards. *)
Definition dirty2ms (uvw : mav2 fp) (freq : list fp) (dirty : mav2 fp)
    (wgt : mav2 fp) (mask : mav2 Z) (ms : mav2 complex) (negate_v : bool)
    : result unit * mav2 complex :=
  let '(r, o) :=
    Params uvw freq (null2 (zero, zero)) dirty wgt mask negate_v
      {| ms_out := ms; dirty_out := null2 zero |} in
  (r, ms_out o).

End Params.

(** ** Planning: [Params::getNuNv] and [Params::countRanges] *)

(** [size_t(x)] where the code converts: an undefined conversion ends
    the run. *)
Definition to_size_t (x : fp) : result Z :=
  match size_t_of_double x with
  | Some z => Ok z
  | None => Fail (UndefinedBehaviour "double to size_t")
  end.

(** An entry of [KernelDB]; only these two fields are read here. *)
Record KernelParams : Type := { W : Z; ofactor : fp }.

(** [2*good_size_complex(size_t(nxdirty*ofactor*0.5)+1)] *)
Definition oversampled_size (fuel : nat) (nxdirty : Z) (ofactor : fp) : result Z :=
  do t <- to_size_t (dbl nxdirty * ofactor * half)%D;
  match good_size_cmplx fuel (wrap (t + 1)) with
  | Some g => Ok (wrap (2 * g))
  | None => Timeout
  end.

(** [dw] and [nplanes] as both [getNuNv] and [countRanges] compute them:
<<
  dw = 0.5/ofactor/abs(nm1min);
  nplanes = size_t((wmax_d-wmin_d)/dw+supp);
>> *)
Definition plane_spacing (ofactor nm1min : fp) : fp :=
  (half / ofactor / SFabs nm1min)%D.

Definition plane_count (wmin_d wmax_d dw : fp) (supp : Z) : result Z :=
  to_size_t ((wmax_d - wmin_d) / dw + dbl supp)%D.

Record plan : Type := {
  mincost : fp;
  minnu : Z;
  minnv : Z;
  minidx : nat
}.

Section Planning.

(** [KernelDB], [native_simd<T>::size()] and [std::log]. *)
Variable KernelDB : list KernelParams.
Variable vlen : Z.
Variable log : fp -> fp.

Variable fuel : nat.
Variables nxdirty nydirty : Z.
Variables pixsize_x pixsize_y : fp.
Variable nvis : Z.
Variable do_wgridding : bool.
Variables wmin_d wmax_d : fp.

(** [std::sqrt] rounds correctly. *)
Definition sqrt (x : fp) : fp := SFsqrt (prec binary64) (emax binary64) x.

Definition nref_fft : fp := dbl 2048.
(** The literals [0.0693] and [2.2e-10]. *)
Definition costref_fft : fp := (dbl 693 / dbl 10000)%D.
Definition gridcost_unit : fp := (dbl 22 / dbl (10 ^ 11))%D.

(**
<<
  double x0 = -0.5*nxdirty*pixsize_x,
         y0 = -0.5*nydirty*pixsize_y;
  nm1min = sqrt(max(1.-x0*x0-y0*y0,0.))-1.;
  if (x0*x0+y0*y0>1.)
    nm1min = -sqrt(abs(1.-x0*x0-y0*y0))-1.;
>> *)
Definition nm1min : fp :=
  let x0 := (- half * dbl nxdirty * pixsize_x)%D in
  let y0 := (- half * dbl nydirty * pixsize_y)%D in
  if SFltb (dbl 1) (x0 * x0 + y0 * y0)%D
  then (- sqrt (SFabs (dbl 1 - x0 * x0 - y0 * y0)) - dbl 1)%D
  else (sqrt (fmax (dbl 1 - x0 * x0 - y0 * y0) zero) - dbl 1)%D.

Definition kernel_at (i : nat) : KernelParams :=
  nth i KernelDB {| W := 0; ofactor := zero |}.

(** One turn of the loop over the candidate kernels. *)
Definition consider (best : plan) (i : nat) : result plan :=
  let krn := kernel_at i in
  let supp := W krn in
  let nvec := wrap (supp + vlen - 1) / vlen in
  let ofactor := ofactor krn in
  do nu <- oversampled_size fuel nxdirty ofactor;
  do nv <- oversampled_size fuel nydirty ofactor;
  let logterm := (log (dbl (wrap (nu * nv))) / log (nref_fft * nref_fft))%D in
  let fftcost :=
    (dbl nu / nref_fft * dbl nv / nref_fft * logterm * costref_fft)%D in
  let gridcost :=
    (gridcost_unit * dbl nvis *
     dbl (wrap (supp * nvec * vlen + (2 * nvec + 1) * (supp + 3) * vlen)))%D in
  do (fftcost, gridcost) <-
    (if do_wgridding then
       let dw := plane_spacing ofactor nm1min in
       do nplanes <- plane_count wmin_d wmax_d dw supp;
       Ok ((fftcost * dbl nplanes)%D, (gridcost * dbl supp)%D)
     else Ok (fftcost, gridcost));
  let cost := (fftcost + gridcost)%D in
  if SFltb cost (mincost best)
  then Ok {| mincost := cost; minnu := nu; minnv := nv; minidx := i |}
  else Ok best.

Fixpoint consider_all (idx : list nat) (best : plan) : result plan :=
  match idx with
  | [] => Ok best
  | i :: rest => do best' <- consider best i; consider_all rest best'
  end.

(** [getNuNv]; [idx] is [getAvailableKernels<T>(epsilon)].  The value
    holds the new [nu], [nv] and the returned index. *)
Definition getNuNv (idx : list nat) : result plan :=
  consider_all idx
    {| mincost := huge; minnu := 0; minnv := 0;
       minidx := List.length KernelDB |}.

End Planning.

(** The part of [countRanges] before the ranges are built: [dw],
    [nplanes] and [wmin]:
<<
  dw = 0.5/ofactor/abs(nm1min);
  nplanes = size_t((wmax_d-wmin_d)/dw+supp);
  wmin = (wmin_d+wmax_d)*0.5 - 0.5*(nplanes-1)*dw;
>> *)
Definition countRanges_planes (do_wgridding : bool) (ofactor nm1min : fp)
    (wmin_d wmax_d : fp) (supp : Z) : result (fp * Z * fp) :=
  if do_wgridding then
    let dw := plane_spacing ofactor nm1min in
    do nplanes <- plane_count wmin_d wmax_d dw supp;
    Ok (dw, nplanes,
        ((wmin_d + wmax_d) * half - half * dbl (wrap (nplanes - 1)) * dw)%D)
  else Ok (zero, 0, zero).

(** ** [HornerKernel] ([horner_kernel.h]) *)

(** A [native_simd<T>]: its lanes. *)
Definition simd : Type := list fp.

(** [tval*x + c], lane by lane, [x] broadcast. *)
Fixpoint vfma (T : format) (tval : simd) (x : fp) (c : simd) : simd :=
  match tval, c with
  | t :: tval', c0 :: c' => (t *[T] x +[T] c0) :: vfma T tval' x c'
  | _, _ => []
  end.

(** [(W+vlen-1)/vlen] *)
Definition nvec (W vlen : nat) : nat := ((W + vlen - 1) / vlen)%nat.

(** [x = (x+1)*W-1], the first statement of every batch evaluation. *)
Definition rescale (T : format) (W : nat) (x : fp) : fp :=
  (x +[T] of_Z T 1) *[T] of_Z T (Z.of_nat W) -[T] of_Z T 1.

Section HornerKernel.

(** Template arguments [W], [D], [T]; [vlen] is [Tsimd::size()]. *)
Variable T : format.
Variables W D vlen : nat.

(** [array<array<Tsimd,nvec>,D+1> coeff] *)
Variable coeff : list (list simd).

Definition coeff_at (j i : nat) : simd := nth i (nth j coeff []) [].

(** [eval]: the vectors [res.v]. *)
Definition eval (x : fp) : list simd :=
  let x := rescale T W x in
  map (fun i =>
         fold_left (fun tval j => vfma T tval x (coeff_at j i))
                   (seq 1 D) (coeff_at 0 i))
      (seq 0 (nvec W vlen)).

(** The scalar view [res.s] of the union: [res.s[k]] is lane
    [k % vlen] of [res.v[k / vlen]]. *)
Definition scalar_view (res_v : list simd) (k : nat) : fp :=
  nth (k mod vlen) (nth (k / vlen) res_v []) zero.


End HornerKernel.

(** ** [util1d::prime_factors], [rfftpass::factorize] and the children of
    a multipass *)

(** [util1d::prime_factors].  Its first loop is
    [while ((N&1)==0) { N>>=1; factors.push_back(2); }]. *)
Definition prime_factors (fuel : nat) (N : Z) : result (list Z) :=
  do _ <- MR_assert (0 <? N) "need a positive number";
  do (N, factors) <- while_low_bits_zero 1 2 1 fuel N [];
  do (N, factors) <- for_odd_divisors fuel 3 N factors;
  Ok (if 1 <? N then factors ++ [N] else factors).

Module rfftpass.

(** [rfftpass::factorize] *)
Definition factorize (fuel : nat) (N : Z) : result (list Z) :=
  do _ <- MR_assert (0 <? N) "need a positive number";
  do (N, factors) <- while_low_bits_zero 3 4 2 fuel N [];
  let '(N, factors) :=
    if Z.land N 1 =? 0
    then (Z.shiftr N 1, swap_front_back (factors ++ [2]))
    else (N, factors) in
  do (N, factors) <- for_odd_divisors fuel 3 N factors;
  Ok (if 1 <? N then factors ++ [N] else factors).

End rfftpass.

(** The arguments [(l1l, ip/(fct*l1l), fct)] of the [make_pass] calls in
<<
  size_t l1l=1;
  for (auto fct: factors)
    { passes.push_back(make_pass(l1l, ip/(fct*l1l), fct, ...)); l1l*=fct; }
>>
    of the [cfft_multipass] and [rfft_multipass] constructors. *)
Fixpoint pass_args (ip l1l : Z) (factors : list Z) : list (Z * Z * Z) :=
  match factors with
  | [] => []
  | fct :: rest =>
      (l1l, ip / wrap (fct * l1l), fct) :: pass_args ip (wrap (l1l * fct)) rest
  end.

(** [sort(factors.begin(), factors.end(), std::greater<size_t>())] *)
Fixpoint insert_desc (x : Z) (l : list Z) : list Z :=
  match l with
  | [] => [x]
  | y :: rest => if y <? x then x :: l else y :: insert_desc x rest
  end.

Definition sort_desc (l : list Z) : list Z := fold_right insert_desc [] l.

(** [(packets[0]>packets[1]) ? packets[1]*=fct : packets[0]*=fct;] *)
Definition add_to_packet (packets : Z * Z) (fct : Z) : Z * Z :=
  let '(p0, p1) := packets in
  if p1 <? p0 then (p0, wrap (p1 * fct)) else (wrap (p0 * fct), p1).

(** The factors a [cfft_multipass] of length [ip] hands to its children. *)
Definition multipass_factors (fuel : nat) (ip : Z) (vectorize : bool)
    : result (list Z) :=
  let lim := if vectorize then 1000 else SizeT.max in
  if ip <=? lim then factorize fuel ip
  else
    do factors <- prime_factors fuel ip;
    let '(p0, p1) := fold_left add_to_packet (sort_desc factors) (1, 1) in
    Ok [p0; p1].

(** The [make_pass] calls of the [cfft_multipass] constructor. *)
Definition cfft_multipass_children (fuel : nat) (ip : Z) (vectorize : bool)
    : result (list (Z * Z * Z)) :=
  do factors <- multipass_factors fuel ip vectorize;
  Ok (pass_args ip 1 factors).

(** The [make_pass] calls of the [rfft_multipass] constructor. *)
Definition rfft_multipass_children (fuel : nat) (ip : Z)
    : result (list (Z * Z * Z)) :=
  do factors <- rfftpass.factorize fuel ip;
  Ok (pass_args ip 1 factors).

(** The node [rfftpass::make_pass] builds; a real Bluestein pass owns the
    complex plan [cplan] of the same length. *)
Inductive rpass : Type :=
| rfftp1
| rfftp2 (l1 ido : Z)
| rfftp3 (l1 ido : Z)
| rfftp4 (l1 ido : Z)
| rfftp5 (l1 ido : Z)
| rfftpg (l1 ido ip : Z)
| rfftpblue (l1 ido ip : Z) (cplan : pass)
| rfft_multipass (l1 ido ip : Z).

Section RMakePass.

Variable vlen : Z.

(** The [rfftpblue] constructor: the member initialiser
    [cplan(cfftpass<Tfs>::make_pass(1,1,ip,roots,vectorize))], then the
    two assertions of its body. *)
Definition make_rfftpblue (fuel : nat) (l1 ido ip : Z) (vectorize : bool)
    : result rpass :=
  do cplan <- make_pass vlen fuel 1 1 ip vectorize;
  do _ <- MR_assert (negb (Z.land ip 1 =? 0)) "Bluestein length must be odd";
  do _ <- MR_assert (negb (Z.land ido 1 =? 0)) "ido must be odd";
  Ok (rfftpblue l1 ido ip cplan).

(** The constructors of [rfftp3], [rfftp5] and [rfftpg] start with
    [MR_assert(ido&1, "ido must be odd")]. *)
Definition odd_ido (ido : Z) (p : rpass) : result rpass :=
  do _ <- MR_assert (negb (Z.land ido 1 =? 0)) "ido must be odd";
  Ok p.

(** [rfftpass::make_pass] *)
Definition rfft_make_pass (fuel : nat) (l1 ido ip : Z) (vectorize : bool)
    : result rpass :=
  do _ <- MR_assert (1 <=? ip) "no zero-sized FFTs";
  if ip =? 1 then Ok rfftp1
  else
    do factors <- rfftpass.factorize fuel ip;
    if (List.length factors =? 1)%nat then
      if ip =? 2 then Ok (rfftp2 l1 ido)
      else if ip =? 3 then odd_ido ido (rfftp3 l1 ido)
      else if ip =? 4 then Ok (rfftp4 l1 ido)
      else if ip =? 5 then odd_ido ido (rfftp5 l1 ido)
      else if ip <? 135 then odd_ido ido (rfftpg l1 ido ip)
      else make_rfftpblue fuel l1 ido ip vectorize
    else Ok (rfft_multipass l1 ido ip).

End RMakePass.

(** ** The tables of the [cfftpblue] constructor *)

(** [a[i] = v] on an array held as a list; the list is left alone when
    [i] is out of range. *)
Fixpoint store {A : Type} (i : nat) (v : A) (a : list A) : list A :=
  match a, i with
  | [], _ => []
  | _ :: t, O => v :: t
  | h :: t, S i' => h :: store i' v t
  end.

(** The values [lo, lo+1, ..., hi-1] of a loop variable. *)
Definition zrange (lo hi : Z) : list Z :=
  map (fun i => lo + Z.of_nat i) (seq 0 (Z.to_nat (hi - lo))).

(** One round of
<<
  coeff+=2*m-1;
  if (coeff>=2*ip) coeff-=2*ip;
  bk[m] = ( *roots2)[coeff*rfct2];
>>
    keeping the indices [coeff] at which the table of [2*ip]-th roots of
    unity is read. *)
Definition chirp_step (ip : Z) (st : Z * list Z) (m : Z) : Z * list Z :=
  let '(coeff, idx) := st in
  let coeff := wrap (coeff + wrap (wrap (2 * m) - 1)) in
  let coeff :=
    if wrap (2 * ip) <=? coeff then wrap (coeff - wrap (2 * ip)) else coeff in
  (coeff, idx ++ [coeff]).

(** The root indices of [bk[1]], ..., [bk[ip-1]]. *)
Definition chirp_indices (ip : Z) : list Z :=
  snd (fold_left (chirp_step ip) (zrange 1 ip) (0, [])).

Section Tbkf.

Variable T : Type.
(** [Tcs(0.,0.)] *)
Variable zero : T.
(** [bk[m]*xn2] *)
Variable bk_xn2 : Z -> T.

(** The array [tbkf] before the sub-plan transforms it; [None] is an
    element that was never written:
<<
  aligned_array<Tcs> tbkf(ip2), ...;
  tbkf[0] = bk[0]*xn2;
  for (size_t m=1; m<ip; ++m)
    tbkf[m] = tbkf[ip2-m] = bk[m]*xn2;
  for (size_t m=ip;m<=(ip2-ip);++m)
    tbkf[m].Set(0.,0.);
>> *)
Definition tbkf (ip ip2 : Z) : list (option T) :=
  let a := repeat None (Z.to_nat ip2) in
  let a := store 0 (Some (bk_xn2 0)) a in
  let a :=
    fold_left
      (fun a m =>
         store (Z.to_nat m) (Some (bk_xn2 m))
           (store (Z.to_nat (wrap (ip2 - m))) (Some (bk_xn2 m)) a))
      (zrange 1 ip) a in
  fold_left (fun a m => store (Z.to_nat m) (Some zero) a)
    (zrange ip (wrap (ip2 - ip) + 1)) a.

End Tbkf.

(** [r2c_internal] up to the call of [ducc0::r2c]: the value is the
    shape of the output array and the factor handed over. *)
Definition r2c_internal (shape : list Z) (axes_ : option (list Z))
    (inorm : Z) : result (list Z * norm_factor) :=
  do axes <- makeaxes (List.length shape) axes_;
  let axis := last axes 0%nat in
  let dims_out :=
    set_nth axis (wrap (Z.shiftr (nth axis shape 0) 1 + 1)) shape in
  do fct <- norm_fct inorm shape axes 1 0;
  Ok (dims_out, fct).

(** ** The gridder: ranges of visibilities, Hartley conversion *)

(** Conversions to [uint16_t] and [uint32_t]. *)
Definition uint16 (z : Z) : Z := z mod 2 ^ 16.
Definition uint32 (z : Z) : Z := z mod 2 ^ 32.

(** [class visrange] *)
Record visrange : Type := {
  row : Z;
  tile_u : Z;
  tile_v : Z;
  minplane : Z;
  ch_begin : Z;
  ch_end : Z
}.

(** The constructor of [visrange]; its parameters have the types of the
    fields. *)
Definition make_visrange (tile_u_ tile_v_ minplane_ row_ ch_begin_ ch_end_ : Z)
    : visrange :=
  {| row := uint32 row_;
     tile_u := uint16 tile_u_;
     tile_v := uint16 tile_v_;
     minplane := uint16 minplane_;
     ch_begin := uint16 ch_begin_;
     ch_end := uint16 ch_end_ |}.

(** [(uint64_t(tile_u)<<32) + (uint64_t(tile_v)<<16) + minplane] *)
Definition uvwidx (r : visrange) : Z :=
  wrap (wrap (wrap (Z.shiftl (tile_u r) 32) + wrap (Z.shiftl (tile_v r) 16))
        + minplane r).

(** [size_t xu = (u==0) ? 0 : nu-u;] *)
Definition mirrored (n i : nat) : nat := if (i =? 0)%nat then 0%nat else (n - i)%nat.

(** [grid.conformable(grid2)] *)
Definition conformable {A B : Type} (a : mav2 A) (b : mav2 B) : bool :=
  (shape0 a =? shape0 b)%nat && (shape1 a =? shape1 b)%nat.

(** [hartley2complex]; the value is the array [grid2] after the call. *)
Definition hartley2complex (T : format) (grid : mav2 fp) (grid2 : mav2 complex)
    : result (mav2 complex) :=
  do _ <- MR_assert (conformable grid grid2) "shape mismatch";
  let nu := shape0 grid in
  let nv := shape1 grid in
  Ok {| shape0 := shape0 grid2;
        shape1 := shape1 grid2;
        at2 := fun iu iv =>
          if (iu <? nu)%nat && (iv <? nv)%nat then
            let xu := mirrored nu iu in
            let xv := mirrored nv iv in
            let v1 := convert T half *[T] at2 grid iu iv in
            let v2 := convert T half *[T] at2 grid xu xv in
            (v1 +[T] v2, v1 -[T] v2)
          else at2 grid2 iu iv |}.

(** The state of the channel loop of [countRanges] for one row. *)
Record run_state : Type := {
  on : bool;
  iulast : Z;
  ivlast : Z;
  plast : Z;
  chan0 : Z;
  myranges : list visrange
}.

Section RowRanges.

(** [active[irow*nchan+ichan]] of the row at hand *)
Variable active_chan : Z -> bool.
(** The values [(iu0, iv0, iw)] the loop body computes for a channel. *)
Variable tile : Z -> Z * Z * Z.
Variable irow : Z.

(** The body of [for (size_t ichan=0; ichan<nchan; ++ichan)]. *)
Definition channel_step (st : run_state) (ichan : Z) : run_state :=
  if active_chan ichan then
    let '(iu0, iv0, iw) := tile ichan in
    if negb (on st) then
      {| on := true; iulast := iu0; ivlast := iv0; plast := iw;
         chan0 := ichan; myranges := myranges st |}
    else if negb (iu0 =? iulast st) || negb (iv0 =? ivlast st)
            || negb (iw =? plast st) then
      {| on := true; iulast := iu0; ivlast := iv0; plast := iw;
         chan0 := ichan;
         myranges := myranges st ++
           [make_visrange (iulast st) (ivlast st) (plast st) irow
              (chan0 st) ichan] |}
    else st
  else if on st then
    {| on := false; iulast := iulast st; ivlast := ivlast st;
       plast := plast st; chan0 := chan0 st;
       myranges := myranges st ++
         [make_visrange (iulast st) (ivlast st) (plast st) irow
            (chan0 st) ichan] |}
  else st.

(** The ranges one row adds to [myranges]:
<<
  bool on=false;
  int iulast, ivlast, plast;
  size_t chan0=0;
  for (...) {...}
  if (on) // end of active region at last channel
    myranges.emplace_back(iulast, ivlast, plast, irow, chan0, nchan);
>>
    The three uninitialised variables start at 0 here. *)
Definition row_ranges (nchan : Z) (ranges0 : list visrange) : list visrange :=
  let st :=
    fold_left channel_step (zrange 0 nchan)
      {| on := false; iulast := 0; ivlast := 0; plast := 0; chan0 := 0;
         myranges := ranges0 |} in
  if on st
  then myranges st ++
         [make_visrange (iulast st) (ivlast st) (plast st) irow (chan0 st) nchan]
  else myranges st.

End RowRanges.

(** ** The gridder: between the dirty image and the oversampled grid *)

(** [m.v(i,j) = x] *)
Definition upd2 {A : Type} (m : mav2 A) (i j : nat) (x : A) : mav2 A :=
  {| shape0 := shape0 m;
     shape1 := shape1 m;
     at2 := fun a b => if ((a =? i) && (b =? j))%nat then x else at2 m a b |}.

(** Two nested loops whose body is the assignment
    [m.v(cell i j) = val i j]; the range of the inner loop may depend
    on the outer variable. *)
Definition loop2 {A : Type} (outer : list Z) (inner : Z -> list Z)
    (cell : Z -> Z -> nat * nat) (val : Z -> Z -> A) (m : mav2 A) : mav2 A :=
  fold_left
    (fun m i =>
       fold_left
         (fun m j => upd2 m (fst (cell i j)) (snd (cell i j)) (val i j))
         (inner i) m)
    outer m.

(** [abs(int(nxdirty/2)-int(i))] *)
Definition icf (nxdirty i : Z) : Z := Z.abs (nxdirty / 2 - i).

(** [size_t i2 = nu-nxdirty/2+i; if (i2>=nu) i2-=nu;] *)
Definition grid_index (nu nxdirty i : Z) : Z :=
  let i2 := wrap (wrap (nu - nxdirty / 2) + i) in
  if nu <=? i2 then wrap (i2 - nu) else i2.

Section DirtyGrid.

(** The type [T] of the grid, and fields of [Params]. *)
Variable T : format.
Variables nxdirty nydirty nu nv : Z.
(** The tables [krn->corfunc(nxdirty/2+1, 1./nu, nthreads)] and
    [krn->corfunc(nydirty/2+1, 1./nv, nthreads)], of [double]. *)
Variables cfu cfv : Z -> fp.

(** [T(cfu[icfu]*cfv[icfv])] *)
Definition corr (i j : Z) : fp :=
  convert T (cfu (icf nxdirty i) * cfv (icf nydirty j))%D.

(** [grid2dirty_post]; the value is the array [dirty] after the call. *)
Definition grid2dirty_post (tmav dirty : mav2 fp) : result (mav2 fp) :=
  do _ <- checkShape (shape2 dirty) (Z.to_nat nxdirty, Z.to_nat nydirty);
  Ok (loop2 (zrange 0 nxdirty) (fun _ => zrange 0 nydirty)
        (fun i j => (Z.to_nat i, Z.to_nat j))
        (fun i j =>
           at2 tmav (Z.to_nat (grid_index nu nxdirty i))
                    (Z.to_nat (grid_index nv nydirty j)) *[T] corr i j)
        dirty).

(** [dirty2grid_pre]; the value is the array [grid] after the call. *)
Definition dirty2grid_pre (dirty grid : mav2 fp) : result (mav2 fp) :=
  do _ <- checkShape (shape2 dirty) (Z.to_nat nxdirty, Z.to_nat nydirty);
  do _ <- checkShape (shape2 grid) (Z.to_nat nu, Z.to_nat nv);
  let grid :=
    loop2 (zrange 0 nu)
      (fun i =>
         if (i <? nxdirty / 2) || (wrap (nu - nxdirty / 2) <=? i)
         then zrange (nydirty / 2) (wrap (wrap (nv - nydirty / 2) + 1))
         else zrange 0 nv)
      (fun i j => (Z.to_nat i, Z.to_nat j))
      (fun _ _ => zero)
      grid in
  Ok (loop2 (zrange 0 nxdirty) (fun _ => zrange 0 nydirty)
        (fun i j => (Z.to_nat (grid_index nu nxdirty i),
                     Z.to_nat (grid_index nv nydirty j)))
        (fun i j => at2 dirty (Z.to_nat i) (Z.to_nat j) *[T] corr i j)
        grid).

End DirtyGrid.

(** ** [HornerKernelFlexible] ([horner_kernel.h]) *)

Module HornerKernelFlexible.

Definition MAXW : nat := 16.
Definition MAXDEG : nat := 20.

(** What the member pointer [evalfunc] points to. *)
Inductive evalfunc : Type :=
| eval_intern (NV DEG : nat)
| eval_intern_general.

(** [evfhelper2<NV,DEG>()]; a call of another instance costs one unit of
    [fuel]. *)
Fixpoint evfhelper2 (fuel : nat) (D NV DEG : nat) : option evalfunc :=
  match fuel with
  | O => None
  | S fuel' =>
      if (DEG =? D)%nat then Some (eval_intern NV DEG)
      else if (MAXDEG <? DEG)%nat then Some eval_intern_general
      else evfhelper2 fuel' D NV (if (MAXDEG <? DEG)%nat then DEG else S DEG)
  end.

(** [evfhelper1<NV>()] *)
Fixpoint evfhelper1 (fuel : nat) (vlen nvec D NV : nat) : option evalfunc :=
  match fuel with
  | O => None
  | S fuel' =>
      if (nvec =? NV)%nat then evfhelper2 fuel D NV 0
      else if (MAXW <? nvec * vlen)%nat then Some eval_intern_general
      else evfhelper1 fuel' vlen nvec D
             (if (MAXW <? NV * vlen)%nat then NV else S NV)
  end.

Section Kernel.

(** The template argument [T]; the members [W], [D] and [coeff];
    [vlen] is [Tsimd::size()], and the member [nvec] is
    [(W+vlen-1)/vlen]. *)
Variable T : format.
Variables W D vlen : nat.
Variable coeff : list simd.

(** [eval_intern<NV,DEG>]: the vectors written to [res]. *)
Definition run_eval_intern (NV DEG : nat) (x : fp) : list simd :=
  let x := rescale T W x in
  map (fun i =>
         fold_left (fun tval j => vfma T tval x (nth (j * NV + i) coeff []))
                   (seq 1 DEG) (nth i coeff []))
      (seq 0 NV).

(** [eval_intern_general] *)
Definition run_eval_intern_general (x : fp) : list simd :=
  let x := rescale T W x in
  map (fun i =>
         fold_left (fun tval j => vfma T tval x (nth (j * nvec W vlen + i) coeff []))
                   (seq 1 D) (nth i coeff []))
      (seq 0 (nvec W vlen)).

(** [(this->*evalfunc)(x, res)] *)
Definition call (f : evalfunc) (x : fp) : list simd :=
  match f with
  | eval_intern NV DEG => run_eval_intern NV DEG x
  | eval_intern_general => run_eval_intern_general x
  end.

(** [eval], with [evalfunc(evfhelper1<1>())] from the constructor;
    [None] when the selection does not return. *)
Definition eval (fuel : nat) (x : fp) : option (list simd) :=
  match evfhelper1 fuel vlen (nvec W vlen) D 1 with
  | Some f => Some (call f x)
  | None => None
  end.

End Kernel.

End HornerKernelFlexible.

(** ** The coefficient tables of [HornerKernel] and [HornerKernelFlexible] *)

(** [l[i] = f(l[i])] on an array held as a list. *)
Fixpoint modify {A : Type} (i : nat) (f : A -> A) (l : list A) : list A :=
  match l, i with
  | [], _ => []
  | h :: t, O => f h :: t
  | h :: t, S i' => h :: modify i' f t
  end.

(** The loops both constructors run over the raw coefficients of
    [getCoeffs], with [set j i v] for the assignment to the element
    of row [j] and position [i]:
<<
  for (size_t j=0; j<=D; ++j)
    {
    for (size_t i=0; i<W; ++i)
      coeff... = T(coeff_raw[j*W+i]);
    for (size_t i=W; i<vlen*nvec; ++i)
      coeff... = T(0);
    }
>> *)
Definition fill_coeff {Tbl : Type} (T : format)
    (set : nat -> nat -> fp -> Tbl -> Tbl)
    (W D vlen : nat) (coeff_raw : nat -> fp) (coeff : Tbl) : Tbl :=
  fold_left
    (fun c j =>
       let c :=
         fold_left (fun c i => set j i (convert T (coeff_raw (j * W + i)%nat)) c)
                   (seq 0 W) c in
       fold_left (fun c i => set j i zero c) (seq W (vlen * nvec W vlen - W)) c)
    (seq 0 (D + 1)) coeff.

(** [coeff[j][i/vlen][i%vlen] = v] of [HornerKernel] *)
Definition set_nested (vlen : nat) (j i : nat) (v : fp) (coeff : list (list simd))
    : list (list simd) :=
  modify j (modify (i / vlen) (store (i mod vlen) v)) coeff.

(** The constructor of [HornerKernel]; [coeff0] is the member [coeff]
    before the constructor body runs. *)
Definition HornerKernel_init (T : format) (W D vlen : nat) (coeff_raw : nat -> fp)
    (coeff0 : list (list simd)) : list (list simd) :=
  fill_coeff T (set_nested vlen) W D vlen coeff_raw coeff0.

(** [coeff[j*nvec + i/vlen][i%vlen] = v] of [HornerKernelFlexible] *)
Definition set_flat (W vlen : nat) (j i : nat) (v : fp) (coeff : list simd)
    : list simd :=
  modify (j * nvec W vlen + i / vlen) (store (i mod vlen) v) coeff.

(** The constructor of [HornerKernelFlexible], from the member
    initialiser [coeff(nvec*(D+1), 0)]. *)
Definition HornerKernelFlexible_init (T : format) (W D vlen : nat)
    (coeff_raw : nat -> fp) : list simd :=
  fill_coeff T (set_flat W vlen) W D vlen coeff_raw
    (repeat (repeat zero vlen) (nvec W vlen * (D + 1))).

(** ** [aligned_array] ([vecsupport.h]), portable emulation *)

(** What [ralloc] hands back: [nullptr], the exception [bad_alloc], or
    the aligned address [res] with the address [saved] written to
    [res[-1]]. *)
Inductive allocation : Type :=
| Null
| BadAlloc
| Block (res saved : Z).

(** [ralloc(num)] for elements of [sizeof(T) = sizeofT] bytes; [malloc]
    answers the address of a block of the requested size, or [None]. *)
Definition ralloc (malloc : Z -> option Z) (sizeofT num : Z) : allocation :=
  if num =? 0 then Null
  else
    match malloc (wrap (wrap (num * sizeofT) + 64)) with
    | None => BadAlloc
    | Some ptr => Block (wrap (Z.land ptr (wrap (Z.lnot 63)) + 64)) ptr
    end.

(** ** [sharp_standard_alm_info] ([sharp_almhelpers.cc]) *)

(** Conversion to [ptrdiff_t], and its 64-bit two's complement
    arithmetic. *)
Definition ptrdiff_t (z : Z) : Z := (z + 2 ^ 63) mod 2 ^ 64 - 2 ^ 63.

Record sharp_standard_alm_info : Type := {
  lmax_ : Z;
  mval_ : list Z;
  mvstart : list Z;
  stride : Z
}.

(** The constructor
    [sharp_standard_alm_info(lmax__, mmax_, stride_, mstart)]. *)
Definition make_standard_alm_info (lmax__ mmax_ stride_ : Z) (mstart : list Z)
    : sharp_standard_alm_info :=
  {| lmax_ := lmax__;
     mval_ := zrange 0 (mmax_ + 1);
     mvstart := map (fun i => nth (Z.to_nat i) mstart 0) (zrange 0 (mmax_ + 1));
     stride := stride_ |}.

(** [sharp_make_triangular_alm_info] *)
Definition sharp_make_triangular_alm_info (lmax mmax stride : Z)
    : sharp_standard_alm_info :=
  let tval := wrap (wrap (2 * lmax) + 1) in
  let mvstart :=
    map (fun m =>
           ptrdiff_t (stride * ptrdiff_t (Z.shiftr (wrap (m * wrap (tval - m))) 1)))
        (zrange 0 (mmax + 1)) in
  make_standard_alm_info lmax mmax stride mvstart.

(** [index(l, mi)]: [mvstart[mi]+stride*ptrdiff_t(l)] *)
Definition index (info : sharp_standard_alm_info) (l mi : Z) : Z :=
  ptrdiff_t (nth (Z.to_nat mi) (mvstart info) 0
             + ptrdiff_t (stride info * ptrdiff_t l)).

(** The loop of [mmax()] over [mval_]. *)
Fixpoint mmax_loop (nm_ : Z) (mval : list Z) (mcheck : list bool)
    : result (list bool) :=
  match mval with
  | [] => Ok mcheck
  | m_cur :: rest =>
      do _ <- MR_assert (m_cur <? nm_) "not all m values are present";
      do _ <- MR_assert (negb (nth (Z.to_nat m_cur) mcheck false))
                "duplicate m value";
      mmax_loop nm_ rest (store (Z.to_nat m_cur) true mcheck)
  end.

(** [mmax()] *)
Definition mmax (info : sharp_standard_alm_info) : result Z :=
  let nm_ := Z.of_nat (List.length (mval_ info)) in
  do _ <- mmax_loop nm_ (mval_ info) (repeat false (Z.to_nat nm_));
  Ok (wrap (nm_ - 1)).

(** ** Merging the ranges of the threads ([countRanges]) *)

(** [merge(a.begin(), a.end(), b.begin(), b.end(), back_inserter(tmp),
    Sorter)] with [Sorter(a,b) = a.uvwidx()<b.uvwidx()]: an element of
    [b] goes first only when its key is smaller. *)
Fixpoint merge_ranges (a : list visrange) : list visrange -> list visrange :=
  match a with
  | [] => fun b => b
  | x :: a' =>
      fix merge_into (b : list visrange) : list visrange :=
        match b with
        | [] => x :: a'
        | y :: b' =>
            if uvwidx y <? uvwidx x then y :: merge_into b'
            else x :: merge_ranges a' (y :: b')
        end
  end.

(** What thread [tid] of a round does to [lranges]:
<<
  auto tid_partner = nth-1-tid;
  VVR tmp;
  merge(lranges[tid].v..., lranges[tid_partner].v..., back_inserter(tmp), Sorter);
  lranges[tid].v.swap(tmp);
  VVR().swap(lranges[tid_partner].v);
>> *)
Definition merge_step (nth_ : nat) (lranges : list (list visrange)) (tid : nat)
    : list (list visrange) :=
  let tid_partner := (nth_ - 1 - tid)%nat in
  let tmp := merge_ranges (nth tid lranges []) (nth tid_partner lranges []) in
  store tid_partner [] (store tid tmp lranges).

(** [while (nth>1) { auto nmerge=nth/2; execParallel(nmerge, ...); nth-=nmerge; }] *)
Fixpoint merge_loop (fuel : nat) (nth_ : nat) (lranges : list (list visrange))
    : option (list (list visrange)) :=
  match fuel with
  | O => None
  | S fuel' =>
      if (1 <? nth_)%nat then
        let nmerge := (nth_ / 2)%nat in
        merge_loop fuel' (nth_ - nmerge)
          (fold_left (merge_step nth_) (seq 0 nmerge) lranges)
      else Some lranges
  end.

(** [ranges] after [ranges.swap(lranges[0].v)]; [lranges] holds the
    sorted ranges of the [nthreads] threads. *)
Definition merged_ranges (fuel nthreads : nat) (lranges : list (list visrange))
    : option (list visrange) :=
  match merge_loop fuel nthreads lranges with
  | Some l => Some (nth 0%nat l [])
  | None => None
  end.

(** * Specifications *)

(** ** Numbers composed of a given set of primes *)

(** "[m] has only prime factors in [ps]": every prime that divides [m]
    is listed in [ps].  [0] is divisible by every prime, so it never
    qualifies; [1] always does. *)
Definition only_prime_factors (ps : list Z) (m : Z) : Prop :=
  forall p, Z.prime p -> (p | m) -> In p ps.

Definition cmplx_primes : list Z := [2; 3; 5; 7; 11].
Definition real_primes : list Z := [2; 3; 5].

(** [m] is the smallest number [>= n] that has only prime factors in [ps]. *)
Definition smallest_good (ps : list Z) (n m : Z) : Prop :=
  n <= m /\ only_prime_factors ps m /\
  forall m', n <= m' -> only_prime_factors ps m' -> m <= m'.

(** Products of members of [ps]. *)
Inductive smooth (ps : list Z) : Z -> Prop :=
| smooth_one : smooth ps 1
| smooth_mul p m : In p ps -> smooth ps m -> smooth ps (p * m).

(** [b ^ k] for a [nat] exponent. *)
Definition pw (b : Z) (k : nat) : Z := b ^ Z.of_nat k.

(** The primes [good_size(n, real)] may use. *)
Definition allowed_primes (real : bool) : list Z :=
  if real then real_primes else cmplx_primes.


(** * Verification *)

Section NumberTheory.

Lemma pw_0 b : pw b 0 = 1.
Proof. reflexivity. Qed.

Lemma pw_S b k : pw b (S k) = b * pw b k.
Proof. unfold pw. rewrite Nat2Z.inj_succ, Z.pow_succ_r by lia. reflexivity. Qed.

Lemma pw_pos b k : 0 < b -> 0 < pw b k.
Proof. intros Hb. unfold pw. apply Z.pow_pos_nonneg; lia. Qed.

Lemma pw_add b j k : pw b (j + k) = pw b j * pw b k.
Proof. unfold pw. rewrite Nat2Z.inj_add, Z.pow_add_r by lia. reflexivity. Qed.

Lemma pw_ge_1 b k : 1 <= b -> 1 <= pw b k.
Proof. intros Hb. pose proof (pw_pos b k). lia. Qed.

Lemma pw_odd b k : Z.odd b = true -> Z.odd (pw b k) = true.
Proof.
  intros Hb. induction k as [|k IH].
  - reflexivity.
  - rewrite pw_S, Z.odd_mul, Hb, IH. reflexivity.
Qed.

Lemma pw2_S_even k : Z.odd (pw 2 (S k)) = false.
Proof. rewrite pw_S, Z.odd_mul. reflexivity. Qed.

Lemma small_prime p :
  1 < p -> (forall n, 1 < n < p -> p mod n <> 0) -> Z.prime p.
Proof.
  intros Hp H. split; [exact Hp|].
  intros n Hn Hd. apply (H n Hn).
  apply Z.mod_divide; [lia | exact Hd].
Qed.

Lemma prime_5 : Z.prime 5.
Proof.
  apply small_prime; [lia|]. intros n Hn.
  assert (n = 2 \/ n = 3 \/ n = 4) as [->|[->| ->]] by lia; discriminate.
Qed.

Lemma prime_7 : Z.prime 7.
Proof.
  apply small_prime; [lia|]. intros n Hn.
  assert (n = 2 \/ n = 3 \/ n = 4 \/ n = 5 \/ n = 6)
    as [->|[->|[->|[->| ->]]]] by lia; discriminate.
Qed.

Lemma prime_11 : Z.prime 11.
Proof.
  apply small_prime; [lia|]. intros n Hn.
  assert (n = 2 \/ n = 3 \/ n = 4 \/ n = 5 \/ n = 6 \/
          n = 7 \/ n = 8 \/ n = 9 \/ n = 10)
    as [->|[->|[->|[->|[->|[->|[->|[->| ->]]]]]]]] by lia; discriminate.
Qed.

Lemma cmplx_primes_prime : Forall Z.prime cmplx_primes.
Proof.
  unfold cmplx_primes.
  repeat (apply Forall_cons || apply Forall_nil);
    auto using Z.prime_2, Z.prime_3, prime_5, prime_7, prime_11.
Qed.

Lemma real_primes_prime : Forall Z.prime real_primes.
Proof.
  unfold real_primes.
  repeat (apply Forall_cons || apply Forall_nil);
    auto using Z.prime_2, Z.prime_3, prime_5.
Qed.

(** Every number above 1 has a prime divisor. *)
Lemma prime_divisor_exists m : 1 < m -> exists p, Z.prime p /\ (p | m).
Proof.
  induction m as [m IH] using (well_founded_induction (Z.lt_wf 0)).
  intros Hm. destruct (prime_dec m) as [Hp|Hnp].
  - exists m. split; [apply prime_alt; exact Hp | apply Z.divide_refl].
  - destruct (not_prime_divide m Hm Hnp) as (d & Hd & Hdm).
    destruct (IH d ltac:(lia) ltac:(lia)) as (p & Hp & Hpd).
    exists p. split; [exact Hp | eapply Z.divide_trans; eassumption].
Qed.

Lemma opf_divisor ps d m :
  (d | m) -> only_prime_factors ps m -> only_prime_factors ps d.
Proof.
  intros Hd H p Hp Hpd. apply (H p Hp). eapply Z.divide_trans; eassumption.
Qed.

Lemma opf_1 ps : only_prime_factors ps 1.
Proof.
  intros p Hp Hd. exfalso.
  pose proof (Z.prime_ge_2 p Hp).
  apply Z.divide_1_r_nonneg in Hd; lia.
Qed.

Lemma opf_mul ps q m :
  Forall Z.prime ps -> In q ps ->
  only_prime_factors ps m -> only_prime_factors ps (q * m).
Proof.
  intros Hps Hq Hm p Hp Hd.
  apply Z.divide_prime_mul in Hd; [|exact Hp].
  destruct Hd as [Hd|Hd].
  - rewrite Forall_forall in Hps.
    apply Z.divide_prime_prime in Hd; [subst; exact Hq | exact Hp | auto].
  - apply Hm; assumption.
Qed.

Lemma prime_13 : Z.prime 13.
Proof.
  apply small_prime; [lia|]. intros n Hn.
  assert (n = 2 \/ n = 3 \/ n = 4 \/ n = 5 \/ n = 6 \/ n = 7 \/
          n = 8 \/ n = 9 \/ n = 10 \/ n = 11 \/ n = 12)
    as [->|[->|[->|[->|[->|[->|[->|[->|[->|[->| ->]]]]]]]]]] by lia;
    discriminate.
Qed.

Lemma opf_cmplx_not_0 : ~ only_prime_factors cmplx_primes 0.
Proof.
  intros H. specialize (H 13 prime_13 (Z.divide_0_r 13)).
  simpl in H. lia.
Qed.

Lemma opf_real_not_0 : ~ only_prime_factors real_primes 0.
Proof.
  intros H. specialize (H 13 prime_13 (Z.divide_0_r 13)).
  simpl in H. lia.
Qed.

Lemma smooth_opf ps m :
  Forall Z.prime ps -> smooth ps m -> only_prime_factors ps m.
Proof.
  intros Hps H. induction H as [|q m Hq _ IH].
  - apply opf_1.
  - apply opf_mul; assumption.
Qed.

Lemma opf_smooth ps m :
  0 < m -> only_prime_factors ps m -> smooth ps m.
Proof.
  induction m as [m IH] using (well_founded_induction (Z.lt_wf 0)).
  intros Hm H.
  destruct (Z.eq_dec m 1) as [->|Hne]; [constructor|].
  destruct (prime_divisor_exists m ltac:(lia)) as (p & Hp & [k Hk]).
  pose proof (Z.prime_ge_2 p Hp) as Hp2.
  assert (Hk0 : 0 < k) by nia.
  assert (Hkm : k < m) by nia.
  replace m with (p * k) by lia.
  apply smooth_mul.
  - apply H; [exact Hp | exists k; exact Hk].
  - apply IH; [lia | lia |].
    apply (opf_divisor ps k m); [exists p; lia | exact H].
Qed.

End NumberTheory.

(** ** Correctness of the size planner *)

Lemma wrap_small z : 0 <= z < 2 ^ 64 -> wrap z = z.
Proof. intros H. unfold wrap, modulus. apply Z.mod_small. exact H. Qed.

Lemma land_1_odd x : (Z.land x 1 =? 0) = negb (Z.odd x).
Proof.
  change 1 with (Z.ones 1). rewrite Z.land_ones by lia.
  change (2 ^ 1) with 2. rewrite Zmod_odd.
  destruct (Z.odd x); reflexivity.
Qed.

Lemma shiftr_1_half x : Z.shiftr x 1 = x / 2.
Proof. rewrite Z.shiftr_div_pow2 by lia. reflexivity. Qed.

(** Candidates enumerated by the loops.  [T3 g m]: [m] is [g] times a
    power of 2 and a power of 3 (the innermost body at [f = g]);
    [Tmul p T g m]: some iteration [g, g*p, g*p^2, ...] of a [for_mul p]
    loop has [m] among the candidates of its body. *)
Definition T3 (g m : Z) : Prop := exists a b, m = g * pw 2 a * pw 3 b.

Definition Tmul (p : Z) (T : Z -> Z -> Prop) (g m : Z) : Prop :=
  exists c, T (g * pw p c) m.

Lemma pw_le_mono b j k : 1 <= b -> (j <= k)%nat -> pw b j <= pw b k.
Proof. intros Hb Hjk. unfold pw. apply Z.pow_le_mono_r; lia. Qed.

Lemma T3_le g m : 1 <= g -> T3 g m -> g <= m.
Proof.
  intros Hg (a & b & ->).
  pose proof (pw_ge_1 2 a ltac:(lia)). pose proof (pw_ge_1 3 b ltac:(lia)).
  assert (g <= g * pw 2 a) by nia. nia.
Qed.

Lemma Tmul_le p T :
  1 <= p -> (forall g m, 1 <= g -> T g m -> g <= m) ->
  forall g m, 1 <= g -> Tmul p T g m -> g <= m.
Proof.
  intros Hp HT g m Hg (c & Hc).
  pose proof (pw_ge_1 p c Hp).
  apply HT in Hc; nia.
Qed.

Section PlannerCorrect.

(** The allowed primes; 2 and 3 are handled by the innermost loop. *)
Variable ps : list Z.
Hypothesis ps_prime : Forall Z.prime ps.
Hypothesis ps_2 : In 2 ps.
Hypothesis ps_3 : In 3 ps.

(** The requested size. *)
Variable n : Z.
Hypothesis n_pos : 1 <= n.
Hypothesis n_max : n <= 2 ^ 61.

(** Positive and composed of allowed primes only. *)
Definition good (x : Z) : Prop := 0 < x /\ only_prime_factors ps x.

(** A candidate [m] is still ahead of the [for (;;)] loop at [x]:
    either [x] itself is a bound for it, or [m] is reached from [x] by
    [k] more halvings and [j] more triplings. *)
Definition cover (x m : Z) : Prop :=
  (n <= x /\ x <= m) \/ exists j k, x * pw 3 j = m * pw 2 k.

Lemma good_mul q x : In q ps -> good x -> good (x * q).
Proof.
  intros Hq [Hx Hopf]. split.
  - rewrite Forall_forall in ps_prime.
    pose proof (Z.prime_ge_2 q (ps_prime q Hq)). nia.
  - rewrite Z.mul_comm. apply opf_mul; assumption.
Qed.

Lemma good_half x : 1 < x -> Z.odd x = false -> good x -> good (x / 2).
Proof.
  intros Hx Hodd [_ Hopf].
  assert (Hx2 : x = 2 * (x / 2)).
  { pose proof (Zmod_odd x) as Hm. rewrite Hodd in Hm.
    pose proof (Z.div_mod x 2 ltac:(lia)). lia. }
  split; [lia|].
  apply (opf_divisor ps (x / 2) x); [|exact Hopf].
  exists 2. lia.
Qed.

Lemma cover_odd x m : 0 < x -> Z.odd x = true -> cover x m -> x <= m.
Proof.
  intros Hx Hodd [[_ H]|(j & k & E)]; [exact H|].
  pose proof (pw_ge_1 3 j ltac:(lia)) as H3.
  destruct k as [|k].
  - rewrite pw_0 in E. nia.
  - exfalso.
    assert (Ho : Z.odd (x * pw 3 j) = true).
    { rewrite Z.odd_mul, Hodd, pw_odd; reflexivity. }
    rewrite E, Z.odd_mul, pw2_S_even, andb_false_r in Ho. discriminate.
Qed.

Lemma cover_half x m :
  0 < x -> Z.odd x = false -> n <= m -> cover x m ->
  x <= m \/ cover (x / 2) m.
Proof.
  intros Hx Hodd Hm [[_ H]|(j & k & E)]; [left; exact H|].
  pose proof (pw_ge_1 3 j ltac:(lia)) as H3.
  destruct k as [|k].
  - rewrite pw_0 in E. left. nia.
  - right. right. exists j, k.
    assert (Hx2 : x = 2 * (x / 2)).
    { pose proof (Zmod_odd x) as Hmo. rewrite Hodd in Hmo.
      pose proof (Z.div_mod x 2 ltac:(lia)). lia. }
    rewrite pw_S in E. rewrite Hx2 in E at 1.
    nia.
Qed.

Lemma cover_triple x m : 0 < x -> x < n -> n <= m -> cover x m -> cover (x * 3) m.
Proof.
  intros Hx Hlt Hm [[H _]|(j & k & E)]; [lia|].
  pose proof (pw_ge_1 2 k ltac:(lia)) as H2.
  right. destruct j as [|j].
  - rewrite pw_0 in E. nia.
  - exists j, k. rewrite pw_S in E. lia.
Qed.

(** Outcome of the [for (;;)] loop started at [x = o * 2^a], [o] odd. *)
Lemma for_ever_ok fuel : forall x best a o,
  x = o * pw 2 a -> Z.odd o = true -> 0 < o ->
  (2 * a + 2 + (if (x <? n)%Z then 1 else 0) <= fuel)%nat ->
  n < 2 * x -> n < best -> good x ->
  match for_ever fuel n x best with
  | Return r => r = n /\ good n
  | Next b => n < b /\ b <= best /\ (b = best \/ good b) /\
              forall m, n <= m -> cover x m -> b <= m
  | OutOfFuel => False
  end.
Proof.
  induction fuel as [|fuel IH]; intros x best a o Hx Ho Hopos Hfuel H2x Hbest HG.
  { destruct (x <? n); lia. }
  pose proof (proj1 HG) as Hxpos.
  cbn [for_ever]. revert Hfuel.
  destruct (Z.ltb_spec x n) as [Hlt|Hge]; intros Hfuel.
  - rewrite wrap_small by lia.
    assert (Hf : ((2 * a + 2 + (if (x * 3 <? n)%Z then 1 else 0)) <= fuel)%nat).
    { destruct (Z.ltb_spec (x * 3) n); lia. }
    specialize (IH (x * 3) best a (o * 3) ltac:(lia)
                  ltac:(rewrite Z.odd_mul, Ho; reflexivity) ltac:(lia)
                  Hf ltac:(lia) Hbest (good_mul 3 x ps_3 HG)).
    destruct (for_ever fuel n (x * 3) best) as [r|b|]; [exact IH| |exact IH].
    destruct IH as (H1 & H2 & H3 & H4). repeat split; auto.
    intros m Hm Hc. apply H4; [exact Hm|]. apply cover_triple; assumption.
  - destruct (Z.ltb_spec n x) as [Hgt|Hle].
    + set (best' := if x <? best then x else best).
      assert (Hb' : n < best' /\ best' <= best /\ best' <= x /\
                    (best' = best \/ good best')).
      { subst best'. destruct (Z.ltb_spec x best); repeat split; auto; lia. }
      destruct Hb' as (Hb1 & Hb2 & Hb3 & Hb4).
      rewrite land_1_odd, negb_involutive.
      destruct (Z.odd x) eqn:Hodd.
      * repeat split; auto.
        intros m Hm Hc. pose proof (cover_odd x m Hxpos Hodd Hc). lia.
      * destruct a as [|a].
        { rewrite pw_0 in Hx. replace x with o in Hodd by lia. congruence. }
        rewrite shiftr_1_half.
        assert (Hhalf : x / 2 = o * pw 2 a).
        { rewrite pw_S in Hx.
          assert (Hx2 : x = 2 * (o * pw 2 a)) by (rewrite Hx; ring).
          symmetry. apply Z.div_unique_exact; [lia | exact Hx2]. }
        assert (Hf : ((2 * a + 2 + (if (x / 2 <? n)%Z then 1 else 0)) <= fuel)%nat).
        { destruct (x / 2 <? n); lia. }
        assert (Hx2 : x = 2 * (x / 2)).
        { rewrite Hhalf, Hx, pw_S. ring. }
        specialize (IH (x / 2) best' a o Hhalf Ho Hopos Hf ltac:(lia) Hb1
                      (good_half x ltac:(lia) Hodd HG)).
        destruct (for_ever fuel n (x / 2) best') as [r|b|]; [exact IH| |exact IH].
        destruct IH as (H1 & H2 & H3 & H4). repeat split; auto; [lia| |].
        { destruct H3 as [->|H3]; auto. }
        intros m Hm Hc.
        destruct (cover_half x m Hxpos Hodd Hm Hc) as [Hxm|Hc']; [lia|].
        apply H4; assumption.
    + assert (Hxn : x = n) by lia. rewrite Hxn in HG.
      split; [reflexivity | exact HG].
Qed.

Lemma good_pw q x k : In q ps -> good x -> good (x * pw q k).
Proof.
  intros Hq Hx. induction k as [|k IH].
  - rewrite pw_0, Z.mul_1_r. exact Hx.
  - rewrite pw_S. replace (x * (q * pw q k)) with (x * pw q k * q) by ring.
    apply good_mul; assumption.
Qed.

Lemma good_1 : good 1.
Proof. split; [lia | apply opf_1]. Qed.

(** [while (x<n) x*=2;] started at [x] stops at the first [x * 2^a >= n]. *)
Lemma while_double_ok k : forall x,
  1 <= x -> x < 2 * n -> n <= x * pw 2 k ->
  exists a, while_double (S k) n x = Some (x * pw 2 a) /\
            n <= x * pw 2 a < 2 * n.
Proof.
  induction k as [|k IH]; intros x Hx Hx2 Hk; cbn [while_double].
  - rewrite pw_0 in Hk. destruct (Z.ltb_spec x n); [lia|].
    exists 0%nat. rewrite pw_0, Z.mul_1_r. split; [reflexivity | lia].
  - destruct (Z.ltb_spec x n) as [Hlt|Hge].
    + rewrite wrap_small by lia.
      destruct (IH (x * 2) ltac:(lia) ltac:(lia)) as (a & Ha & Hb).
      { rewrite pw_S in Hk. lia. }
      exists (S a). rewrite pw_S.
      replace (x * (2 * pw 2 a)) with (x * 2 * pw 2 a) by ring.
      split; assumption.
    + exists 0%nat. rewrite pw_0, Z.mul_1_r. split; [reflexivity | lia].
Qed.

(** State of the search between two runs of the innermost body. *)
Definition settled (b : Z) : Prop := b <= 2 ^ 61 /\ good b.

Definition pre (g best : Z) : Prop :=
  1 <= g /\ Z.odd g = true /\ good g /\ n < best /\ best <= 2 * n /\
  ((g = 1 /\ best = 2 * n) \/ settled best).

Definition post (T : Z -> Z -> Prop) (g best : Z) (r : loop_result) : Prop :=
  match r with
  | Return r => r = n /\ good n
  | Next b => n < b /\ b <= best /\ settled b /\
              forall m, n <= m -> T g m -> b <= m
  | OutOfFuel => False
  end.

Lemma pre_best_le g best : pre g best -> best <= 2 * n.
Proof.
  intros (_ & _ & _ & _ & Hb & _). exact Hb.
Qed.

Lemma pw2_lt_62 a : pw 2 a < 2 ^ 62 -> (a <= 61)%nat.
Proof.
  intros H. destruct (Nat.le_gt_cases a 61) as [Hle|Hgt]; [exact Hle|].
  exfalso. pose proof (pw_le_mono 2 62 a ltac:(lia) ltac:(lia)) as Hm.
  change (pw 2 62) with (2 ^ 62) in Hm. lia.
Qed.

Lemma pw2_le_61 a : (a <= 61)%nat -> pw 2 a <= 2 ^ 61.
Proof.
  intros H. pose proof (pw_le_mono 2 a 61 ltac:(lia) H) as Hm.
  exact Hm.
Qed.

Lemma T3_cover g a m : 0 < g -> n <= g * pw 2 a -> T3 g m -> cover (g * pw 2 a) m.
Proof.
  intros Hg Hn (A & B & ->).
  pose proof (pw_ge_1 3 B ltac:(lia)) as H3.
  destruct (Nat.le_gt_cases a A) as [Hle|Hgt].
  - left. split; [exact Hn|].
    replace A with (a + (A - a))%nat by lia. rewrite pw_add.
    pose proof (pw_ge_1 2 (A - a) ltac:(lia)) as HA.
    pose proof (pw_pos 2 a ltac:(lia)) as Ha.
    replace (g * (pw 2 a * pw 2 (A - a)) * pw 3 B)
      with (g * pw 2 a * (pw 2 (A - a) * pw 3 B)) by ring.
    assert (1 <= pw 2 (A - a) * pw 3 B) by nia.
    assert (0 < g * pw 2 a) by nia. nia.
  - right. exists B, (a - A)%nat.
    replace a with (A + (a - A))%nat at 1 by lia. rewrite pw_add. ring.
Qed.

Lemma for_mul_S p body k g best :
  for_mul p body (S k) g best =
  if g <? best then
    match body g best with
    | Next b => for_mul p body k (wrap (g * p)) b
    | r => r
    end
  else Next best.
Proof. reflexivity. Qed.

(** A [for (f=g; f<bestfac; f*=p)] loop around a correct body. *)
Lemma for_mul_ok p body T (Gp : Z -> Prop) :
  In p ps -> Z.odd p = true -> p <= 11 ->
  (forall g, Gp g -> Gp (g * p)) ->
  (forall g, Gp g -> 1 <= g -> g < 2 ^ 61 -> g * p < 2 ^ 64) ->
  (forall g m, 1 <= g -> T g m -> g <= m) ->
  (forall g best, pre g best -> g < best -> post T g best (body g best)) ->
  forall k g best,
    pre g best -> Gp g -> best <= g * pw 2 k ->
    post (Tmul p T) g best (for_mul p body (S k) g best).
Proof.
  intros Hp Hpodd Hp11 HGp Hsafe HT Hbody.
  assert (Hp2 : 2 <= p).
  { rewrite Forall_forall in ps_prime. apply Z.prime_ge_2. auto. }
  induction k as [|k IH]; intros g best Hpre HG Hk; rewrite for_mul_S.
  - rewrite pw_0 in Hk. destruct (Z.ltb_spec g best) as [Hlt|Hge]; [lia|].
    destruct Hpre as (Hg & Hodd & Hgood & Hbest & _ & Hst).
    destruct Hst as [[-> ->]|Hs]; [lia|].
    split; [exact Hbest|]. split; [lia|]. split; [exact Hs|].
    intros m Hm HTm. apply (Tmul_le p T) in HTm; auto; lia.
  - destruct (Z.ltb_spec g best) as [Hlt|Hge].
    + pose proof (Hbody g best Hpre Hlt) as Hb.
      destruct (body g best) as [r|b|]; [exact Hb| |exact Hb].
      destruct Hb as (H1 & H2 & H3 & H4).
      pose proof (pre_best_le g best Hpre) as Hb2n.
      destruct Hpre as (Hg & Hodd & Hgood & Hbest & _ & Hst).
      assert (Hgp : 0 <= g * p < 2 ^ 64).
      { split; [nia|]. destruct Hst as [[-> _]|[Hs _]]; [lia|].
        apply Hsafe; auto; lia. }
      rewrite wrap_small by exact Hgp.
      assert (Hpre' : pre (g * p) b).
      { split; [nia|]. split; [rewrite Z.odd_mul, Hodd, Hpodd; reflexivity|].
        split; [apply good_mul; [exact Hp | exact Hgood]|].
        split; [exact H1|]. split; [lia|]. right. exact H3. }
      specialize (IH (g * p) b Hpre' (HGp g HG)).
      assert (Hk' : b <= g * p * pw 2 k).
      { rewrite pw_S in Hk. pose proof (pw_pos 2 k ltac:(lia)). nia. }
      specialize (IH Hk').
      destruct (for_mul p body (S k) (g * p) b) as [r|b'|]; [exact IH| |exact IH].
      destruct IH as (I1 & I2 & I3 & I4).
      split; [exact I1|]. split; [lia|]. split; [exact I3|].
      intros m Hm (c & Hc). destruct c as [|c].
      * rewrite pw_0, Z.mul_1_r in Hc. specialize (H4 m Hm Hc). lia.
      * apply I4; [exact Hm|]. exists c. rewrite pw_S in Hc.
        replace (g * p * pw p c) with (g * (p * pw p c)) by ring. exact Hc.
    + destruct Hpre as (Hg & Hodd & Hgood & Hbest & _ & Hst).
      destruct Hst as [[-> ->]|Hs]; [lia|].
      split; [exact Hbest|]. split; [lia|]. split; [exact Hs|].
      intros m Hm HTm. apply (Tmul_le p T) in HTm; auto; lia.
Qed.

(** What [finish] yields from a correct loop nest whose candidates [T 1]
    include every admissible number. *)
Lemma finish_smallest T r :
  (forall m, 0 < m -> only_prime_factors ps m -> T 1 m) ->
  post T 1 (2 * n) r ->
  exists m, finish r = Some m /\ smallest_good ps n m.
Proof.
  intros Hall Hpost. destruct r as [r|b|]; cbn in *; [| |contradiction].
  - destruct Hpost as (-> & Hg). exists n. split; [reflexivity|].
    repeat split; [lia | apply Hg | intros; assumption].
  - destruct Hpost as (H1 & H2 & (_ & Hg) & H4). exists b.
    split; [reflexivity|]. repeat split; [lia | apply Hg |].
    intros m' Hm' Hopf. apply H4; [exact Hm'|]. apply Hall; [lia | exact Hopf].
Qed.

Lemma pre_start : pre 1 (2 * n).
Proof.
  split; [lia|]. split; [reflexivity|]. split; [apply good_1|].
  split; [lia|]. split; [lia|]. left. split; reflexivity.
Qed.

Variable fuel : nat.
Hypothesis fuel_big : (130 <= fuel)%nat.

Lemma fuel_S : exists k, fuel = S k /\ (62 <= k)%nat.
Proof. exists (pred fuel). lia. Qed.

(** The innermost body at [f = g]. *)
Lemma scan_ok g best : pre g best -> g < best -> post T3 g best (scan_body fuel n g best).
Proof.
  intros Hpre Hlt. pose proof (pre_best_le g best Hpre) as Hb2n.
  destruct Hpre as (Hg & Hodd & Hgood & Hbest & _ & Hst).
  unfold scan_body.
  destruct fuel_S as (k & Hfuel & Hk). rewrite Hfuel.
  destruct (while_double_ok k g Hg ltac:(lia)) as (a & -> & Hx).
  { pose proof (pw_le_mono 2 61 k ltac:(lia) ltac:(lia)) as Hm.
    change (pw 2 61) with (2 ^ 61) in Hm. nia. }
  assert (Ha : (a <= 61)%nat).
  { apply pw2_lt_62. pose proof (pw_pos 2 a ltac:(lia)). nia. }
  pose proof (for_ever_ok (S k) (g * pw 2 a) best a g eq_refl Hodd ltac:(lia))
    as H.
  specialize (H ltac:(destruct (g * pw 2 a <? n); lia) ltac:(lia) Hbest
                (good_pw 2 g a ps_2 Hgood)).
  destruct (for_ever (S k) n (g * pw 2 a) best) as [r|b|]; [exact H| |exact H].
  destruct H as (H1 & H2 & H3 & H4).
  assert (Hbx : b <= g * pw 2 a).
  { apply H4; [lia|]. left. lia. }
  assert (Hsb : settled b).
  { split.
    - destruct Hst as [[-> ->]|[Hs _]]; [|lia].
      rewrite Z.mul_1_l in *. pose proof (pw2_le_61 a Ha). lia.
    - destruct H3 as [->|H3]; [|exact H3].
      destruct Hst as [[_ ->]|[_ Hs]]; [lia | exact Hs]. }
  split; [exact H1|]. split; [exact H2|]. split; [exact Hsb|].
  intros m Hm HT. apply H4; [exact Hm|].
    apply T3_cover; [lia | lia | exact HT].
Qed.

(** The same loop with the fuel the planner passes to it. *)
Lemma for_mul_body p body T (Gp : Z -> Prop) :
  In p ps -> Z.odd p = true -> p <= 11 ->
  (forall g, Gp g -> Gp (g * p)) ->
  (forall g, Gp g -> 1 <= g -> g < 2 ^ 61 -> g * p < 2 ^ 64) ->
  (forall g m, 1 <= g -> T g m -> g <= m) ->
  (forall g best, pre g best -> g < best -> post T g best (body g best)) ->
  forall g best,
    pre g best -> Gp g -> post (Tmul p T) g best (for_mul p body fuel g best).
Proof.
  intros Hp Hpodd Hp11 HGp Hsafe HT Hbody g best Hpre HG.
  destruct fuel_S as (k & Hfuel & Hk). rewrite Hfuel.
  apply (for_mul_ok p body T Gp); auto.
  pose proof (pre_best_le g best Hpre) as Hb2n.
  destruct Hpre as (Hg & _).
  pose proof (pw_le_mono 2 62 k ltac:(lia) ltac:(lia)) as Hm.
  change (pw 2 62) with (2 ^ 62) in Hm. nia.
Qed.

(** [for (f5=1; f5<bestfac; f5*=5) { innermost body }] *)
Lemma loop5_ok :
  In 5 ps ->
  forall g best, pre g best ->
    post (Tmul 5 T3) g best (for_mul 5 (scan_body fuel n) fuel g best).
Proof.
  intros H5 g best Hpre.
  apply (for_mul_body 5 _ T3 (fun _ => True)).
  - exact H5.
  - reflexivity.
  - lia.
  - trivial.
  - intros g' _ Hg1 Hg2. lia.
  - apply T3_le.
  - apply scan_ok.
  - exact Hpre.
  - exact I.
Qed.

Lemma loop7_ok :
  In 5 ps -> In 7 ps ->
  forall g best, pre g best ->
    post (Tmul 7 (Tmul 5 T3)) g best
      (for_mul 7 (fun f117 => for_mul 5 (scan_body fuel n) fuel f117) fuel g best).
Proof.
  intros H5 H7 g best Hpre.
  apply (for_mul_body 7 _ (Tmul 5 T3) (fun _ => True)).
  - exact H7.
  - reflexivity.
  - lia.
  - trivial.
  - intros g' _ Hg1 Hg2. lia.
  - apply Tmul_le; [lia | apply T3_le].
  - intros g' best' Hpre' _. apply loop5_ok; assumption.
  - exact Hpre.
  - exact I.
Qed.

Lemma pw11_safe g : (exists e, g = pw 11 e) -> 1 <= g -> g < 2 ^ 61 -> g * 11 < 2 ^ 64.
Proof.
  intros (e & ->) _ Hlt.
  destruct (Nat.le_gt_cases e 17) as [Hle|Hgt].
  - pose proof (pw_le_mono 11 e 17 ltac:(lia) Hle) as Hm.
    change (pw 11 17) with (11 ^ 17) in Hm. lia.
  - pose proof (pw_le_mono 11 18 e ltac:(lia) ltac:(lia)) as Hm.
    change (pw 11 18) with (11 ^ 18) in Hm. lia.
Qed.

Lemma loop11_ok :
  In 5 ps -> In 7 ps -> In 11 ps ->
  post (Tmul 11 (Tmul 7 (Tmul 5 T3))) 1 (2 * n)
    (for_mul 11
       (fun f11 => for_mul 7
          (fun f117 => for_mul 5 (scan_body fuel n) fuel f117) fuel f11)
       fuel 1 (2 * n)).
Proof.
  intros H5 H7 H11.
  apply (for_mul_body 11 _ (Tmul 7 (Tmul 5 T3)) (fun g => exists e, g = pw 11 e)).
  - exact H11.
  - reflexivity.
  - lia.
  - intros g (e & ->). exists (S e). rewrite pw_S. ring.
  - apply pw11_safe.
  - apply Tmul_le; [lia|]. apply Tmul_le; [lia | apply T3_le].
  - intros g' best' Hpre' _. apply loop7_ok; assumption.
  - apply pre_start.
  - exists 0%nat. reflexivity.
Qed.

End PlannerCorrect.

(** *** Every admissible number is a candidate of the loop nest *)

Lemma smooth_cmplx_candidates m :
  smooth cmplx_primes m -> Tmul 11 (Tmul 7 (Tmul 5 T3)) 1 m.
Proof.
  intros H. induction H as [|p m Hp _ IH].
  - exists 0%nat, 0%nat, 0%nat, 0%nat, 0%nat. reflexivity.
  - destruct IH as (e & d & c & a & b & ->).
    simpl in Hp.
    destruct Hp as [<-|[<-|[<-|[<-|[<-|[]]]]]].
    + exists e, d, c, (S a), b. rewrite (pw_S 2). ring.
    + exists e, d, c, a, (S b). rewrite (pw_S 3). ring.
    + exists e, d, (S c), a, b. rewrite (pw_S 5). ring.
    + exists e, (S d), c, a, b. rewrite (pw_S 7). ring.
    + exists (S e), d, c, a, b. rewrite (pw_S 11). ring.
Qed.

Lemma smooth_real_candidates m :
  smooth real_primes m -> Tmul 5 T3 1 m.
Proof.
  intros H. induction H as [|p m Hp _ IH].
  - exists 0%nat, 0%nat, 0%nat. reflexivity.
  - destruct IH as (c & a & b & ->).
    simpl in Hp.
    destruct Hp as [<-|[<-|[<-|[]]]].
    + exists c, (S a), b. rewrite (pw_S 2). ring.
    + exists c, a, (S b). rewrite (pw_S 3). ring.
    + exists (S c), a, b. rewrite (pw_S 5). ring.
Qed.

(** Sizes at or below the identity threshold are admissible when positive. *)
Lemma small_cmplx_good n : 1 <= n <= 12 -> only_prime_factors cmplx_primes n.
Proof.
  intros Hn. apply smooth_opf; [apply cmplx_primes_prime|].
  assert (In 2 cmplx_primes /\ In 3 cmplx_primes /\ In 5 cmplx_primes /\
          In 7 cmplx_primes /\ In 11 cmplx_primes) as (I2 & I3 & I5 & I7 & I11)
    by (simpl; tauto).
  pose proof (smooth_one cmplx_primes) as S1.
  assert (n = 1 \/ n = 2 * 1 \/ n = 3 * 1 \/ n = 2 * (2 * 1) \/ n = 5 * 1 \/
          n = 2 * (3 * 1) \/ n = 7 * 1 \/ n = 2 * (2 * (2 * 1)) \/
          n = 3 * (3 * 1) \/ n = 2 * (5 * 1) \/ n = 11 * 1 \/
          n = 2 * (2 * (3 * 1)))
    as [->|[->|[->|[->|[->|[->|[->|[->|[->|[->|[->| ->]]]]]]]]]]] by lia;
    repeat (assumption || apply smooth_mul).
Qed.

Lemma small_real_good n : 1 <= n <= 6 -> only_prime_factors real_primes n.
Proof.
  intros Hn. apply smooth_opf; [apply real_primes_prime|].
  assert (In 2 real_primes /\ In 3 real_primes /\ In 5 real_primes)
    as (I2 & I3 & I5) by (simpl; tauto).
  pose proof (smooth_one real_primes) as S1.
  assert (n = 1 \/ n = 2 * 1 \/ n = 3 * 1 \/ n = 2 * (2 * 1) \/ n = 5 * 1 \/
          n = 2 * (3 * 1))
    as [->|[->|[->|[->|[->| ->]]]]] by lia;
    repeat (assumption || apply smooth_mul).
Qed.

Lemma good_size_cmplx_smallest fuel n :
  (130 <= fuel)%nat -> 1 <= n <= 2 ^ 61 ->
  exists m, good_size_cmplx fuel n = Some m /\ smallest_good cmplx_primes n m.
Proof.
  intros Hfuel [Hn1 Hn2]. unfold good_size_cmplx.
  destruct (Z.leb_spec n 12) as [Hle|Hgt].
  - exists n. split; [reflexivity|]. split; [lia|].
    split; [apply small_cmplx_good; lia | intros; assumption].
  - rewrite wrap_small by lia.
    apply finish_smallest with (T := Tmul 11 (Tmul 7 (Tmul 5 T3))).
    + lia.
    + intros m Hm Hopf. apply smooth_cmplx_candidates, opf_smooth; assumption.
    + apply loop11_ok; try assumption; try apply cmplx_primes_prime;
        simpl; tauto.
Qed.

Lemma good_size_real_smallest fuel n :
  (130 <= fuel)%nat -> 1 <= n <= 2 ^ 61 ->
  exists m, good_size_real fuel n = Some m /\ smallest_good real_primes n m.
Proof.
  intros Hfuel [Hn1 Hn2]. unfold good_size_real.
  destruct (Z.leb_spec n 6) as [Hle|Hgt].
  - exists n. split; [reflexivity|]. split; [lia|].
    split; [apply small_real_good; lia | intros; assumption].
  - rewrite wrap_small by lia.
    apply finish_smallest with (T := Tmul 5 T3).
    + lia.
    + intros m Hm Hopf. apply smooth_real_candidates, opf_smooth; assumption.
    + apply loop5_ok.
      * apply real_primes_prime.
      * simpl; tauto.
      * simpl; tauto.
      * lia.
      * lia.
      * exact Hfuel.
      * simpl; tauto.
      * apply pre_start; lia.
Qed.

Lemma smallest_good_unique ps n m m' :
  smallest_good ps n m -> smallest_good ps n m' -> m = m'.
Proof.
  intros (H1 & H2 & H3) (H1' & H2' & H3').
  specialize (H3 m' H1' H2'). specialize (H3' m H1 H2). lia.
Qed.

Lemma smallest_good_mono ps n m m' :
  smallest_good ps n m -> smallest_good ps (n + 1) m' -> m <= m'.
Proof.
  intros (_ & _ & H3) (H1' & H2' & _). apply H3; [lia | exact H2'].
Qed.

Lemma good_size_accepts fuel n real :
  (130 <= fuel)%nat -> 1 <= n -> n - 1 <= SizeT.max / 11 ->
  exists m, good_size fuel n real = PyLong m /\
            smallest_good (allowed_primes real) n m.
Proof.
  intros Hfuel Hn Hmax. unfold good_size.
  assert (Hq : SizeT.max / 11 = 1676976733973595601) by reflexivity.
  rewrite Hq in *.
  destruct (Z.ltb_spec n 0); [lia|].
  destruct (Z.ltb_spec 1676976733973595601 (n - 1)); [lia|].
  destruct real; cbn [allowed_primes].
  - destruct (good_size_real_smallest fuel n Hfuel ltac:(lia)) as (m & -> & Hm).
    exists m. split; [reflexivity | exact Hm].
  - destruct (good_size_cmplx_smallest fuel n Hfuel ltac:(lia)) as (m & -> & Hm).
    exists m. split; [reflexivity | exact Hm].
Qed.

Lemma good_size_0 fuel real : good_size fuel 0 real = PyLong 0.
Proof. destruct real; reflexivity. Qed.

(** The value is the same for every sufficient fuel. *)
Lemma good_size_value fuel n real m :
  (130 <= fuel)%nat -> 1 <= n -> n - 1 <= SizeT.max / 11 ->
  good_size plenty n real = PyLong m -> good_size fuel n real = PyLong m.
Proof.
  intros Hfuel Hn Hmax Hp.
  destruct (good_size_accepts fuel n real Hfuel Hn Hmax) as (m1 & E1 & S1).
  destruct (good_size_accepts plenty n real ltac:(unfold plenty; lia) Hn Hmax)
    as (m2 & E2 & S2).
  rewrite E2 in Hp. injection Hp as <-.
  rewrite E1. f_equal. eapply smallest_good_unique; eassumption.
Qed.

(** *** Claims about the size planner *)

(** C1 (as amended).  For every size [n] with [1 <= n <= 2^61],
    [good_size_cmplx n] returns the smallest [m >= n] that has only
    prime factors in {2,3,5,7,11} and [good_size_real n] the smallest
    [m >= n] that has only prime factors in {2,3,5}; and
    [good_size(1000, real=false) = 1000],
    [good_size(1001, real=false) = 1008],
    [good_size(1001, real=true) = 1024]. *)
Theorem good_size_smallest fuel n :
  (130 <= fuel)%nat -> 1 <= n <= 2 ^ 61 ->
  (exists m, good_size_cmplx fuel n = Some m /\
             smallest_good cmplx_primes n m) /\
  (exists m, good_size_real fuel n = Some m /\
             smallest_good real_primes n m) /\
  good_size fuel 1000 false = PyLong 1000 /\
  good_size fuel 1001 false = PyLong 1008 /\
  good_size fuel 1001 true = PyLong 1024.
Proof.
  intros Hfuel Hn.
  split; [apply good_size_cmplx_smallest; assumption|].
  split; [apply good_size_real_smallest; assumption|].
  assert (Hq : SizeT.max / 11 = 1676976733973595601) by reflexivity.
  repeat split; apply good_size_value; try assumption; try lia;
    try (rewrite Hq; lia); vm_compute; reflexivity.
Qed.

Lemma good_size_smallest_witness :
  (exists m, good_size_cmplx plenty 1001 = Some m /\
             smallest_good cmplx_primes 1001 m) /\
  (exists m, good_size_real plenty 1001 = Some m /\
             smallest_good real_primes 1001 m) /\
  good_size plenty 1000 false = PyLong 1000 /\
  good_size plenty 1001 false = PyLong 1008 /\
  good_size plenty 1001 true = PyLong 1024.
Proof.
  apply (good_size_smallest plenty 1001).
  - unfold plenty. lia.
  - lia.
Defined.

(** C1 as stated fails at [n = 0], where both functions return [0],
    which is divisible by primes outside the set (and is not the
    smallest admissible size, which is [1]); and at [n = 2^63], where
    [2*n] wraps to [0] and [good_size_cmplx] returns [0]. *)
Lemma good_size_smallest_counterexample :
  good_size_cmplx plenty 0 = Some 0 /\
  ~ smallest_good cmplx_primes 0 0 /\
  good_size_real plenty 0 = Some 0 /\
  ~ smallest_good real_primes 0 0 /\
  good_size_cmplx plenty (2 ^ 63) = Some 0 /\
  ~ smallest_good cmplx_primes (2 ^ 63) 0.
Proof.
  split; [reflexivity|].
  split; [intros (_ & H & _); exact (opf_cmplx_not_0 H)|].
  split; [reflexivity|].
  split; [intros (_ & H & _); exact (opf_real_not_0 H)|].
  split; [vm_compute; reflexivity|].
  intros (H & _). lia.
Qed.

(** C2 (as amended).  For every [n >= 0] that [good_size] accepts, in
    both variants: [good_size(n) >= n]; when [n >= 1] the value is
    composed only of the allowed primes, also at or below the identity
    threshold; and when [n+1] is accepted too,
    [good_size(n+1) >= good_size(n)]. *)
Theorem good_size_monotone fuel real n :
  (130 <= fuel)%nat -> 0 <= n -> n - 1 <= SizeT.max / 11 ->
  exists m,
    good_size fuel n real = PyLong m /\
    n <= m /\
    (1 <= n -> only_prime_factors (allowed_primes real) m) /\
    (n <= SizeT.max / 11 ->
     exists m', good_size fuel (n + 1) real = PyLong m' /\ m <= m').
Proof.
  intros Hfuel Hn Hmax.
  destruct (Z.eq_dec n 0) as [->|Hn0].
  - exists 0. rewrite good_size_0. split; [reflexivity|]. split; [lia|].
    split; [lia|]. intros _.
    destruct (good_size_accepts fuel 1 real Hfuel ltac:(lia))
      as (m' & E & (H1 & _)).
    { assert (Hq : SizeT.max / 11 = 1676976733973595601) by reflexivity.
      rewrite Hq. lia. }
    exists m'. split; [exact E | lia].
  - destruct (good_size_accepts fuel n real Hfuel ltac:(lia) Hmax)
      as (m & E & Hs).
    exists m. split; [exact E|].
    split; [apply Hs|]. split; [intros _; apply Hs|].
    intros Hnext.
    destruct (good_size_accepts fuel (n + 1) real Hfuel ltac:(lia) ltac:(lia))
      as (m' & E' & Hs').
    exists m'. split; [exact E'|].
    eapply smallest_good_mono; eassumption.
Qed.

Lemma good_size_monotone_witness :
  exists m,
    good_size plenty 1001 true = PyLong m /\
    1001 <= m /\
    (1 <= 1001 -> only_prime_factors (allowed_primes true) m) /\
    (1001 <= SizeT.max / 11 ->
     exists m', good_size plenty (1001 + 1) true = PyLong m' /\ m <= m').
Proof.
  apply (good_size_monotone plenty true 1001).
  - unfold plenty. lia.
  - lia.
  - vm_compute. discriminate.
Defined.

(** C2 as stated fails at [n = 0]: [good_size(0)] is [0] in both
    variants, and [0] is not composed of the allowed primes. *)
Lemma good_size_monotone_counterexample :
  good_size plenty 0 false = PyLong 0 /\
  ~ only_prime_factors (allowed_primes false) 0 /\
  good_size plenty 0 true = PyLong 0 /\
  ~ only_prime_factors (allowed_primes true) 0.
Proof.
  split; [reflexivity|]. split; [exact opf_cmplx_not_0|].
  split; [reflexivity|]. exact opf_real_not_0.
Qed.

(** *** Pass selection for prime lengths *)

Lemma land_low_bits N k : 0 <= k -> Z.land N (2 ^ k - 1) = N mod 2 ^ k.
Proof.
  intros Hk. replace (2 ^ k - 1) with (Z.ones k).
  - apply Z.land_ones. exact Hk.
  - rewrite Z.ones_equiv. lia.
Qed.

Lemma odd_mod_pow2 N k : 1 <= k -> Z.odd N = true -> N mod 2 ^ k <> 0.
Proof.
  intros Hk Hodd H0.
  assert (Hd : (2 | N)).
  { apply Z.divide_trans with (2 ^ k).
    - exists (2 ^ (k - 1)). replace k with (Z.succ (k - 1)) at 1 by lia.
      rewrite Z.pow_succ_r by lia. ring.
    - apply Z.mod_divide; [|exact H0].
      pose proof (Z.pow_pos_nonneg 2 k ltac:(lia) ltac:(lia)). lia. }
  destruct Hd as [q Hq]. rewrite Hq, Z.mul_comm, Z.odd_mul in Hodd.
  discriminate.
Qed.

Lemma odd_land N k : 1 <= k -> Z.odd N = true -> (Z.land N (2 ^ k - 1) =? 0) = false.
Proof.
  intros Hk Hodd. rewrite land_low_bits by lia.
  apply Z.eqb_neq. apply odd_mod_pow2; assumption.
Qed.

Lemma prime_odd p : Z.prime p -> p <> 2 -> Z.odd p = true.
Proof.
  intros [Hp1 Hp] Hne. destruct (Z.odd p) eqn:Hodd; [reflexivity|].
  exfalso. apply (Hp 2 ltac:(lia)).
  apply Z.mod_divide; [lia|]. rewrite Zmod_odd, Hodd. reflexivity.
Qed.

Lemma prime_mod_nonzero p d : Z.prime p -> 1 < d < p -> (p mod d =? 0) = false.
Proof.
  intros [_ Hp] Hd. apply Z.eqb_neq. intros H0.
  apply (Hp d Hd). apply Z.mod_divide; [lia | exact H0].
Qed.

Lemma for_odd_divisors_S fuel divisor N factors :
  for_odd_divisors (S fuel) divisor N factors =
  if wrap (divisor * divisor) <=? N then
    do (N', factors') <- while_divides (S fuel) divisor N factors;
    for_odd_divisors fuel (wrap (divisor + 2)) N' factors'
  else Ok (N, factors).
Proof. reflexivity. Qed.

(** Trial division leaves a prime untouched. *)
Lemma for_odd_divisors_prime N factors :
  Z.prime N -> N <= 2 ^ 61 ->
  forall fuel d,
    3 <= d <= N + 2 -> (d = 3 \/ (d - 2) * (d - 2) <= N) ->
    (Z.to_nat (N + 3 - d) <= fuel)%nat ->
    for_odd_divisors fuel d N factors = Ok (N, factors).
Proof.
  intros Hp Hmax. induction fuel as [|fuel IH]; intros d Hd Hsq Hfuel; [lia|].
  rewrite for_odd_divisors_S.
  assert (Hdd : 0 <= d * d < 2 ^ 64).
  { split; [nia|]. destruct Hsq as [->|Hsq]; [lia|].
    assert (d - 2 < 2 ^ 31) by nia. nia. }
  rewrite wrap_small by exact Hdd.
  destruct (Z.leb_spec (d * d) N) as [Hle|Hgt]; [|reflexivity].
  assert (HdN : 1 < d < N) by nia.
  cbn [while_divides]. rewrite (prime_mod_nonzero N d Hp HdN). cbn [bind].
  rewrite wrap_small by lia.
  apply IH; [lia | right; nia | lia].
Qed.

Lemma factorize_prime fuel N :
  Z.prime N -> N <> 2 -> N <= 2 ^ 61 -> (Z.to_nat N <= fuel)%nat ->
  factorize fuel N = Ok [N].
Proof.
  intros Hp Hne Hmax Hfuel.
  pose proof (Z.prime_ge_2 N Hp) as Hge.
  pose proof (prime_odd N Hp Hne) as Hodd.
  unfold factorize.
  destruct (Z.ltb_spec 0 N); [|lia]. cbn [MR_assert bind].
  destruct fuel as [|fuel]; [lia|].
  cbn [while_low_bits_zero].
  change 7 with (2 ^ 3 - 1). rewrite (odd_land N 3) by (lia || assumption).
  cbn [bind]. change 3 with (2 ^ 2 - 1) at 1.
  rewrite (odd_land N 2) by (lia || assumption). cbn [bind].
  change 1 with (2 ^ 1 - 1) at 1.
  rewrite (odd_land N 1) by (lia || assumption).
  rewrite (for_odd_divisors_prime N [] Hp Hmax) by lia.
  cbn [bind]. destruct (Z.ltb_spec 1 N); [reflexivity | lia].
Qed.

(** An executable primality test, for concrete lengths. *)
Definition is_prime (p : Z) : bool :=
  (1 <? p) &&
  forallb (fun d => negb (p mod (Z.of_nat d + 2) =? 0)) (seq 0 (Z.to_nat (p - 2))).

Lemma is_prime_sound p : is_prime p = true -> Z.prime p.
Proof.
  unfold is_prime. rewrite andb_true_iff, forallb_forall.
  intros [H1 H]. apply Z.ltb_lt in H1.
  apply small_prime; [exact H1|]. intros n Hn H0.
  specialize (H (Z.to_nat (n - 2))).
  rewrite in_seq in H. specialize (H ltac:(lia)).
  replace (Z.of_nat (Z.to_nat (n - 2)) + 2) with n in H by lia.
  rewrite H0 in H. discriminate.
Qed.

(** C3.  For every prime [ip] outside {2,3,4,5,7,8,11} (of a size whose
    Bluestein buffers fit the address space), [make_pass] selects the
    Bluestein pass exactly when [ip >= 110] -- a threshold between 100
    and 135 -- and the generic odd-radix pass when [ip < 110]; and the
    Bluestein pass's [ip2] is the smallest composite of {2,3,5,7,11}
    that is [>= 2*ip - 1].  [vlen] is a power of two. *)
Theorem make_pass_prime vlen k fuel l1 ido ip vectorize :
  vlen = 2 ^ k -> 0 <= k ->
  Z.prime ip -> ~ In ip [2; 3; 4; 5; 7; 8; 11] ->
  2 * ip - 1 <= 2 ^ 61 ->
  (Z.to_nat ip + 130 <= fuel)%nat ->
  100 <= 110 <= 135 /\
  (ip < 110 -> make_pass vlen fuel l1 ido ip vectorize = Ok (cfftpg l1 ido ip)) /\
  (110 <= ip ->
   exists ip2,
     make_pass vlen fuel l1 ido ip vectorize = Ok (cfftpblue l1 ido ip ip2) /\
     smallest_good cmplx_primes (2 * ip - 1) ip2) /\
  (forall l1' ido' ip2,
     make_pass vlen fuel l1 ido ip vectorize = Ok (cfftpblue l1' ido' ip ip2) <->
     110 <= ip /\ l1' = l1 /\ ido' = ido /\
     smallest_good cmplx_primes (2 * ip - 1) ip2).
Proof.
  intros Hvlen Hk Hp Hnot Hmax Hfuel.
  pose proof (Z.prime_ge_2 ip Hp) as Hge.
  assert (Hne : ip <> 2 /\ ip <> 3 /\ ip <> 4 /\ ip <> 5 /\ ip <> 7 /\
                ip <> 8 /\ ip <> 11).
  { simpl in Hnot. repeat split; intros ->; apply Hnot; tauto. }
  destruct Hne as (N2 & N3 & N4 & N5 & N7 & N8 & N11).
  pose proof (prime_odd ip Hp N2) as Hodd.
  assert (Hsel : make_pass vlen fuel l1 ido ip vectorize =
                 if ip <? 110 then Ok (cfftpg l1 ido ip)
                 else make_cfftpblue fuel l1 ido ip).
  { unfold make_pass.
    destruct (Z.leb_spec 1 ip); [|lia]. cbn [MR_assert bind].
    assert (Hvec : (1 <? vlen) && (Z.land ip (vlen - 1) =? 0) = false).
    { destruct (Z.ltb_spec 1 vlen) as [Hv|Hv]; [|reflexivity].
      subst vlen. rewrite odd_land; [reflexivity | | exact Hodd].
      destruct (Z.eq_dec k 0) as [->|]; [simpl in Hv; lia | lia]. }
    rewrite <- !andb_assoc, Hvec, !andb_false_r.
    destruct (Z.eqb_spec ip 1); [lia|].
    rewrite (factorize_prime fuel ip Hp N2) by lia.
    cbn [bind List.length Nat.eqb].
    repeat match goal with
           | |- context [ip =? ?c] => destruct (Z.eqb_spec ip c); [lia|]
           end.
    reflexivity. }
  assert (Hblue : exists ip2,
             make_cfftpblue fuel l1 ido ip = Ok (cfftpblue l1 ido ip ip2) /\
             smallest_good cmplx_primes (2 * ip - 1) ip2).
  { unfold make_cfftpblue. rewrite wrap_small by lia.
    replace (ip * 2 - 1) with (2 * ip - 1) by lia.
    destruct (good_size_cmplx_smallest fuel (2 * ip - 1) ltac:(lia) ltac:(lia))
      as (ip2 & -> & Hs).
    exists ip2. split; [reflexivity | exact Hs]. }
  split; [lia|]. split; [|split].
  - intros Hlt. rewrite Hsel. destruct (Z.ltb_spec ip 110); [reflexivity | lia].
  - intros Hle. rewrite Hsel. destruct (Z.ltb_spec ip 110); [lia | exact Hblue].
  - intros l1' ido' ip2. rewrite Hsel.
    destruct Hblue as (ip2' & E & Hs).
    destruct (Z.ltb_spec ip 110) as [Hlt|Hge110].
    + split; [discriminate | lia].
    + rewrite E. split.
      * intros H. injection H as <- <- <-. auto.
      * intros (_ & -> & -> & Hs2).
        rewrite (smallest_good_unique _ _ _ _ Hs Hs2). reflexivity.
Qed.

Lemma make_pass_prime_witness :
  100 <= 110 <= 135 /\
  (113 < 110 -> make_pass 4 300 1 1 113 true = Ok (cfftpg 1 1 113)) /\
  (110 <= 113 ->
   exists ip2,
     make_pass 4 300 1 1 113 true = Ok (cfftpblue 1 1 113 ip2) /\
     smallest_good cmplx_primes (2 * 113 - 1) ip2) /\
  (forall l1' ido' ip2,
     make_pass 4 300 1 1 113 true = Ok (cfftpblue l1' ido' 113 ip2) <->
     110 <= 113 /\ l1' = 1 /\ ido' = 1 /\
     smallest_good cmplx_primes (2 * 113 - 1) ip2).
Proof.
  apply (make_pass_prime 4 2 300 1 1 113 true).
  - reflexivity.
  - lia.
  - apply is_prime_sound. vm_compute. reflexivity.
  - simpl. lia.
  - lia.
  - lia.
Defined.

(** *** Normalisation count of DCT and DST *)

Inductive trig : Type := DCT | DST.

Definition run_trig (k : trig) :=
  match k with DCT => dct | DST => dst end.

(** Logical transform length along an axis of [n] entries. *)
Definition axis_length (k : trig) (type n : Z) : Z :=
  if type =? 1 then
    match k with DCT => 2 * (n - 1) | DST => 2 * (n + 1) end
  else 2 * n.

(** Product of the logical lengths over the transformed axes. *)
Definition norm_count (k : trig) (type : Z) (shape : list Z) (axes : list nat) : Z :=
  fold_right Z.mul 1 (map (fun a => axis_length k type (nth a shape 0)) axes).

(** The per-axis lengths as the claim has them: [2*(n-1)] for type 1 of
    both transforms. *)
Definition claimed_count (type : Z) (shape : list Z) (axes : list nat) : Z :=
  fold_right Z.mul 1
    (map (fun a => if type =? 1 then 2 * (nth a shape 0 - 1)
                   else 2 * nth a shape 0) axes).

Definition scaled (inorm N : Z) : norm_factor :=
  if inorm =? 1 then InvSqrt N else Inv N.

Lemma wrap_mul_l a b : wrap (wrap a * b) = wrap (a * b).
Proof. unfold wrap. apply Z.mul_mod_idemp_l. unfold modulus. lia. Qed.

Lemma wrap_mul_r a b : wrap (a * wrap b) = wrap (a * b).
Proof. unfold wrap. apply Z.mul_mod_idemp_r. unfold modulus. lia. Qed.

Lemma wrap_count (f : nat -> Z) fct axes : forall acc,
  fold_left (fun N a => wrap (N * wrap (fct * wrap (f a)))) axes (wrap acc) =
  wrap (acc * fold_right Z.mul 1 (map (fun a => fct * f a) axes)).
Proof.
  induction axes as [|a axes IH]; intros acc; cbn [fold_left map fold_right].
  - rewrite Z.mul_1_r. reflexivity.
  - assert (E : wrap (wrap acc * wrap (fct * wrap (f a))) =
               wrap (acc * (fct * f a))).
    { rewrite wrap_mul_l, wrap_mul_r, Z.mul_assoc, wrap_mul_r.
      f_equal. ring. }
    rewrite E, IH. f_equal. ring.
Qed.

Lemma count_ext (f g : nat -> Z) l :
  (forall a, f a = g a) ->
  fold_right Z.mul 1 (map f l) = fold_right Z.mul 1 (map g l).
Proof. intros H. rewrite (map_ext f g H). reflexivity. Qed.

Lemma norm_fct_count inorm shape axes fct delta :
  inorm = 1 \/ inorm = 2 ->
  norm_fct inorm shape axes fct delta =
  Ok (scaled inorm
        (wrap (fold_right Z.mul 1
                 (map (fun a => fct * (nth a shape 0 + delta)) axes)))).
Proof.
  intros Hin. unfold norm_fct.
  change 1 with (wrap 1) at 1.
  rewrite (wrap_count (fun a => nth a shape 0 + delta)), Z.mul_1_l.
  unfold norm_fct_N, scaled. destruct Hin as [->| ->]; reflexivity.
Qed.

(** C4 (as amended).  For every DCT and DST call with [inorm] in {1,2},
    the count [N] in the factor [1/sqrt(N)] or [1/N] is, in [size_t]
    arithmetic, the product over the transformed axes of the per-axis
    lengths [2*(n-1)] for DCT type 1, [2*(n+1)] for DST type 1 and
    [2*n] for types 2, 3 and 4. *)
Theorem dct_dst_norm_count k shape type axes_ axes inorm :
  1 <= type <= 4 -> inorm = 1 \/ inorm = 2 ->
  makeaxes (List.length shape) axes_ = Ok axes ->
  run_trig k shape type axes_ inorm =
    Ok (scaled inorm (wrap (norm_count k type shape axes)), inorm =? 1) /\
  (0 <= norm_count k type shape axes < 2 ^ 64 ->
   wrap (norm_count k type shape axes) = norm_count k type shape axes).
Proof.
  intros Htype Hin Haxes. split; [|apply wrap_small].
  assert (Hrange : (type <? 1) || (4 <? type) = false).
  { destruct (Z.ltb_spec type 1); [lia|].
    destruct (Z.ltb_spec 4 type); [lia | reflexivity]. }
  unfold norm_count, axis_length.
  destruct k; cbn [run_trig]; unfold dct, dst, dct_internal, dst_internal;
    rewrite Hrange, Haxes; cbn [bind];
    destruct (type =? 1); rewrite norm_fct_count by exact Hin; cbn [bind];
    match goal with
    | |- Ok (scaled _ (wrap ?X), _) = Ok (scaled _ (wrap ?Y), _) =>
        assert (E : X = Y);
        [apply count_ext; intros a; ring
        | first [reflexivity | rewrite E; reflexivity]]
    end.
Qed.

Lemma dct_dst_norm_count_witness :
  run_trig DST [4; 5] 1 (Some [-1; 0]) 2 =
    Ok (scaled 2 (wrap (norm_count DST 1 [4; 5] [1%nat; 0%nat])), 2 =? 1) /\
  (0 <= norm_count DST 1 [4; 5] [1%nat; 0%nat] < 2 ^ 64 ->
   wrap (norm_count DST 1 [4; 5] [1%nat; 0%nat]) =
   norm_count DST 1 [4; 5] [1%nat; 0%nat]).
Proof.
  apply (dct_dst_norm_count DST [4; 5] 1 (Some [-1; 0]) [1%nat; 0%nat] 2).
  - lia.
  - right. reflexivity.
  - reflexivity.
Defined.

(** C4 as stated fails for DST type 1: on an axis of 3 entries the
    count is [2*(3+1) = 8], not [2*(3-1) = 4]. *)
Lemma dct_dst_norm_count_counterexample :
  dst [3] 1 None 2 = Ok (Inv 8, false) /\
  claimed_count 1 [3] [0%nat] = 4 /\
  dst [3] 1 None 2 <> Ok (Inv (claimed_count 1 [3] [0%nat]), false).
Proof.
  split; [reflexivity|]. split; [reflexivity|]. discriminate.
Qed.

(** *** Shape of a [c2r] call *)

Ltac dlia := Z.div_mod_to_equations; lia.

Lemma norm_fct_ok inorm shape axes fct delta :
  inorm = 0 \/ inorm = 1 \/ inorm = 2 ->
  exists f, norm_fct inorm shape axes fct delta = Ok f.
Proof.
  intros [->|Hin].
  - exists One. reflexivity.
  - rewrite norm_fct_count by exact Hin. eexists. reflexivity.
Qed.

Lemma nth_in_bounds (P : Z -> Prop) l i : P 0 -> Forall P l -> P (nth i l 0).
Proof.
  intros H0 Hl. revert i. induction Hl as [|x l Hx _ IH]; intros [|i]; simpl; auto.
Qed.

(** C5 (as amended).  Let [n] be the input length along the last
    transformed axis, with valid [axes] and [inorm].  A non-zero
    [lastsize] makes the call fail, with [InvalidArgument], if and only
    if it is not in {2n-2, 2n-1}; [lastsize = 0] stands for [2n-1] and
    succeeds when [n >= 1]; no other failure occurs; and on success the
    output shape is the input shape with the last transformed axis set
    to the effective [lastsize]. *)
Theorem c2r_lastsize shape axes_ axes lastsize inorm :
  makeaxes (List.length shape) axes_ = Ok axes ->
  inorm = 0 \/ inorm = 1 \/ inorm = 2 ->
  Forall (fun s => 0 <= s < 2 ^ 63) shape ->
  0 <= lastsize < 2 ^ 64 ->
  let axis := last axes 0%nat in
  let n := nth axis shape 0 in
  (lastsize <> 0 ->
   (c2r_internal shape axes_ lastsize inorm = Fail (InvalidArgument "bad lastsize")
    <-> ~ (lastsize = 2 * n - 2 \/ lastsize = 2 * n - 1))) /\
  (lastsize <> 0 -> lastsize = 2 * n - 2 \/ lastsize = 2 * n - 1 ->
   exists fct, c2r_internal shape axes_ lastsize inorm =
               Ok (set_nth axis lastsize shape, fct)) /\
  (lastsize = 0 -> 1 <= n ->
   exists fct, c2r_internal shape axes_ lastsize inorm =
               Ok (set_nth axis (2 * n - 1) shape, fct)) /\
  (forall e, c2r_internal shape axes_ lastsize inorm = Fail e ->
             e = InvalidArgument "bad lastsize").
Proof.
  intros Haxes Hin Hshape Hls axis n.
  assert (Hn : 0 <= n < 2 ^ 63).
  { subst n. apply (nth_in_bounds (fun s => 0 <= s < 2 ^ 63)); [lia | exact Hshape]. }
  unfold c2r_internal. rewrite Haxes. cbn [bind].
  fold axis. fold n. clearbody n.
  split; [|split; [|split]].
  - intros Hne. destruct (Z.eqb_spec lastsize 0); [lia|].
    destruct (Z.eqb_spec (lastsize / 2 + 1) n) as [E|E]; cbn [negb]; split.
    + intros H.
      destruct (norm_fct_ok inorm (set_nth axis lastsize shape) axes 1 0 Hin)
        as (f & Hf).
      rewrite Hf in H. discriminate.
    + intros Hnot. exfalso. apply Hnot. dlia.
    + intros _. dlia.
    + intros _. reflexivity.
  - intros Hne Hor. destruct (Z.eqb_spec lastsize 0); [lia|].
    destruct (Z.eqb_spec (lastsize / 2 + 1) n) as [E|E]; [|dlia]. cbn [negb].
    destruct (norm_fct_ok inorm (set_nth axis lastsize shape) axes 1 0 Hin)
      as (f & ->).
    exists f. reflexivity.
  - intros -> Hn1. cbn [Z.eqb]. rewrite wrap_small by lia.
    destruct (Z.eqb_spec ((2 * n - 1) / 2 + 1) n) as [E|E]; [|dlia]. cbn [negb].
    destruct (norm_fct_ok inorm (set_nth axis (2 * n - 1) shape) axes 1 0 Hin)
      as (f & ->).
    exists f. reflexivity.
  - intros e.
    match goal with
    | |- context [if negb ?c then _ else _] => destruct c
    end; cbn [negb].
    + match goal with
      | |- context [norm_fct ?i ?s ?a ?f ?d] =>
          destruct (norm_fct_ok i s a f d Hin) as (x & ->)
      end.
      discriminate.
    + intros H. injection H as <-. reflexivity.
Qed.

Lemma c2r_lastsize_witness :
  let axis := last [0%nat; 1%nat] 0%nat in
  let n := nth axis [3; 4] 0 in
  (6 <> 0 ->
   (c2r_internal [3; 4] None 6 2 = Fail (InvalidArgument "bad lastsize")
    <-> ~ (6 = 2 * n - 2 \/ 6 = 2 * n - 1))) /\
  (6 <> 0 -> 6 = 2 * n - 2 \/ 6 = 2 * n - 1 ->
   exists fct, c2r_internal [3; 4] None 6 2 = Ok (set_nth axis 6 [3; 4], fct)) /\
  (6 = 0 -> 1 <= n ->
   exists fct, c2r_internal [3; 4] None 6 2 =
               Ok (set_nth axis (2 * n - 1) [3; 4], fct)) /\
  (forall e, c2r_internal [3; 4] None 6 2 = Fail e ->
             e = InvalidArgument "bad lastsize").
Proof.
  apply (c2r_lastsize [3; 4] None [0%nat; 1%nat] 6 2).
  - reflexivity.
  - right. right. reflexivity.
  - repeat constructor; lia.
  - lia.
Defined.

(** C5 as stated fails for [lastsize = 0]: with [n = 4] the value 0 is
    not in {6, 7}, yet the call succeeds, and the output axis has 7
    entries, not [lastsize]. *)
Lemma c2r_lastsize_counterexample :
  c2r_internal [3; 4] None 0 0 = Ok ([3; 7], One) /\
  ~ (0 = 2 * 4 - 2 \/ 0 = 2 * 4 - 1) /\
  nth 1 [3; 7] 0 <> 0.
Proof.
  split; [reflexivity|]. split; [lia | discriminate].
Qed.

(** *** The order of floating-point data *)

(** [SFcompare] orders the data that are not NaN by sign, then exponent,
    then mantissa; the two zeros are equal.  [rank] maps a datum to a
    triple whose lexicographic order that is. *)
Definition rank (x : fp) : option (Z * Z * Z) :=
  match x with
  | S754_nan => None
  | S754_infinity true => Some (-2, 0, 0)
  | S754_infinity false => Some (2, 0, 0)
  | S754_zero _ => Some (0, 0, 0)
  | S754_finite true m e => Some (-1, - e, Z.neg m)
  | S754_finite false m e => Some (1, e, Z.pos m)
  end.

Definition lex_lt (a b : Z * Z * Z) : Prop :=
  fst (fst a) < fst (fst b) \/
  (fst (fst a) = fst (fst b) /\
   (snd (fst a) < snd (fst b) \/ (snd (fst a) = snd (fst b) /\ snd a < snd b))).

Definition lex_le (a b : Z * Z * Z) : Prop := lex_lt a b \/ a = b.

Lemma SFcompare_rank x y :
  match SFcompare x y, rank x, rank y with
  | Some Lt, Some a, Some b => lex_lt a b
  | Some Eq, Some a, Some b => a = b
  | Some Gt, Some a, Some b => lex_lt b a
  | None, None, _ | None, _, None => True
  | _, _, _ => False
  end.
Proof.
  destruct x as [sx|sx| |sx mx ex], y as [sy|sy| |sy my ey];
    try destruct sx; try destruct sy; cbn; unfold lex_lt; cbn; auto; try lia.
  - destruct (Z.compare_spec ex ey) as [E|E|E]; cbn; try lia.
    subst ey. rewrite Pos.compare_cont_spec. cbn.
    destruct (Pos.compare_spec mx my) as [E|E|E]; cbn; try lia.
    subst my. reflexivity.
  - destruct (Z.compare_spec ex ey) as [E|E|E]; cbn; try lia.
    subst ey. rewrite Pos.compare_cont_spec. cbn.
    destruct (Pos.compare_spec mx my) as [E|E|E]; cbn; try lia.
    subst my. reflexivity.
Qed.

Lemma lex_lt_irrefl a b : lex_lt a b -> lex_le b a -> False.
Proof.
  destruct a as [[a1 a2] a3], b as [[b1 b2] b3]. unfold lex_le, lex_lt. cbn.
  intros H [H'|H']; [lia|]. injection H' as -> -> ->. lia.
Qed.

Lemma SFleb_rank x y :
  SFleb x y = true <->
  exists a b, rank x = Some a /\ rank y = Some b /\ lex_le a b.
Proof.
  pose proof (SFcompare_rank x y) as H. unfold SFleb.
  destruct (SFcompare x y) as [[| |]|], (rank x) as [a|], (rank y) as [b|];
    try contradiction;
    (split;
     [ try discriminate; intros _; exists a, b; unfold lex_le; auto
     | try (intros _; reflexivity);
       intros (a' & b' & Ha & Hb & Hle); try discriminate ]).
  injection Ha as <-. injection Hb as <-.
  exfalso. exact (lex_lt_irrefl _ _ H Hle).
Qed.

Lemma SFltb_rank x y :
  SFltb x y = true <->
  exists a b, rank x = Some a /\ rank y = Some b /\ lex_lt a b.
Proof.
  pose proof (SFcompare_rank x y) as H. unfold SFltb.
  destruct (SFcompare x y) as [[| |]|], (rank x) as [a|], (rank y) as [b|];
    try contradiction;
    (split;
     [ try discriminate; intros _; exists a, b; auto
     | try (intros _; reflexivity);
       intros (a' & b' & Ha & Hb & Hlt); try discriminate ]).
  - injection Ha as <-. injection Hb as <-. subst b.
    exfalso. apply (lex_lt_irrefl _ _ Hlt). right. reflexivity.
  - injection Ha as <-. injection Hb as <-.
    exfalso. apply (lex_lt_irrefl _ _ H). left. exact Hlt.
Qed.

Lemma rank_not_nan x : x <> S754_nan <-> exists a, rank x = Some a.
Proof.
  destruct x as [s|s| |s m e]; try destruct s; cbn; split;
    try (intros _; eexists; reflexivity); try discriminate;
    try (intros H; contradiction); intros (a & Ha); discriminate.
Qed.

Lemma SFleb_not_nan x y : SFleb x y = true -> x <> S754_nan /\ y <> S754_nan.
Proof.
  intros H. apply SFleb_rank in H. destruct H as (a & b & Ha & Hb & _).
  split; apply rank_not_nan; eexists; eassumption.
Qed.

Lemma SFleb_refl x : x <> S754_nan -> SFleb x x = true.
Proof.
  intros H. apply rank_not_nan in H. destruct H as (a & Ha).
  apply SFleb_rank. exists a, a. unfold lex_le. auto.
Qed.

Lemma SFleb_trans x y z : SFleb x y = true -> SFleb y z = true -> SFleb x z = true.
Proof.
  rewrite !SFleb_rank. intros (a & b & Ha & Hb & Hab) (b' & c & Hb' & Hc & Hbc).
  rewrite Hb in Hb'. injection Hb' as <-. exists a, c.
  split; [exact Ha|]. split; [exact Hc|].
  destruct a as [[a1 a2] a3], b as [[b1 b2] b3], c as [[c1 c2] c3].
  unfold lex_le, lex_lt in *. cbn in *.
  destruct Hab as [Hab|Hab]; [|injection Hab as -> -> ->; exact Hbc].
  destruct Hbc as [Hbc|Hbc]; [|injection Hbc as <- <- <-; left; exact Hab].
  left. lia.
Qed.

Lemma SFltb_leb x y : SFltb x y = true -> SFleb x y = true.
Proof.
  rewrite SFltb_rank, SFleb_rank. intros (a & b & Ha & Hb & Hlt).
  exists a, b. unfold lex_le. auto.
Qed.

Lemma SFltb_false_leb x y :
  x <> S754_nan -> y <> S754_nan -> SFltb y x = false -> SFleb x y = true.
Proof.
  intros Hx Hy H. apply rank_not_nan in Hx, Hy.
  destruct Hx as (a & Ha), Hy as (b & Hb).
  apply SFleb_rank. exists a, b. split; [exact Ha|]. split; [exact Hb|].
  destruct (SFltb y x) eqn:E; [discriminate|].
  assert (Hn : ~ lex_lt b a).
  { intros Hlt. assert (SFltb y x = true) by (apply SFltb_rank; eauto). congruence. }
  destruct a as [[a1 a2] a3], b as [[b1 b2] b3].
  unfold lex_le, lex_lt in *. cbn in *.
  destruct (Z.eq_dec a1 b1) as [E1|E1]; [|left; lia].
  destruct (Z.eq_dec a2 b2) as [E2|E2]; [|left; lia].
  destruct (Z.eq_dec a3 b3) as [E3|E3]; [|left; lia].
  right. congruence.
Qed.

(** Two data of which one is finite and not zero, each at most the
    other, are the same datum. *)
Lemma SFleb_antisym x s m e :
  SFleb x (S754_finite s m e) = true -> SFleb (S754_finite s m e) x = true ->
  x = S754_finite s m e.
Proof.
  rewrite !SFleb_rank. intros (a & b & Ha & Hb & Hab) (b' & a' & Hb' & Ha' & Hba).
  rewrite Ha in Ha'. injection Ha' as <-. rewrite Hb in Hb'. injection Hb' as <-.
  assert (E : a = b).
  { destruct a as [[a1 a2] a3], b as [[b1 b2] b3].
    unfold lex_le, lex_lt in *. cbn in *.
    destruct Hab as [Hab|Hab]; [|exact Hab].
    destruct Hba as [Hba|Hba]; [lia | symmetry; exact Hba]. }
  subst b.
  destruct x as [sx|sx| |sx mx ex]; try destruct sx; destruct s; cbn in Ha, Hb;
    try discriminate; injection Ha as <-; injection Hb as E1 E2;
    try discriminate; f_equal; lia.
Qed.

(** [std::min] and [std::max] of two data that are not NaN. *)
Lemma fmin_cases a b : fmin a b = a \/ fmin a b = b.
Proof. unfold fmin. destruct (SFltb b a); auto. Qed.

Lemma fmax_cases a b : fmax a b = a \/ fmax a b = b.
Proof. unfold fmax. destruct (SFltb a b); auto. Qed.

Lemma fmin_le a b :
  a <> S754_nan -> b <> S754_nan ->
  SFleb (fmin a b) a = true /\ SFleb (fmin a b) b = true.
Proof.
  intros Ha Hb. unfold fmin. destruct (SFltb b a) eqn:E.
  - split; [apply SFltb_leb; exact E | apply SFleb_refl; exact Hb].
  - split; [apply SFleb_refl; exact Ha | apply SFltb_false_leb; assumption].
Qed.

Lemma fmax_le a b :
  a <> S754_nan -> b <> S754_nan ->
  SFleb a (fmax a b) = true /\ SFleb b (fmax a b) = true.
Proof.
  intros Ha Hb. unfold fmax. destruct (SFltb a b) eqn:E.
  - split; [apply SFltb_leb; exact E | apply SFleb_refl; exact Hb].
  - split; [apply SFleb_refl; exact Ha | apply SFltb_false_leb; assumption].
Qed.

(** *** Failure on a non-positive frequency *)

Lemma SFleb_zero_not_positive f : SFleb f zero = true -> SFltb zero f = false.
Proof.
  destruct f as [s|s| |s m e]; try destruct s; cbn; congruence.
Qed.

Lemma scan_freq_fails f freq :
  In f freq -> SFleb f zero = true ->
  forall acc fcmax,
    scan_freq freq acc fcmax =
    Fail (AssertionFailed "negative channel frequency encountered").
Proof.
  intros Hin Hf. induction freq as [|h rest IH]; [contradiction|].
  intros acc fcmax. cbn [scan_freq].
  destruct (SFltb zero h) eqn:Hh; cbn [MR_assert bind]; [|reflexivity].
  destruct Hin as [->|Hin].
  - rewrite (SFleb_zero_not_positive f Hf) in Hh. discriminate.
  - apply IH. exact Hin.
Qed.

Lemma make_Baselines_fails f uvw freq negate_v :
  In f freq -> SFleb f zero = true ->
  exists msg, make_Baselines uvw freq negate_v = Fail (AssertionFailed msg).
Proof.
  intros Hin Hf. unfold make_Baselines.
  destruct (shape1 uvw =? 3)%nat; cbn [MR_assert bind].
  - rewrite (scan_freq_fails f freq Hin Hf). cbn [bind]. eexists. reflexivity.
  - eexists. reflexivity.
Qed.

(** C10.  For both [ms2dirty] and [dirty2ms], if an entry of [freq] is
    zero or negative, the call fails with an assertion error raised by
    the [Baselines] constructor, and the output array (dirty image or
    visibilities) is exactly as it was before the call. *)
Theorem nonpositive_freq_fails_early
    T gridding_phase uvw freq ms dirty wgt mask negate_v f :
  In f freq -> SFleb f zero = true ->
  exists msg,
    make_Baselines uvw freq negate_v = Fail (AssertionFailed msg) /\
    ms2dirty T gridding_phase uvw freq ms wgt mask dirty negate_v =
      (Fail (AssertionFailed msg), dirty) /\
    dirty2ms T gridding_phase uvw freq dirty wgt mask ms negate_v =
      (Fail (AssertionFailed msg), ms).
Proof.
  intros Hin Hf.
  destruct (make_Baselines_fails f uvw freq negate_v Hin Hf) as (msg & Hb).
  exists msg. split; [exact Hb|].
  unfold ms2dirty, dirty2ms, Params, bindM, liftM. rewrite Hb.
  split; reflexivity.
Qed.

Definition sample_uvw : mav2 fp :=
  {| shape0 := 1; shape1 := 3; at2 := fun _ _ => dbl 1 |}.

Definition sample_ms : mav2 complex :=
  {| shape0 := 1; shape1 := 2; at2 := fun _ _ => (dbl 1, zero) |}.

Definition sample_dirty : mav2 fp :=
  {| shape0 := 2; shape1 := 2; at2 := fun _ _ => dbl 7 |}.

Lemma nonpositive_freq_fails_early_witness :
  exists msg,
    make_Baselines sample_uvw [dbl 1; zero] false = Fail (AssertionFailed msg) /\
    ms2dirty binary64 (fun _ _ _ => retM tt) sample_uvw [dbl 1; zero] sample_ms
      (null2 zero) (null2 0) sample_dirty false =
      (Fail (AssertionFailed msg), sample_dirty) /\
    dirty2ms binary64 (fun _ _ _ => retM tt) sample_uvw [dbl 1; zero] sample_dirty
      (null2 zero) (null2 0) sample_ms false =
      (Fail (AssertionFailed msg), sample_ms).
Proof.
  apply (nonpositive_freq_fails_early binary64 (fun _ _ _ => retM tt) sample_uvw
           [dbl 1; zero] sample_ms sample_dirty (null2 zero) (null2 0) false zero).
  - simpl. right. left. reflexivity.
  - reflexivity.
Defined.

(** *** The empty active set *)

Lemma ms2dirty_no_active T gridding_phase uvw freq ms wgt mask dirty negate_v bl st :
  (0 < size2 ms)%nat ->
  make_Baselines uvw freq negate_v = Ok bl ->
  scanData T bl ms wgt mask = Ok st ->
  nvis st = 0 ->
  ms2dirty T gridding_phase uvw freq ms wgt mask dirty negate_v =
  (Ok tt, fill2 dirty zero).
Proof.
  intros Hsz Hb Hs Hn. unfold ms2dirty, Params, bindM, liftM.
  rewrite Hb. apply Nat.ltb_lt in Hsz. rewrite Hsz. cbn [negb retM].
  rewrite Hs, Hn. reflexivity.
Qed.

Lemma dirty2ms_no_active T gridding_phase uvw freq dirty wgt mask ms negate_v bl st :
  make_Baselines uvw freq negate_v = Ok bl ->
  scanData T bl (null2 (zero, zero)) wgt mask = Ok st ->
  nvis st = 0 ->
  dirty2ms T gridding_phase uvw freq dirty wgt mask ms negate_v =
  (Ok tt, fill2 ms (zero, zero)).
Proof.
  intros Hb Hs Hn. unfold dirty2ms, Params, bindM, liftM.
  rewrite Hb. cbn [size2 null2 shape0 shape1 Nat.mul Nat.ltb Nat.leb negb fill_ms_out].
  rewrite Hs, Hn. reflexivity.
Qed.

(** An [ms2dirty] call whose [ms] has no rows: one channel, no weights,
    no mask, and a 2x2 dirty array that holds 7 everywhere. *)
Definition empty_uvw : mav2 fp :=
  {| shape0 := 0; shape1 := 3; at2 := fun _ _ => zero |}.

Definition empty_ms : mav2 complex :=
  {| shape0 := 0; shape1 := 1; at2 := fun _ _ => (zero, zero) |}.

(** C8, the failing call.  With an [ms] of shape (0,1) no sample is
    active, yet [ms2dirty] returns normally and leaves the dirty image
    as it was (7 everywhere), because [gridding] is computed as
    [ms_in.size()>0]. *)
Theorem ms2dirty_empty_ms_keeps_dirty T gridding_phase :
  (exists bl st,
     make_Baselines empty_uvw [dbl 1] false = Ok bl /\
     scanData T bl empty_ms (null2 zero) (null2 0) = Ok st /\
     nvis st = 0) /\
  ms2dirty T gridding_phase empty_uvw [dbl 1] empty_ms (null2 zero) (null2 0)
    sample_dirty false = (Ok tt, sample_dirty) /\
  at2 sample_dirty 0 0 = dbl 7.
Proof.
  split; [|split; reflexivity].
  eexists. eexists. split; [reflexivity|]. split; reflexivity.
Qed.

(** *** What the scan computes *)

Lemma fold_left_inv {A B : Type} (f : A -> B -> A) (P : list B -> A -> Prop)
    (l : list B) (a0 : A) :
  P [] a0 ->
  (forall pre x a, P pre a -> In x l -> P (pre ++ [x]) (f a x)) ->
  P l (fold_left f l a0).
Proof.
  intros H0 Hstep.
  assert (H : forall suf pre a,
             (forall x, In x suf -> In x l) -> P pre a ->
             P (pre ++ suf) (fold_left f suf a)).
  { induction suf as [|x suf IH]; intros pre a Hin Hp; cbn [fold_left].
    - rewrite app_nil_r. exact Hp.
    - replace (pre ++ x :: suf) with ((pre ++ [x]) ++ suf)
        by (rewrite <- app_assoc; reflexivity).
      apply IH.
      + intros y Hy. apply Hin. right. exact Hy.
      + apply Hstep; [exact Hp | apply Hin; left; reflexivity]. }
  apply (H l [] a0); auto.
Qed.

Lemma fold_left_nested {A B C : Type} (g : B -> A -> C -> A) (h : list C)
    (l : list B) (a0 : A) :
  fold_left (fun a x => fold_left (g x) h a) l a0 =
  fold_left (fun a p => g (fst p) a (snd p))
            (flat_map (fun x => map (pair x) h) l) a0.
Proof.
  revert a0. induction l as [|x l IH]; intros a0; cbn [fold_left flat_map].
  - reflexivity.
  - rewrite fold_left_app, <- IH. f_equal.
    generalize a0. clear. induction h as [|c h IH]; intros a0; cbn.
    + reflexivity.
    + apply IH.
Qed.

(** The samples in the order of the two nested loops. *)
Definition samples (nrow nchan : nat) : list (nat * nat) :=
  flat_map (fun r => map (pair r) (seq 0 nchan)) (seq 0 nrow).

Lemma in_samples nrow nchan r c :
  In (r, c) (samples nrow nchan) <-> (r < nrow /\ c < nchan)%nat.
Proof.
  unfold samples. rewrite in_flat_map. split.
  - intros (x & Hx & Hin). rewrite in_map_iff in Hin.
    destruct Hin as (y & E & Hy). injection E as -> ->.
    rewrite in_seq in Hx, Hy. lia.
  - intros [Hr Hc]. exists r. split; [apply in_seq; lia|].
    apply in_map. apply in_seq. lia.
Qed.

Lemma set_nth_length i x l : List.length (set_nth i x l) = List.length l.
Proof.
  revert i. induction l as [|h t IH]; intros [|i]; cbn; auto.
Qed.

Lemma nth_set_nth i j x l :
  nth j (set_nth i x l) 0 =
  if ((j =? i) && (i <? List.length l))%nat then x else nth j l 0.
Proof.
  revert i j. induction l as [|h t IH]; intros i j.
  - cbn [List.length].
    replace (i <? 0)%nat with false by (symmetry; apply Nat.ltb_ge; lia).
    rewrite andb_false_r. destruct i; reflexivity.
  - destruct i as [|i], j as [|j]; cbn [set_nth nth]; try reflexivity.
    rewrite IH. reflexivity.
Qed.

Lemma Ok_inj {A : Type} (x y : A) : Ok x = Ok y -> x = y.
Proof. intros H. injection H as H. exact H. Qed.

Lemma huge_finite : exists m e, huge = S754_finite false m e.
Proof. eexists. eexists. vm_compute. reflexivity. Qed.

Lemma SFabs_above_negative x m e :
  SFleb (SFabs x) (S754_finite true m e) = false.
Proof. destruct x as [s|s| |s mx ex]; reflexivity. Qed.

Section ScanDataCorrect.

Variable T : format.
Variable bl : Baselines.
Variable ms_in : mav2 complex.
Variable wgt : mav2 fp.
Variable mask : mav2 Z.

Let test (rc : nat * nat) : bool := sample_test T ms_in wgt mask (fst rc) (snd rc).
Let absw (rc : nat * nat) : fp := abs_w bl (fst rc) (snd rc).
Let index (rc : nat * nat) : nat := (fst rc * nchan bl + snd rc)%nat.
Let total : nat := (nrows bl * nchan bl)%nat.
Let all : list (nat * nat) := samples (nrows bl) (nchan bl).

(** The test, spelled out: present arrays must hold a datum whose
    squared magnitude, as computed in [T], is not zero, a non-zero
    weight and a non-zero mask entry. *)
Lemma sample_test_iff irow ichan :
  sample_test T ms_in wgt mask irow ichan = true <->
  (have_ms ms_in = true -> SFeqb (norm T (at2 ms_in irow ichan)) zero = false) /\
  (have_wgt wgt = true -> SFeqb (at2 wgt irow ichan) zero = false) /\
  (have_mask mask = true -> at2 mask irow ichan <> 0).
Proof.
  unfold sample_test. rewrite !andb_true_iff, !orb_true_iff, !negb_true_iff.
  destruct (have_ms ms_in), (have_wgt wgt), (have_mask mask);
    destruct (Z.eqb_spec (at2 mask irow ichan) 0);
    intuition (try discriminate; try congruence; auto).
Qed.

Lemma index_lt rc : In rc all -> (index rc < total)%nat.
Proof.
  destruct rc as [r c]. subst all. rewrite in_samples.
  subst index total. cbn [fst snd]. nia.
Qed.

Lemma index_inj rc rc' : In rc all -> In rc' all -> index rc = index rc' -> rc = rc'.
Proof.
  destruct rc as [r c], rc' as [r' c']. subst all. rewrite !in_samples.
  subst index. cbn [fst snd]. intros [Hr Hc] [Hr' Hc'] E.
  assert (r = r') by nia. subst r'. f_equal. lia.
Qed.

(** State of the scan after the samples [done]. *)
Definition scanned (done : list (nat * nat)) (st : scan_state) : Prop :=
  List.length (active st) = total /\
  (forall rc, In rc all ->
     (nth (index rc) (active st) 0 = 1 <-> In rc done /\ test rc = true)) /\
  nvis st = Z.of_nat (List.length (filter test done)) /\
  (forall rc, In rc done -> test rc = true ->
     SFleb (wmin_d st) (absw rc) = true /\ SFleb (absw rc) (wmax_d st) = true) /\
  (wmin_d st = huge \/
   exists rc, In rc done /\ test rc = true /\ wmin_d st = absw rc) /\
  (wmax_d st = (- huge)%D \/
   exists rc, In rc done /\ test rc = true /\ wmax_d st = absw rc).

Lemma nth_repeat_0 i k : nth i (repeat 0 k) 0 = 0.
Proof.
  revert i. induction k as [|k IH]; intros [|i]; cbn; auto.
Qed.

Lemma scanned_init :
  scanned [] {| active := repeat 0 total; nvis := 0;
                wmin_d := huge; wmax_d := (- huge)%D |}.
Proof.
  unfold scanned. cbn [active nvis wmin_d wmax_d filter List.length].
  split; [apply repeat_length|].
  split.
  { intros rc _. rewrite nth_repeat_0. split; [discriminate | intros [[] _]]. }
  split; [reflexivity|].
  split; [intros rc []|].
  split; left; reflexivity.
Qed.

(** No active sample has a [|w|] that is NaN or above [1e300]. *)
Hypothesis absw_bound :
  forall rc, In rc all -> test rc = true -> SFleb (absw rc) huge = true.

Lemma wmin_not_nan done st :
  scanned done st -> (forall rc, In rc done -> In rc all) ->
  wmin_d st <> S754_nan /\ wmax_d st <> S754_nan.
Proof.
  intros (_ & _ & _ & _ & Hmin & Hmax) Hsub.
  destruct huge_finite as (m & e & Hh). split.
  - destruct Hmin as [E|(rc & Hin & Ht & E)]; rewrite E.
    + rewrite Hh. discriminate.
    + exact (proj1 (SFleb_not_nan _ _ (absw_bound rc (Hsub rc Hin) Ht))).
  - destruct Hmax as [E|(rc & Hin & Ht & E)]; rewrite E.
    + rewrite Hh. discriminate.
    + exact (proj1 (SFleb_not_nan _ _ (absw_bound rc (Hsub rc Hin) Ht))).
Qed.

Lemma scanned_step done rc st :
  scanned done st -> (forall rc', In rc' done -> In rc' all) -> In rc all ->
  scanned (done ++ [rc]) (scan_sample T bl ms_in wgt mask (fst rc) st (snd rc)).
Proof.
  intros Hst Hsub Hin.
  destruct (wmin_not_nan done st Hst Hsub) as (Hnmin & Hnmax).
  destruct Hst as (Hlen & Hact & Hn & Hw & Hmin & Hmax).
  unfold scan_sample. fold (test rc). fold (absw rc). fold (index rc).
  destruct (test rc) eqn:Ht.
  - pose proof (proj1 (SFleb_not_nan _ _ (absw_bound rc Hin Ht))) as Hnw.
    destruct (fmin_le (wmin_d st) (absw rc) Hnmin Hnw) as (Hm1 & Hm2).
    destruct (fmax_le (wmax_d st) (absw rc) Hnmax Hnw) as (HM1 & HM2).
    unfold scanned. cbn [active nvis wmin_d wmax_d].
    split; [unfold set_active; rewrite set_nth_length; exact Hlen|].
    split.
    { intros rc' Hin'. unfold set_active. rewrite nth_set_nth, Hlen.
      pose proof (index_lt rc Hin) as Hlt. apply Nat.ltb_lt in Hlt.
      rewrite Hlt, andb_true_r. rewrite in_app_iff.
      destruct (Nat.eqb_spec (index rc') (index rc)) as [E|E].
      - apply index_inj in E; auto. subst rc'. split; [|reflexivity].
        intros _. split; [right; left; reflexivity | exact Ht].
      - rewrite (Hact rc' Hin'). split.
        + intros [H1 H2]. split; [left; exact H1 | exact H2].
        + intros [[H1|[H1|[]]] H2]; [split; assumption|].
          subst rc'. contradiction. }
    split.
    { rewrite filter_app, length_app. cbn [filter]. rewrite Ht.
      cbn [List.length]. lia. }
    split.
    { intros rc' Hin' Ht'. rewrite in_app_iff in Hin'.
      destruct Hin' as [H'|[<-|[]]].
      - destruct (Hw rc' H' Ht') as (Hlo & Hhi). split.
        + exact (SFleb_trans _ _ _ Hm1 Hlo).
        + exact (SFleb_trans _ _ _ Hhi HM1).
      - split; assumption. }
    split.
    { destruct (fmin_cases (wmin_d st) (absw rc)) as [E|E]; rewrite E.
      - destruct Hmin as [Hm|(rc' & H1 & H2 & H3)]; [left; exact Hm|].
        right. exists rc'. rewrite in_app_iff. auto.
      - right. exists rc. rewrite in_app_iff.
        split; [right; left; reflexivity|]. split; [exact Ht | reflexivity]. }
    { destruct (fmax_cases (wmax_d st) (absw rc)) as [E|E]; rewrite E.
      - destruct Hmax as [Hm|(rc' & H1 & H2 & H3)]; [left; exact Hm|].
        right. exists rc'. rewrite in_app_iff. auto.
      - right. exists rc. rewrite in_app_iff.
        split; [right; left; reflexivity|]. split; [exact Ht | reflexivity]. }
  - unfold scanned. split; [exact Hlen|].
    split.
    { intros rc' Hin'. rewrite (Hact rc' Hin'), in_app_iff. split.
      - intros [H1 H2]. split; [left; exact H1 | exact H2].
      - intros [[H1|[H1|[]]] H2]; [split; assumption|].
        subst rc'. congruence. }
    split.
    { rewrite filter_app, length_app. cbn [filter]. rewrite Ht.
      cbn [List.length]. lia. }
    split.
    { intros rc' Hin' Ht'. rewrite in_app_iff in Hin'.
      destruct Hin' as [H'|[<-|[]]]; [apply Hw; assumption | congruence]. }
    split.
    { destruct Hmin as [Hm|(rc' & H1 & H2 & H3)]; [left; exact Hm|].
      right. exists rc'. rewrite in_app_iff. auto. }
    { destruct Hmax as [Hm|(rc' & H1 & H2 & H3)]; [left; exact Hm|].
      right. exists rc'. rewrite in_app_iff. auto. }
Qed.

(** The scan as one loop over [samples]. *)
Lemma scanData_flat st :
  scanData T bl ms_in wgt mask = Ok st ->
  st = fold_left (fun st rc => scan_sample T bl ms_in wgt mask (fst rc) st (snd rc))
         all {| active := repeat 0 total; nvis := 0;
                wmin_d := huge; wmax_d := (- huge)%D |}.
Proof.
  unfold scanData.
  destruct (if have_wgt wgt then _ else _) as [[]| |]; cbn [bind]; try discriminate.
  destruct (if have_ms ms_in then _ else _) as [[]| |]; cbn [bind]; try discriminate.
  destruct (if have_mask mask then _ else _) as [[]| |]; cbn [bind]; try discriminate.
  intros H. apply Ok_inj in H. subst st. unfold scan_row.
  apply (fold_left_nested (fun r st c => scan_sample T bl ms_in wgt mask r st c)).
Qed.

Lemma scanData_scanned st :
  scanData T bl ms_in wgt mask = Ok st -> scanned all st.
Proof.
  intros H. rewrite (scanData_flat st H).
  refine (proj1 (fold_left_inv _ (fun done st =>
           scanned done st /\ forall rc, In rc done -> In rc all) _ _ _ _)).
  - split; [apply scanned_init | intros rc []].
  - intros pre x a [Hp Hsub] Hin. split.
    + apply scanned_step; assumption.
    + intros rc Hrc. apply in_app_iff in Hrc.
      destruct Hrc as [Hrc|[<-|[]]]; [apply Hsub; exact Hrc | exact Hin].
Qed.

(** What [scanData] leaves behind: the active mask, the count and the
    range of [|w|] over the active samples, in the order of [<=] on
    [double]. *)
Lemma scanData_spec st :
  scanData T bl ms_in wgt mask = Ok st ->
  (forall irow ichan, (irow < nrows bl)%nat -> (ichan < nchan bl)%nat ->
     (nth (irow * nchan bl + ichan) (active st) 0 = 1 <->
      sample_test T ms_in wgt mask irow ichan = true)) /\
  nvis st = Z.of_nat (List.length (filter test all)) /\
  (forall irow ichan, (irow < nrows bl)%nat -> (ichan < nchan bl)%nat ->
     sample_test T ms_in wgt mask irow ichan = true ->
     SFleb (wmin_d st) (abs_w bl irow ichan) = true /\
     SFleb (abs_w bl irow ichan) (wmax_d st) = true) /\
  (0 < nvis st ->
   (exists irow ichan, (irow < nrows bl)%nat /\ (ichan < nchan bl)%nat /\
      sample_test T ms_in wgt mask irow ichan = true /\
      wmin_d st = abs_w bl irow ichan) /\
   (exists irow ichan, (irow < nrows bl)%nat /\ (ichan < nchan bl)%nat /\
      sample_test T ms_in wgt mask irow ichan = true /\
      wmax_d st = abs_w bl irow ichan)).
Proof.
  intros H.
  destruct (scanData_scanned st H) as (Hlen & Hact & Hn & Hw & Hmin & Hmax).
  split.
  { intros r c Hr Hc.
    assert (Hin : In (r, c) all) by (apply in_samples; lia).
    pose proof (Hact (r, c) Hin) as Ha.
    change (index (r, c)) with (r * nchan bl + c)%nat in Ha.
    change (test (r, c)) with (sample_test T ms_in wgt mask r c) in Ha.
    split; intros HH.
    - exact (proj2 (proj1 Ha HH)).
    - apply Ha. split; [exact Hin | exact HH]. }
  split; [exact Hn|].
  split.
  { intros r c Hr Hc Ht.
    assert (Hin : In (r, c) all) by (apply in_samples; lia).
    exact (Hw (r, c) Hin Ht). }
  intros Hpos.
  assert (Hex : exists rc, In rc all /\ test rc = true).
  { destruct (filter test all) as [|rc l] eqn:E; [cbn in Hn; lia|].
    exists rc. apply filter_In. rewrite E. left. reflexivity. }
  destruct Hex as ([r0 c0] & Hin0 & Ht0).
  pose proof (Hw _ Hin0 Ht0) as [Hlo Hhi].
  pose proof (absw_bound _ Hin0 Ht0) as Hb0.
  pose proof Hin0 as Hin0'. apply in_samples in Hin0'.
  destruct huge_finite as (m & e & Hh).
  split.
  - destruct Hmin as [Hm|([r c] & Hin & Ht & E)].
    + exists r0, c0. unfold test in Ht0. cbn [fst snd] in Ht0.
      repeat split; try lia; try exact Ht0.
      rewrite Hm, Hh in *. symmetry.
      apply SFleb_antisym; assumption.
    + apply in_samples in Hin. exists r, c. repeat split; try lia; assumption.
  - destruct Hmax as [Hm|([r c] & Hin & Ht & E)].
    + exfalso. rewrite Hm, Hh in Hhi. unfold absw, abs_w in Hhi. cbn [SFopp] in Hhi.
      rewrite SFabs_above_negative in Hhi. exact (Bool.diff_false_true Hhi).
    + apply in_samples in Hin. exists r, c. repeat split; try lia; assumption.
Qed.

End ScanDataCorrect.

(** *** The oversampled grid size *)

(** The value of a finite datum, as a rational; 0 for the others. *)
Definition B2Q (x : fp) : Q :=
  match x with
  | S754_finite s m e =>
      match e with
      | Z.neg p => Qmake (cond_Zopp s (Z.pos m)) (2 ^ p)
      | _ => inject_Z (cond_Zopp s (Z.pos m) * 2 ^ e)
      end
  | _ => 0
  end.

(** [m] is the smallest even number, composed only of 2, 3, 5, 7 and
    11, that is strictly greater than [q]. *)
Definition smallest_even_good_above (q : Q) (m : Z) : Prop :=
  Z.even m = true /\ only_prime_factors cmplx_primes m /\
  (q < inject_Z m)%Q /\
  forall m', Z.even m' = true -> only_prime_factors cmplx_primes m' ->
             (q < inject_Z m')%Q -> m <= m'.

(** The same with [>=], as the claim has it. *)
Definition smallest_even_good_from (q : Q) (m : Z) : Prop :=
  Z.even m = true /\ only_prime_factors cmplx_primes m /\
  (q <= inject_Z m)%Q /\
  forall m', Z.even m' = true -> only_prime_factors cmplx_primes m' ->
             (q <= inject_Z m')%Q -> m <= m'.

(** The magnitude of a finite datum lies between its integer part and
    the next integer. *)
Lemma shiftl_floor m e :
  (inject_Z (Z.shiftl (Z.pos m) e) <= B2Q (S754_finite false m e)
   < inject_Z (Z.shiftl (Z.pos m) e + 1))%Q.
Proof.
  unfold B2Q, cond_Zopp. destruct e as [|p|p].
  - cbn [Z.shiftl]. rewrite Z.pow_0_r, Z.mul_1_r.
    rewrite <- Zle_Qle, <- Zlt_Qlt. lia.
  - rewrite Z.shiftl_mul_pow2 by lia.
    rewrite <- Zle_Qle, <- Zlt_Qlt. lia.
  - change (Z.shiftl (Z.pos m) (Z.neg p)) with (Z.shiftr (Z.pos m) (Z.pos p)).
    rewrite Z.shiftr_div_pow2 by lia.
    assert (Hd : Z.pos (2 ^ p) = 2 ^ Z.pos p) by (rewrite Pos2Z.inj_pow; reflexivity).
    pose proof (Qfloor_le (Z.pos m # 2 ^ p)) as H1.
    pose proof (Qlt_floor (Z.pos m # 2 ^ p)) as H2.
    unfold Qfloor in H1, H2. rewrite Hd in H1, H2. split; assumption.
Qed.

Lemma B2Q_opp m e :
  (B2Q (S754_finite true m e) == - B2Q (S754_finite false m e))%Q.
Proof.
  unfold B2Q, cond_Zopp. destruct e as [|p|p].
  - rewrite Z.mul_opp_l, inject_Z_opp. reflexivity.
  - rewrite Z.mul_opp_l, inject_Z_opp. reflexivity.
  - reflexivity.
Qed.

Lemma B2Q_pos m e : (0 < B2Q (S754_finite false m e))%Q.
Proof.
  unfold B2Q, cond_Zopp. destruct e as [|p|p].
  - change 0%Q with (inject_Z 0). rewrite <- Zlt_Qlt. lia.
  - change 0%Q with (inject_Z 0). rewrite <- Zlt_Qlt.
    apply Z.mul_pos_pos; [lia|]. apply Z.pow_pos_nonneg; lia.
  - reflexivity.
Qed.

(** [z] is the integer part of [q]: its floor when [q] is not negative,
    and 0 when [q] lies between -1 and 0. *)
Definition integer_part (q : Q) (z : Z) : Prop :=
  (inject_Z z <= q < inject_Z (z + 1))%Q \/ (z = 0 /\ (-1 < q < 0)%Q).

(** A defined conversion [size_t(x)] is the integer part of [x]. *)
Lemma size_t_of_double_spec x t :
  size_t_of_double x = Some t ->
  0 <= t < modulus /\ integer_part (B2Q x) t.
Proof.
  unfold size_t_of_double, integer_part.
  destruct (truncate x) as [z|] eqn:Ez; [|discriminate].
  destruct (Z.leb_spec 0 z) as [H0|H0]; cbn [andb]; [|discriminate].
  destruct (Z.ltb_spec z modulus) as [H1|H1]; [|discriminate].
  intros E. injection E as <-. split; [lia|].
  destruct x as [s|s| |s m e]; cbn [truncate] in Ez; try discriminate.
  - injection Ez as <-. left. cbn. split; [apply Qle_refl | reflexivity].
  - injection Ez as <-. pose proof (shiftl_floor m e) as Hf.
    destruct s; cbn [cond_Zopp] in *.
    + right.
      assert (Hs : 0 <= Z.shiftl (Z.pos m) e) by (apply Z.shiftl_nonneg; lia).
      assert (Hz : Z.shiftl (Z.pos m) e = 0) by lia.
      rewrite Hz in *. split; [reflexivity|].
      pose proof (B2Q_pos m e) as Hp. rewrite B2Q_opp.
      change (inject_Z (0 + 1)) with 1%Q in Hf. lra.
    + left. exact Hf.
Qed.

Lemma opf_pw2 k : only_prime_factors cmplx_primes (pw 2 k).
Proof.
  apply smooth_opf; [apply cmplx_primes_prime|].
  induction k as [|k IH]; [apply smooth_one|].
  rewrite pw_S. apply smooth_mul; [simpl; tauto | exact IH].
Qed.

Lemma even_double m : Z.even m = true -> m = 2 * (m / 2).
Proof.
  intros Hev. pose proof (Zmod_even m) as Hm. rewrite Hev in Hm.
  pose proof (Z.div_mod m 2 ltac:(lia)). lia.
Qed.

(** [2*good_size_complex(t+1)] is the smallest even good size above
    twice any value whose integer part is [t]. *)
Lemma oversampled_size_spec fuel nxdirty ofactor t :
  (130 <= fuel)%nat ->
  size_t_of_double (dbl nxdirty * ofactor * half)%D = Some t ->
  t + 1 <= 2 ^ 61 ->
  exists g,
    good_size_cmplx fuel (t + 1) = Some g /\
    oversampled_size fuel nxdirty ofactor = Ok (2 * g) /\
    smallest_even_good_above (2 * B2Q (dbl nxdirty * ofactor * half)%D) (2 * g).
Proof.
  intros Hfuel Ht Hmax.
  destruct (size_t_of_double_spec _ _ Ht) as (Hrange & Hval).
  unfold integer_part in Hval.
  set (h := B2Q (dbl nxdirty * ofactor * half)%D) in *.
  unfold oversampled_size, to_size_t. rewrite Ht. cbn [bind].
  rewrite wrap_small by (unfold modulus in *; lia).
  destruct (good_size_cmplx_smallest fuel (t + 1) Hfuel ltac:(lia))
    as (g & Eg & Hg1 & Hg2 & Hg3).
  rewrite Eg.
  assert (Hg61 : g <= 2 ^ 61).
  { apply Hg3; [exact Hmax | exact (opf_pw2 61)]. }
  rewrite wrap_small by (unfold modulus; lia).
  exists g. split; [reflexivity|]. split; [reflexivity|].
  assert (Hlt : (h < inject_Z (t + 1))%Q).
  { destruct Hval as [[_ H]|[-> [_ H]]]; [exact H|].
    change (inject_Z (0 + 1)) with 1%Q. lra. }
  split; [rewrite Z.even_mul; reflexivity|].
  split; [apply opf_mul; [apply cmplx_primes_prime | simpl; tauto | exact Hg2]|].
  split.
  - rewrite inject_Z_mult.
    assert (inject_Z (t + 1) <= inject_Z g)%Q by (rewrite <- Zle_Qle; exact Hg1).
    change (inject_Z 2) with 2%Q. lra.
  - intros m' Hev Hopf Hm'.
    pose proof (even_double m' Hev) as Hm2.
    assert (Hh : (h < inject_Z (m' / 2))%Q).
    { rewrite Hm2, inject_Z_mult in Hm'.
      change (inject_Z 2) with 2%Q in Hm'. lra. }
    assert (Hk : t + 1 <= m' / 2).
    { destruct Hval as [[Hle _]|[-> [Hlo _]]].
      - assert (A : (inject_Z t < inject_Z (m' / 2))%Q) by lra.
        rewrite <- Zlt_Qlt in A. lia.
      - assert (A : (inject_Z (-1) < inject_Z (m' / 2))%Q)
          by (change (inject_Z (-1)) with (-1)%Q; lra).
        rewrite <- Zlt_Qlt in A.
        assert (m' / 2 <> 0).
        { intros E0. rewrite E0 in Hm2. cbn in Hm2. subst m'.
          exact (opf_cmplx_not_0 Hopf). }
        lia. }
    assert (g <= m' / 2).
    { apply Hg3; [exact Hk|].
      apply (opf_divisor cmplx_primes (m' / 2) m'); [exists 2; lia | exact Hopf]. }
    lia.
Qed.

Section PlanningCorrect.

Variable KernelDB : list KernelParams.
Variable vlen : Z.
Variable log : fp -> fp.
Variable fuel : nat.
Variables nxdirty nydirty : Z.
Variables pixsize_x pixsize_y : fp.
Variable nvis : Z.
Variable do_wgridding : bool.
Variables wmin_d wmax_d : fp.

Let step :=
  consider KernelDB vlen log fuel nxdirty nydirty pixsize_x pixsize_y
           nvis do_wgridding wmin_d wmax_d.

Let of_kernel (i : nat) : fp := ofactor (kernel_at KernelDB i).

(** The conversion [size_t((wmax_d-wmin_d)/dw+supp)] of candidate [i]
    is defined. *)
Definition planes_defined (i : nat) : Prop :=
  exists n,
    plane_count wmin_d wmax_d
      (plane_spacing (of_kernel i) (nm1min nxdirty nydirty pixsize_x pixsize_y))
      (W (kernel_at KernelDB i)) = Ok n.

Lemma consider_ok best i nu nv :
  oversampled_size fuel nxdirty (of_kernel i) = Ok nu ->
  oversampled_size fuel nydirty (of_kernel i) = Ok nv ->
  (do_wgridding = true -> planes_defined i) ->
  exists p, step best i = Ok p /\
            (p = best \/ (minidx p = i /\ minnu p = nu /\ minnv p = nv)).
Proof.
  intros Hu Hv Hp. unfold step, consider. unfold of_kernel in Hu, Hv.
  rewrite Hu, Hv. cbn [bind].
  destruct do_wgridding.
  - destruct (Hp eq_refl) as (n & Hn). unfold of_kernel in Hn. rewrite Hn.
    cbn [bind].
    match goal with
    | |- context [SFltb ?a ?b] => destruct (SFltb a b)
    end; eexists; (split; [reflexivity|]); auto.
  - cbn [bind].
    match goal with
    | |- context [SFltb ?a ?b] => destruct (SFltb a b)
    end; eexists; (split; [reflexivity|]); auto.
Qed.

(** The plan is untouched, or carries the sizes of one candidate. *)
Definition chosen_from (idx : list nat) (p : plan) : Prop :=
  (minidx p = List.length KernelDB /\ minnu p = 0 /\ minnv p = 0) \/
  (In (minidx p) idx /\
   oversampled_size fuel nxdirty (of_kernel (minidx p)) = Ok (minnu p) /\
   oversampled_size fuel nydirty (of_kernel (minidx p)) = Ok (minnv p)).

Lemma consider_all_ok all : forall idx best,
  (forall i, In i idx -> In i all) ->
  (forall i, In i idx ->
     (exists nu, oversampled_size fuel nxdirty (of_kernel i) = Ok nu) /\
     (exists nv, oversampled_size fuel nydirty (of_kernel i) = Ok nv) /\
     (do_wgridding = true -> planes_defined i)) ->
  chosen_from all best ->
  exists p,
    consider_all KernelDB vlen log fuel nxdirty nydirty pixsize_x
      pixsize_y nvis do_wgridding wmin_d wmax_d idx best = Ok p /\
    chosen_from all p.
Proof.
  induction idx as [|i idx IH]; intros best Hsub Hsz Hbest; cbn [consider_all].
  - exists best. split; [reflexivity | exact Hbest].
  - destruct (Hsz i ltac:(left; reflexivity)) as ((nu & Hu) & (nv & Hv) & Hpl).
    destruct (consider_ok best i nu nv Hu Hv Hpl) as (p & Hp & Hsel).
    fold step. rewrite Hp. cbn [bind].
    apply IH.
    + intros j Hj. apply Hsub. right. exact Hj.
    + intros j Hj. apply Hsz. right. exact Hj.
    + destruct Hsel as [->|(E1 & E2 & E3)]; [exact Hbest|].
      right. rewrite E1, E2, E3.
      split; [apply Hsub; left; reflexivity|]. split; assumption.
Qed.

End PlanningCorrect.

(** The [double] that [getNuNv] converts for a dirty size [n]:
    [n*ofactor*0.5], each product rounded. *)
Definition half_oversampled (n : Z) (ofactor : fp) : fp :=
  (dbl n * ofactor * half)%D.

(** C6 (as amended).  In the planning phase, every kernel candidate
    considered gets [nu] and [nv] that are the smallest even
    good-complex sizes strictly greater than twice the [double]
    [nxdirty*ofactor*0.5] and twice the [double] [nydirty*ofactor*0.5]
    -- that is, [2*good_size_complex(size_t(n*ofactor*0.5)+1)] -- and
    the [nu], [nv] the planner leaves behind are those of the candidate
    it chose.  (The conversions to [size_t] are assumed defined, and
    the converted values at most [2^61 - 1].) *)
Theorem getNuNv_sizes KernelDB vlen log fuel nxdirty nydirty
    pixsize_x pixsize_y nvis do_wgridding wmin_d wmax_d idx :
  (130 <= fuel)%nat ->
  (forall i, In i idx ->
     let ofac := ofactor (kernel_at KernelDB i) in
     (exists t, size_t_of_double (half_oversampled nxdirty ofac) = Some t /\
                t + 1 <= 2 ^ 61) /\
     (exists t, size_t_of_double (half_oversampled nydirty ofac) = Some t /\
                t + 1 <= 2 ^ 61) /\
     (do_wgridding = true ->
      planes_defined KernelDB nxdirty nydirty pixsize_x pixsize_y
        wmin_d wmax_d i)) ->
  (forall i, In i idx ->
     let ofac := ofactor (kernel_at KernelDB i) in
     exists nu nv,
       oversampled_size fuel nxdirty ofac = Ok nu /\
       oversampled_size fuel nydirty ofac = Ok nv /\
       smallest_even_good_above (2 * B2Q (half_oversampled nxdirty ofac)) nu /\
       smallest_even_good_above (2 * B2Q (half_oversampled nydirty ofac)) nv) /\
  exists p,
    getNuNv KernelDB vlen log fuel nxdirty nydirty pixsize_x pixsize_y
      nvis do_wgridding wmin_d wmax_d idx = Ok p /\
    ((minidx p = List.length KernelDB /\ minnu p = 0 /\ minnv p = 0) \/
     (In (minidx p) idx /\
      let ofac := ofactor (kernel_at KernelDB (minidx p)) in
      smallest_even_good_above (2 * B2Q (half_oversampled nxdirty ofac)) (minnu p) /\
      smallest_even_good_above (2 * B2Q (half_oversampled nydirty ofac)) (minnv p))).
Proof.
  intros Hfuel Hidx.
  assert (Hcand : forall i, In i idx ->
     let ofac := ofactor (kernel_at KernelDB i) in
     exists nu nv,
       oversampled_size fuel nxdirty ofac = Ok nu /\
       oversampled_size fuel nydirty ofac = Ok nv /\
       smallest_even_good_above (2 * B2Q (half_oversampled nxdirty ofac)) nu /\
       smallest_even_good_above (2 * B2Q (half_oversampled nydirty ofac)) nv).
  { intros i Hi ofac. destruct (Hidx i Hi) as ((tx & Etx & Hx) & (ty & Ety & Hy) & _).
    fold ofac in Etx, Ety.
    destruct (oversampled_size_spec fuel nxdirty ofac tx Hfuel Etx Hx)
      as (gu & _ & Eu & Su).
    destruct (oversampled_size_spec fuel nydirty ofac ty Hfuel Ety Hy)
      as (gv & _ & Ev & Sv).
    exists (2 * gu), (2 * gv). auto. }
  split; [exact Hcand|].
  unfold getNuNv.
  destruct (consider_all_ok KernelDB vlen log fuel nxdirty nydirty
              pixsize_x pixsize_y nvis do_wgridding wmin_d wmax_d idx idx
              {| mincost := huge; minnu := 0; minnv := 0;
                 minidx := List.length KernelDB |})
    as (p & Hp & Hsel).
  - auto.
  - intros i Hi. destruct (Hcand i Hi) as (nu & nv & Eu & Ev & _).
    split; [eexists; eassumption|]. split; [eexists; eassumption|].
    exact (proj2 (proj2 (Hidx i Hi))).
  - left. cbn. auto.
  - exists p. split; [exact Hp|].
    destruct Hsel as [H|(Hin & Eu & Ev)]; [left; exact H|].
    right. split; [exact Hin|].
    destruct (Hcand _ Hin) as (nu & nv & Eu' & Ev' & Su & Sv).
    cbv zeta in *. rewrite Eu in Eu'. rewrite Ev in Ev'.
    apply Ok_inj in Eu'. apply Ok_inj in Ev'. subst nu nv. split; assumption.
Qed.

(** Two candidates, with [ofactor] 1.5 and 1.25. *)
Definition sample_KernelDB : list KernelParams :=
  [{| W := 4; ofactor := (dbl 3 / dbl 2)%D |};
   {| W := 6; ofactor := (dbl 5 / dbl 4)%D |}].

(** The literals [0.01] and [2.5]. *)
Definition sample_pixsize : fp := (dbl 1 / dbl 100)%D.
Definition sample_wmax : fp := (dbl 5 / dbl 2)%D.

Lemma getNuNv_sizes_witness :
  (forall i, In i [0%nat; 1%nat] ->
     let ofac := ofactor (kernel_at sample_KernelDB i) in
     exists nu nv,
       oversampled_size plenty 64 ofac = Ok nu /\
       oversampled_size plenty 64 ofac = Ok nv /\
       smallest_even_good_above (2 * B2Q (half_oversampled 64 ofac)) nu /\
       smallest_even_good_above (2 * B2Q (half_oversampled 64 ofac)) nv) /\
  exists p,
    getNuNv sample_KernelDB 4 (fun _ => dbl 1) plenty 64 64
      sample_pixsize sample_pixsize 100 true zero sample_wmax [0%nat; 1%nat] = Ok p /\
    ((minidx p = List.length sample_KernelDB /\ minnu p = 0 /\ minnv p = 0) \/
     (In (minidx p) [0%nat; 1%nat] /\
      let ofac := ofactor (kernel_at sample_KernelDB (minidx p)) in
      smallest_even_good_above (2 * B2Q (half_oversampled 64 ofac)) (minnu p) /\
      smallest_even_good_above (2 * B2Q (half_oversampled 64 ofac)) (minnv p))).
Proof.
  apply (getNuNv_sizes sample_KernelDB 4 (fun _ => dbl 1) plenty
           64 64 sample_pixsize sample_pixsize 100 true zero sample_wmax
           [0%nat; 1%nat]).
  - unfold plenty. lia.
  - intros i Hi ofac. subst ofac. destruct Hi as [<-|[<-|[]]].
    + split; [exists 48; split; [vm_compute; reflexivity | lia]|].
      split; [exists 48; split; [vm_compute; reflexivity | lia]|].
      intros _. exists 4. vm_compute. reflexivity.
    + split; [exists 40; split; [vm_compute; reflexivity | lia]|].
      split; [exists 40; split; [vm_compute; reflexivity | lia]|].
      intros _. exists 6. vm_compute. reflexivity.
Defined.

(** C6 as stated fails whenever [n * ofactor / 2] is itself a good
    size: for [nxdirty = 64] and [ofactor = 1.5] (both products are
    exact) the planner takes [nu = 98], although [96 = 64 * 1.5] is
    even and good. *)
Lemma getNuNv_sizes_counterexample :
  oversampled_size plenty 64 (dbl 3 / dbl 2)%D = Ok 98 /\
  (exists p,
     getNuNv sample_KernelDB 4 (fun _ => dbl 1) plenty 64 64
       sample_pixsize sample_pixsize 100 true zero sample_wmax [0%nat] = Ok p /\
     minnu p = 98 /\ minnv p = 98) /\
  (inject_Z 64 * B2Q (dbl 3 / dbl 2)%D == 96)%Q /\
  ~ smallest_even_good_from (inject_Z 64 * B2Q (dbl 3 / dbl 2)%D) 98.
Proof.
  split; [vm_compute; reflexivity|].
  split; [eexists; vm_compute; repeat split; reflexivity|].
  split; [vm_compute; reflexivity|].
  intros (_ & _ & _ & Hmin).
  specialize (Hmin 96).
  assert (H96 : only_prime_factors cmplx_primes 96).
  { apply smooth_opf; [apply cmplx_primes_prime|].
    change 96 with (2 * (2 * (2 * (2 * (2 * (3 * 1)))))).
    repeat (apply smooth_mul; [simpl; tauto|]). apply smooth_one. }
  specialize (Hmin eq_refl H96).
  assert (Hq : (inject_Z 64 * B2Q (dbl 3 / dbl 2)%D <= inject_Z 96)%Q).
  { vm_compute. discriminate. }
  specialize (Hmin Hq). lia.
Qed.

(** The bound is the rounded product: the [double] nearest to [1.2]
    is below [1.2], yet [1000*1.2*0.5] rounds to [600.0], and the
    planner takes [nu = 1210] although [1200] is even, good and above
    the exact product of the two [double]s. *)
Example oversampled_size_rounds :
  let ofac := (dbl 12 / dbl 10)%D in
  (inject_Z 1000 * B2Q ofac < 1200)%Q /\
  half_oversampled 1000 ofac = dbl 600 /\
  oversampled_size plenty 1000 ofac = Ok 1210.
Proof.
  cbv zeta. split; [vm_compute; reflexivity|].
  split; vm_compute; reflexivity.
Qed.

(** *** The w-planes *)

(** The [double] that [countRanges] converts to [nplanes]:
    [(wmax_d-wmin_d)/dw+supp]. *)
Definition planes_double (wmin_d wmax_d dw : fp) (supp : Z) : fp :=
  ((wmax_d - wmin_d) / dw + dbl supp)%D.

(** C7 (as amended).  With w-gridding enabled, the gridder computes
    [dw] as the [double] [0.5/ofactor/abs(nm1min)], where [nm1min] is
    [n_min - 1], and [nplanes] as the integer part of the [double]
    [(w_max - w_min)/dw + W] -- each operation rounded to nearest --
    where [W] is the kernel support and [w_min], [w_max] are the
    smallest and largest absolute [w] of the active samples found by
    the scan.  (No active sample has a [|w|] that is NaN or above
    [1e300], and the conversion to [size_t] is defined.) *)
Theorem w_planes T bl ms_in wgt mask st ofactor nm1min supp nplanes :
  scanData T bl ms_in wgt mask = Ok st -> 0 < nvis st ->
  (forall irow ichan, (irow < nrows bl)%nat -> (ichan < nchan bl)%nat ->
     sample_test T ms_in wgt mask irow ichan = true ->
     SFleb (abs_w bl irow ichan) huge = true) ->
  let dw := (half / ofactor / SFabs nm1min)%D in
  let h := planes_double (wmin_d st) (wmax_d st) dw supp in
  size_t_of_double h = Some nplanes ->
  (exists wmin,
     countRanges_planes true ofactor nm1min (wmin_d st) (wmax_d st) supp =
       Ok (dw, nplanes, wmin)) /\
  integer_part (B2Q h) nplanes /\
  (forall irow ichan, (irow < nrows bl)%nat -> (ichan < nchan bl)%nat ->
     sample_test T ms_in wgt mask irow ichan = true ->
     SFleb (wmin_d st) (abs_w bl irow ichan) = true /\
     SFleb (abs_w bl irow ichan) (wmax_d st) = true) /\
  (exists irow ichan, (irow < nrows bl)%nat /\ (ichan < nchan bl)%nat /\
     sample_test T ms_in wgt mask irow ichan = true /\
     wmin_d st = abs_w bl irow ichan) /\
  (exists irow ichan, (irow < nrows bl)%nat /\ (ichan < nchan bl)%nat /\
     sample_test T ms_in wgt mask irow ichan = true /\
     wmax_d st = abs_w bl irow ichan).
Proof.
  intros Hscan Hnvis Hbound dw h Hconv.
  assert (Hb : forall rc, In rc (samples (nrows bl) (nchan bl)) ->
             sample_test T ms_in wgt mask (fst rc) (snd rc) = true ->
             SFleb (abs_w bl (fst rc) (snd rc)) huge = true).
  { intros [r c] Hin Ht. apply in_samples in Hin. apply Hbound; tauto. }
  destruct (scanData_spec T bl ms_in wgt mask Hb st Hscan) as (_ & _ & Hrange & Hext).
  destruct (Hext Hnvis) as (Hmin & Hmax).
  split.
  { eexists. subst h dw. unfold planes_double in Hconv.
    unfold countRanges_planes, plane_count, plane_spacing, to_size_t.
    rewrite Hconv. cbn [bind]. reflexivity. }
  split; [exact (proj2 (size_t_of_double_spec h nplanes Hconv))|].
  split; [exact Hrange|]. split; assumption.
Qed.

(** One row at [w = 2.5], one at [w = 0]; two channels with
    [f/c = 1]; no data, weights or mask. *)
Definition sample_bl : Baselines :=
  {| coord := [{| u := zero; v := zero; w := sample_wmax |};
               {| u := zero; v := zero; w := zero |}];
     f_over_c := [dbl 1; dbl 1];
     nrows := 2; nchan := 2; umax := zero; vmax := zero |}.

Definition sample_st : scan_state :=
  match scanData binary64 sample_bl (null2 (zero, zero)) (null2 zero) (null2 0) with
  | Ok st => st
  | _ => {| active := []; nvis := 0; wmin_d := zero; wmax_d := zero |}
  end.

(** The literal [-0.25]. *)
Definition sample_nm1min : fp := (- (dbl 1 / dbl 4))%D.

Lemma w_planes_witness :
  let dw := (half / dbl 2 / SFabs sample_nm1min)%D in
  let h := planes_double (wmin_d sample_st) (wmax_d sample_st) dw 4 in
  (exists wmin,
     countRanges_planes true (dbl 2) sample_nm1min
       (wmin_d sample_st) (wmax_d sample_st) 4 = Ok (dw, 6, wmin)) /\
  integer_part (B2Q h) 6 /\
  (forall irow ichan, (irow < nrows sample_bl)%nat -> (ichan < nchan sample_bl)%nat ->
     sample_test binary64 (null2 (zero, zero)) (null2 zero) (null2 0) irow ichan = true ->
     SFleb (wmin_d sample_st) (abs_w sample_bl irow ichan) = true /\
     SFleb (abs_w sample_bl irow ichan) (wmax_d sample_st) = true) /\
  (exists irow ichan, (irow < nrows sample_bl)%nat /\ (ichan < nchan sample_bl)%nat /\
     sample_test binary64 (null2 (zero, zero)) (null2 zero) (null2 0) irow ichan = true /\
     wmin_d sample_st = abs_w sample_bl irow ichan) /\
  (exists irow ichan, (irow < nrows sample_bl)%nat /\ (ichan < nchan sample_bl)%nat /\
     sample_test binary64 (null2 (zero, zero)) (null2 zero) (null2 0) irow ichan = true /\
     wmax_d sample_st = abs_w sample_bl irow ichan).
Proof.
  apply (w_planes binary64 sample_bl (null2 (zero, zero)) (null2 zero) (null2 0)
           sample_st (dbl 2) sample_nm1min 4 6).
  - vm_compute. reflexivity.
  - vm_compute. reflexivity.
  - intros irow ichan Hr Hc _. cbn [nrows nchan sample_bl] in Hr, Hc.
    destruct irow as [|[|irow]]; [| |lia];
      (destruct ichan as [|[|ichan]]; [| |lia]); vm_compute; reflexivity.
  - vm_compute. reflexivity.
Defined.

(** C7 as stated fails when [(w_max - w_min)/dw] is not an integer:
    with [ofactor = 2], [nm1min = -0.25] (so [dw = 1]), [W = 4] and
    active samples whose [|w|] ranges over [0, 2.5] (every operation is
    exact), the code takes [nplanes = 6], whereas
    [ceil(2.5) + 4 = 7]. *)
Lemma w_planes_counterexample :
  plane_spacing (dbl 2) sample_nm1min = dbl 1 /\
  wmin_d sample_st = zero /\ wmax_d sample_st = sample_wmax /\
  (B2Q sample_wmax == 5 # 2)%Q /\
  (exists wmin,
     countRanges_planes true (dbl 2) sample_nm1min
       (wmin_d sample_st) (wmax_d sample_st) 4 = Ok (dbl 1, 6, wmin)) /\
  Qceiling ((B2Q (wmax_d sample_st) - B2Q (wmin_d sample_st))
            / B2Q (plane_spacing (dbl 2) sample_nm1min)) + 4 = 7.
Proof.
  repeat split; try (vm_compute; reflexivity).
  eexists. vm_compute. reflexivity.
Qed.

(** The integer part is taken of the rounded [double]: for [|w|]
    between the [double]s [1.1] and [4.1], [dw = 1] and [W = 4], the
    exact value of [(4.1 - 1.1)/1 + 4] on these [double]s is below
    [7], the computed one is [7.0], and [nplanes] is [7]. *)
Example plane_count_rounds :
  let lo := (dbl 11 / dbl 10)%D in
  let hi := (dbl 41 / dbl 10)%D in
  ((B2Q hi - B2Q lo) / B2Q (dbl 1) + 4 < 7)%Q /\
  planes_double lo hi (dbl 1) 4 = dbl 7 /\
  plane_count lo hi (dbl 1) 4 = Ok 7.
Proof.
  cbv zeta. split; [vm_compute; reflexivity|].
  split; vm_compute; reflexivity.
Qed.

(** *** Batch and single-point evaluation *)

Lemma vfma_length T t x c :
  List.length t = List.length c -> List.length (vfma T t x c) = List.length t.
Proof.
  revert c. induction t as [|a t IH]; intros [|b c] H; cbn in *; try lia.
  rewrite IH; lia.
Qed.

Lemma nth_vfma T t x c k :
  List.length t = List.length c -> (k < List.length t)%nat ->
  nth k (vfma T t x c) zero = nth k t zero *[T] x +[T] nth k c zero.
Proof.
  revert c k. induction t as [|a t IH]; intros [|b c] k H Hk; cbn in *; try lia.
  destruct k as [|k]; [reflexivity|]. apply IH; lia.
Qed.

(** A lane of the vector Horner loop is the scalar Horner loop. *)
Lemma horner_lane T (C : nat -> simd) x n lane js : forall t0,
  List.length t0 = n -> (forall j, In j js -> List.length (C j) = n) ->
  (lane < n)%nat ->
  nth lane (fold_left (fun tval j => vfma T tval x (C j)) js t0) zero =
  fold_left (fun tval j => tval *[T] x +[T] nth lane (C j) zero) js (nth lane t0 zero).
Proof.
  induction js as [|j js IH]; intros t0 Ht HC Hl; cbn [fold_left].
  - reflexivity.
  - rewrite IH.
    + rewrite nth_vfma; [reflexivity | | lia].
      rewrite Ht. symmetry. apply HC. left. reflexivity.
    + rewrite vfma_length; [exact Ht|].
      rewrite Ht. symmetry. apply HC. left. reflexivity.
    + intros j' Hj'. apply HC. right. exact Hj'.
    + exact Hl.
Qed.













(** ** Further properties of the code *)

(** *** Further properties of the size planner *)

Lemma pw2_between n : 1 <= n -> exists k, n <= pw 2 k < 2 * n.
Proof.
  intros Hn. destruct (Z.eq_dec n 1) as [->|Hne].
  - exists O. rewrite pw_0. lia.
  - pose proof (Z.log2_up_spec n ltac:(lia)) as [Hlo Hhi].
    pose proof (Z.log2_up_pos n ltac:(lia)) as Hpos.
    exists (Z.to_nat (Z.log2_up n)). unfold pw.
    rewrite Z2Nat.id by lia. split; [exact Hhi|].
    replace (Z.log2_up n) with (Z.succ (Z.pred (Z.log2_up n))) by lia.
    rewrite Z.pow_succ_r by lia. lia.
Qed.

Lemma opf_real_pw2 k : only_prime_factors real_primes (pw 2 k).
Proof.
  apply smooth_opf; [apply real_primes_prime|].
  induction k as [|k IH]; [apply smooth_one|].
  rewrite pw_S. apply smooth_mul; [simpl; tauto | exact IH].
Qed.

Lemma smallest_good_below_double ps n m :
  (forall k, only_prime_factors ps (pw 2 k)) ->
  1 <= n -> smallest_good ps n m -> n <= m < 2 * n.
Proof.
  intros Hpw Hn (Hle & _ & Hmin). split; [exact Hle|].
  destruct (pw2_between n Hn) as (k & Hk1 & Hk2).
  specialize (Hmin (pw 2 k) Hk1 (Hpw k)). lia.
Qed.

Lemma smallest_good_self ps m :
  only_prime_factors ps m -> smallest_good ps m m.
Proof. intros H. split; [lia|]. split; [exact H | intros; assumption]. Qed.

Lemma smallest_good_le_2_61 ps n m :
  (forall k, only_prime_factors ps (pw 2 k)) ->
  n <= 2 ^ 61 -> smallest_good ps n m -> m <= 2 ^ 61.
Proof.
  intros Hpw Hn (_ & _ & Hmin). apply (Hmin (2 ^ 61) Hn). apply (Hpw 61%nat).
Qed.

(** X1.  For [1 <= n <= 2^61] both planners answer a size [m] with
    [n <= m < 2*n], and answer [m] again when asked for [m]. *)
Theorem good_size_range_idempotent fuel n :
  (130 <= fuel)%nat -> 1 <= n <= 2 ^ 61 ->
  (exists m, good_size_cmplx fuel n = Some m /\ n <= m < 2 * n /\
             good_size_cmplx fuel m = Some m) /\
  (exists m, good_size_real fuel n = Some m /\ n <= m < 2 * n /\
             good_size_real fuel m = Some m).
Proof.
  intros Hfuel Hn. split.
  - destruct (good_size_cmplx_smallest fuel n Hfuel Hn) as (m & E & Hs).
    exists m. split; [exact E|].
    pose proof (smallest_good_below_double _ n m opf_pw2 ltac:(lia) Hs) as Hr.
    pose proof (smallest_good_le_2_61 _ n m opf_pw2 ltac:(lia) Hs) as Hmax.
    split; [exact Hr|].
    destruct (good_size_cmplx_smallest fuel m Hfuel ltac:(lia)) as (m' & E' & Hs').
    rewrite E'. f_equal. symmetry.
    apply (smallest_good_unique cmplx_primes m); [|exact Hs'].
    apply smallest_good_self. apply Hs.
  - destruct (good_size_real_smallest fuel n Hfuel Hn) as (m & E & Hs).
    exists m. split; [exact E|].
    pose proof (smallest_good_below_double _ n m opf_real_pw2 ltac:(lia) Hs) as Hr.
    pose proof (smallest_good_le_2_61 _ n m opf_real_pw2 ltac:(lia) Hs) as Hmax.
    split; [exact Hr|].
    destruct (good_size_real_smallest fuel m Hfuel ltac:(lia)) as (m' & E' & Hs').
    rewrite E'. f_equal. symmetry.
    apply (smallest_good_unique real_primes m); [|exact Hs'].
    apply smallest_good_self. apply Hs.
Qed.

Lemma good_size_range_idempotent_witness :
  (exists m, good_size_cmplx 200 1000 = Some m /\ 1000 <= m < 2 * 1000 /\
             good_size_cmplx 200 m = Some m) /\
  (exists m, good_size_real 200 1000 = Some m /\ 1000 <= m < 2 * 1000 /\
             good_size_real 200 m = Some m).
Proof. apply (good_size_range_idempotent 200 1000); lia. Defined.

(** X2.  The length for complex transforms never exceeds the one for real
    transforms, and each planner returns [n] itself exactly when [n] is
    already composed of its primes. *)
Theorem good_size_cmplx_le_real fuel n :
  (130 <= fuel)%nat -> 1 <= n <= 2 ^ 61 ->
  exists mc mr,
    good_size_cmplx fuel n = Some mc /\ good_size_real fuel n = Some mr /\
    mc <= mr /\
    (mc = n <-> only_prime_factors cmplx_primes n) /\
    (mr = n <-> only_prime_factors real_primes n).
Proof.
  intros Hfuel Hn.
  destruct (good_size_cmplx_smallest fuel n Hfuel Hn) as (mc & Ec & Hc).
  destruct (good_size_real_smallest fuel n Hfuel Hn) as (mr & Er & Hr).
  exists mc, mr. split; [exact Ec|]. split; [exact Er|].
  destruct Hc as (Hc1 & Hc2 & Hc3). destruct Hr as (Hr1 & Hr2 & Hr3).
  split; [|split].
  - apply Hc3; [exact Hr1|].
    intros p Hp Hd. specialize (Hr2 p Hp Hd).
    unfold real_primes in Hr2. unfold cmplx_primes. simpl in *. tauto.
  - split; [intros <-; exact Hc2|].
    intros H. specialize (Hc3 n ltac:(lia) H). lia.
  - split; [intros <-; exact Hr2|].
    intros H. specialize (Hr3 n ltac:(lia) H). lia.
Qed.

Lemma good_size_cmplx_le_real_witness :
  exists mc mr,
    good_size_cmplx 200 1000 = Some mc /\ good_size_real 200 1000 = Some mr /\
    mc <= mr /\
    (mc = 1000 <-> only_prime_factors cmplx_primes 1000) /\
    (mr = 1000 <-> only_prime_factors real_primes 1000).
Proof. apply (good_size_cmplx_le_real 200 1000); lia. Defined.

(** *** Trial division *)

Definition product (l : list Z) : Z := fold_right Z.mul 1 l.

Lemma product_app l1 l2 : product (l1 ++ l2) = product l1 * product l2.
Proof.
  induction l1 as [|a l1 IH]; cbn [product fold_right app].
  - fold (product l2). lia.
  - fold (product (l1 ++ l2)). fold (product l1). rewrite IH. ring.
Qed.

Lemma product_cons a l : product (a :: l) = a * product l.
Proof. reflexivity. Qed.

Lemma product_repeat d k : product (repeat d k) = pw d k.
Proof.
  induction k as [|k IH]; [reflexivity|].
  cbn [repeat]. rewrite product_cons, IH, pw_S. reflexivity.
Qed.

Lemma product_pos l : Forall (fun f => 1 <= f) l -> 1 <= product l.
Proof.
  induction 1 as [|a l Ha _ IH]; [cbn; lia|].
  rewrite product_cons. nia.
Qed.

Lemma while_divides_spec d :
  2 <= d -> forall fuel N factors,
  1 <= N -> (Z.to_nat N <= fuel)%nat ->
  exists k N',
    while_divides fuel d N factors = Ok (N', factors ++ repeat d k) /\
    N = N' * pw d k /\ 1 <= N' /\ N' mod d <> 0.
Proof.
  intros Hd. induction fuel as [|fuel IH]; intros N factors HN Hfuel; [lia|].
  cbn [while_divides]. destruct (Z.eqb_spec (N mod d) 0) as [H0|H0].
  - assert (HNd : N = d * (N / d)) by (apply Z_div_exact_full_2; lia).
    assert (Hq : 1 <= N / d < N) by nia.
    destruct (IH (N / d) (factors ++ [d]) ltac:(lia) ltac:(lia))
      as (k & N' & E & HNk & H1 & Hm).
    exists (S k), N'. rewrite E, <- app_assoc. cbn [repeat app].
    split; [reflexivity|]. rewrite pw_S. split; [|split; assumption].
    rewrite HNd at 1. rewrite HNk. ring.
  - exists O, N. rewrite app_nil_r, pw_0. repeat split; try assumption; lia.
Qed.

Lemma while_low_bits_zero_spec s :
  1 <= s -> forall fuel N factors,
  1 <= N -> (Z.to_nat N <= fuel)%nat ->
  exists k N',
    while_low_bits_zero (2 ^ s - 1) (2 ^ s) s fuel N factors
      = Ok (N', factors ++ repeat (2 ^ s) k) /\
    N = N' * pw (2 ^ s) k /\ 1 <= N' /\ N' mod 2 ^ s <> 0.
Proof.
  intros Hs.
  assert (H2s : 2 <= 2 ^ s).
  { change 2 with (2 ^ 1) at 1. apply Z.pow_le_mono_r; lia. }
  induction fuel as [|fuel IH]; intros N factors HN Hfuel; [lia|].
  cbn [while_low_bits_zero]. rewrite land_low_bits by lia.
  destruct (Z.eqb_spec (N mod 2 ^ s) 0) as [H0|H0].
  - rewrite Z.shiftr_div_pow2 by lia.
    assert (HNd : N = 2 ^ s * (N / 2 ^ s)) by (apply Z_div_exact_full_2; lia).
    assert (Hq : 1 <= N / 2 ^ s < N) by nia.
    destruct (IH (N / 2 ^ s) (factors ++ [2 ^ s]) ltac:(lia) ltac:(lia))
      as (k & N' & E & HNk & H1 & Hm).
    exists (S k), N'. rewrite E, <- app_assoc. cbn [repeat app].
    split; [reflexivity|]. rewrite pw_S. split; [|split; assumption].
    rewrite HNd at 1. rewrite HNk. ring.
  - exists O, N. rewrite app_nil_r, pw_0. repeat split; try assumption; lia.
Qed.

(** The list a factorisation ends with: the odd prime factors found by
    trial division, then what is left of [N] when it is not 1. *)
Definition closing (N' : Z) (fs : list Z) : list Z :=
  if 1 <? N' then fs ++ [N'] else fs.

Lemma closing_app N' l fs : closing N' (l ++ fs) = l ++ closing N' fs.
Proof. unfold closing. destruct (1 <? N'); [rewrite app_assoc|]; reflexivity. Qed.

(** A number without divisors below [d] and below [d * d] is 1 or prime. *)
Lemma no_small_divisor_prime d N :
  1 < N -> N < d * d -> 0 < d ->
  (forall q, 1 < q < d -> ~ (q | N)) -> Z.prime N.
Proof.
  intros HN Hsq Hd Hno. split; [exact HN|].
  intros q Hq [c Hc].
  destruct (Z.lt_ge_cases q d) as [Hlt|Hge].
  - apply (Hno q); [lia | exists c; exact Hc].
  - assert (Hc1 : 1 < c) by nia.
    assert (Hcd : c < d) by nia.
    apply (Hno c); [lia | exists q; lia].
Qed.

Lemma sorted_repeat_app d k l :
  Forall (fun f => d <= f) l -> StronglySorted Z.le l ->
  StronglySorted Z.le (repeat d k ++ l).
Proof.
  intros Hl Hs. induction k as [|k IH]; [exact Hs|].
  cbn [repeat app]. constructor; [exact IH|].
  apply Forall_app. split; [|exact Hl].
  clear. induction k; constructor; [lia | assumption].
Qed.

Definition odd_factorisation (d N : Z) (all : list Z) : Prop :=
  N = product all /\ Forall Z.prime all /\ Forall (fun f => d <= f) all /\
  StronglySorted Z.le all.

Lemma for_odd_divisors_spec N0 :
  N0 <= 2 ^ 62 ->
  forall fuel d N factors,
    1 <= N <= N0 -> Z.odd N = true -> Z.odd d = true -> 3 <= d ->
    (d = 3 \/ (d - 2) * (d - 2) <= N0) ->
    (forall q, 1 < q < d -> ~ (q | N)) ->
    (Z.to_nat N + Z.to_nat (N + 3 - d) <= fuel)%nat ->
    exists N' fs,
      for_odd_divisors fuel d N factors = Ok (N', factors ++ fs) /\
      1 <= N' /\ odd_factorisation d N (closing N' fs).
Proof.
  intros HN0. induction fuel as [|fuel IH];
    intros d N factors HN Hodd Hdodd Hd Hsq Hno Hfuel; [lia|].
  rewrite for_odd_divisors_S.
  assert (Hdd : 0 <= d * d < 2 ^ 64).
  { split; [nia|]. destruct Hsq as [->|Hsq]; [lia|].
    assert (d - 2 <= 2 ^ 31) by nia. nia. }
  rewrite wrap_small by exact Hdd.
  destruct (Z.leb_spec (d * d) N) as [Hle|Hgt].
  - destruct (while_divides_spec d ltac:(lia) (S fuel) N factors
                ltac:(lia) ltac:(lia)) as (k & N1 & E & HNk & H1 & Hm).
    rewrite E. cbn [bind]. rewrite wrap_small by nia.
    assert (Hpk : 1 <= pw d k) by (apply pw_ge_1; lia).
    assert (HN1 : N1 <= N) by nia.
    assert (HdN : d < N) by nia.
    assert (Hdiv1 : (N1 | N)) by (exists (pw d k); lia).
    assert (Hodd1 : Z.odd N1 = true).
    { rewrite HNk, Z.odd_mul in Hodd. apply andb_prop in Hodd. tauto. }
    destruct (IH (d + 2) N1 (factors ++ repeat d k)) as (N' & fs & E' & H1' & HP).
    + lia.
    + exact Hodd1.
    + rewrite Z.odd_add, Hdodd. reflexivity.
    + lia.
    + right. replace (d + 2 - 2) with d by lia. lia.
    + intros q Hq Hqd.
      destruct (Z.lt_ge_cases q d) as [Hlt|Hge].
      * apply (Hno q); [lia|]. eapply Z.divide_trans; eassumption.
      * destruct (Z.eq_dec q d) as [->|Hne].
        -- apply Hm. apply Z.mod_divide; [lia | exact Hqd].
        -- assert (q = d + 1) by lia. subst q.
           destruct Hqd as [c Hc]. rewrite Hc in Hodd1.
           rewrite Z.odd_mul, Z.odd_add, Hdodd in Hodd1.
           rewrite andb_false_r in Hodd1. discriminate.
    + lia.
    + exists N', (repeat d k ++ fs). rewrite E', <- app_assoc.
      split; [reflexivity|]. split; [exact H1'|].
      rewrite closing_app.
      destruct HP as (Hprod & Hprime & Hge & Hsorted).
      assert (Hge' : Forall (fun f => d <= f) (closing N' fs)).
      { eapply Forall_impl; [|exact Hge]. cbn. intros; lia. }
      split; [|split; [|split]].
      * rewrite product_app, product_repeat, <- Hprod. lia.
      * apply Forall_app. split; [|exact Hprime].
        destruct k as [|k]; [constructor|].
        assert (Hdp : Z.prime d).
        { split; [lia|]. intros q Hq Hqd. apply (Hno q Hq).
          apply Z.divide_trans with d; [exact Hqd|].
          exists (N1 * pw d k). rewrite HNk, pw_S. ring. }
        clear - Hdp. induction (S k); constructor; assumption.
      * apply Forall_app. split; [|exact Hge'].
        clear. induction k; constructor; [lia | assumption].
      * apply sorted_repeat_app; assumption.
  - exists N, []. rewrite app_nil_r. split; [reflexivity|].
    split; [lia|]. unfold closing, odd_factorisation.
    destruct (Z.ltb_spec 1 N) as [H1|H1]; cbn [app].
    + assert (Hp : Z.prime N)
        by (apply (no_small_divisor_prime d); [lia | lia | lia | exact Hno]).
      assert (HdN : d <= N).
      { destruct (Z.lt_ge_cases N d) as [Hlt|]; [|assumption].
        exfalso. apply (Hno N); [lia | apply Z.divide_refl]. }
      split; [cbn; lia|]. split; [constructor; [exact Hp | constructor]|].
      split; [constructor; [exact HdN | constructor]|].
      constructor; constructor.
    + split; [cbn; lia|]. repeat split; constructor.
Qed.

(** The odd part of either factorisation, from [divisor = 3]. *)
Lemma odd_part_spec fuel N factors :
  1 <= N <= 2 ^ 62 -> Z.odd N = true -> (2 * Z.to_nat N <= fuel)%nat ->
  exists N' fs,
    for_odd_divisors fuel 3 N factors = Ok (N', factors ++ fs) /\
    odd_factorisation 3 N (closing N' fs).
Proof.
  intros HN Hodd Hfuel.
  destruct (for_odd_divisors_spec (2 ^ 62) ltac:(lia) fuel 3 N factors)
    as (N' & fs & E & _ & HP); try assumption; try lia.
  - reflexivity.
  - intros q Hq [c Hc]. assert (q = 2) by lia. subst q.
    rewrite Hc, Z.odd_mul, andb_false_r in Hodd. discriminate.
  - exists N', fs. split; assumption.
Qed.

Lemma finish_factorisation fuel N twos :
  1 <= N <= 2 ^ 62 -> Z.odd N = true -> (2 * Z.to_nat N <= fuel)%nat ->
  exists odds,
    (do (N', factors) <- for_odd_divisors fuel 3 N twos;
     Ok (if 1 <? N' then factors ++ [N'] else factors)) = Ok (twos ++ odds) /\
    odd_factorisation 3 N odds.
Proof.
  intros HN Hodd Hfuel.
  destruct (odd_part_spec fuel N twos HN Hodd Hfuel) as (N' & fs & E & HP).
  exists (closing N' fs). rewrite E. cbn [bind].
  change (if 1 <? N' then (twos ++ fs) ++ [N'] else twos ++ fs)
    with (closing N' (twos ++ fs)).
  rewrite closing_app. split; [reflexivity | exact HP].
Qed.

Lemma odd_iff_mod x : Z.odd x = true <-> x mod 2 = 1.
Proof. rewrite Zmod_odd. destruct (Z.odd x); split; (reflexivity || discriminate). Qed.

Lemma even_iff_mod x : Z.odd x = false <-> x mod 2 = 0.
Proof. rewrite Zmod_odd. destruct (Z.odd x); split; (reflexivity || discriminate). Qed.

Lemma repeat_snoc {A} (a : A) k : repeat a k ++ [a] = a :: repeat a k.
Proof. induction k as [|k IH]; [reflexivity|]. cbn. rewrite IH. reflexivity. Qed.

Lemma rev_repeat_same {A} (a : A) k : rev (repeat a k) = repeat a k.
Proof.
  induction k as [|k IH]; [reflexivity|].
  cbn [repeat rev]. rewrite IH. apply repeat_snoc.
Qed.

(** Moving a trailing 2 to the front of a run of equal radices. *)
Lemma swap_front_back_repeat r k :
  swap_front_back (repeat r k ++ [2]) = 2 :: repeat r k.
Proof.
  destruct k as [|k]; [reflexivity|].
  cbn [repeat app swap_front_back].
  rewrite rev_app_distr. cbn [rev app]. rewrite rev_repeat_same, rev_repeat_same.
  rewrite repeat_snoc. reflexivity.
Qed.

Lemma odd_factorisation_odd N odds :
  odd_factorisation 3 N odds -> Forall (fun f => Z.prime f /\ f <> 2) odds.
Proof.
  intros (_ & Hp & Hge & _). rewrite Forall_forall in *.
  intros f Hf. split; [apply Hp; exact Hf|]. specialize (Hge f Hf). cbn in Hge. lia.
Qed.

Lemma prime_factors_structure fuel N :
  1 <= N <= 2 ^ 62 -> (2 * Z.to_nat N <= fuel)%nat ->
  exists fs,
    prime_factors fuel N = Ok fs /\
    product fs = N /\ Forall Z.prime fs /\ StronglySorted Z.le fs.
Proof.
  intros HN Hfuel. unfold prime_factors.
  destruct (Z.ltb_spec 0 N); [|lia]. cbn [MR_assert bind].
  change (while_low_bits_zero 1 2 1) with (while_low_bits_zero (2 ^ 1 - 1) (2 ^ 1) 1).
  destruct (while_low_bits_zero_spec 1 ltac:(lia) fuel N [] ltac:(lia) ltac:(lia))
    as (k & N1 & E & HNk & H1 & Hm).
  rewrite E. cbn [bind app]. change (2 ^ 1) with 2 in *.
  assert (Hpk : 1 <= pw 2 k) by (apply pw_ge_1; lia).
  assert (Hodd : Z.odd N1 = true).
  { apply odd_iff_mod. dlia. }
  destruct (finish_factorisation fuel N1 (repeat 2 k)) as (odds & E' & HP);
    [nia | exact Hodd | nia |].
  rewrite E'. exists (repeat 2 k ++ odds). split; [reflexivity|].
  destruct HP as (Hprod & Hprime & Hge & Hsorted).
  split; [rewrite product_app, product_repeat, <- Hprod; lia|].
  split.
  - apply Forall_app. split; [|exact Hprime].
    clear. induction k; constructor; [exact Z.prime_2 | assumption].
  - apply sorted_repeat_app; [|exact Hsorted].
    eapply Forall_impl; [|exact Hge]. cbn. intros; lia.
Qed.


(** The powers of two at the head of a [cfftpass::factorize] result:
    [a] eights, followed by at most one 4, or preceded by one 2. *)
Definition cfft_twos (a : nat) (twos : list Z) : Prop :=
  twos = repeat 8 a \/ twos = repeat 8 a ++ [4] \/ twos = 2 :: repeat 8 a.

Lemma cfft_factorize_structure fuel N :
  1 <= N <= 2 ^ 62 -> (2 * Z.to_nat N <= fuel)%nat ->
  exists a twos odds,
    factorize fuel N = Ok (twos ++ odds) /\
    cfft_twos a twos /\
    product (twos ++ odds) = N /\
    Forall (fun f => Z.prime f /\ f <> 2) odds /\
    StronglySorted Z.le odds.
Proof.
  intros HN Hfuel. unfold factorize.
  destruct (Z.ltb_spec 0 N); [|lia]. cbn [MR_assert bind].
  change (while_low_bits_zero 7 8 3) with (while_low_bits_zero (2 ^ 3 - 1) (2 ^ 3) 3).
  destruct (while_low_bits_zero_spec 3 ltac:(lia) fuel N [] ltac:(lia) ltac:(lia))
    as (k8 & N1 & E8 & HN8 & H1 & Hm8).
  rewrite E8. cbn [bind app].
  change (while_low_bits_zero 3 4 2) with (while_low_bits_zero (2 ^ 2 - 1) (2 ^ 2) 2).
  assert (Hp8 : 1 <= pw (2 ^ 3) k8) by (apply pw_ge_1; lia).
  destruct (while_low_bits_zero_spec 2 ltac:(lia) fuel N1 (repeat (2 ^ 3) k8)
              ltac:(lia) ltac:(nia)) as (k4 & N2 & E4 & HN4 & H2 & Hm4).
  rewrite E4. cbn [bind]. change (2 ^ 3) with 8 in *. change (2 ^ 2) with 4 in *.
  assert (Hp4 : 1 <= pw 4 k4) by (apply pw_ge_1; lia).
  assert (HN2 : N2 <= N) by nia.
  rewrite land_1_odd.
  destruct k4 as [|[|k4]].
  - (* no 4 *)
    rewrite pw_0 in HN4. cbn [repeat]. rewrite app_nil_r.
    destruct (Z.odd N2) eqn:Hodd; cbn [negb].
    + destruct (finish_factorisation fuel N2 (repeat 8 k8)) as (odds & E' & HP);
        [lia | exact Hodd | lia |].
      rewrite E'. exists k8, (repeat 8 k8), odds.
      split; [reflexivity|]. split; [left; reflexivity|].
      split; [|split; [exact (odd_factorisation_odd _ _ HP) | apply HP]].
      destruct HP as (Hprod & _). rewrite product_app, product_repeat, <- Hprod. lia.
    + rewrite swap_front_back_repeat, shiftr_1_half.
      apply even_iff_mod in Hodd.
      assert (Hodd3 : Z.odd (N2 / 2) = true) by (apply odd_iff_mod; dlia).
      assert (Hh : N2 = 2 * (N2 / 2)) by dlia.
      destruct (finish_factorisation fuel (N2 / 2) (2 :: repeat 8 k8))
        as (odds & E' & HP); [dlia | exact Hodd3 | dlia |].
      rewrite E'. exists k8, (2 :: repeat 8 k8), odds.
      split; [reflexivity|]. split; [right; right; reflexivity|].
      split; [|split; [exact (odd_factorisation_odd _ _ HP) | apply HP]].
      destruct HP as (Hprod & _).
      rewrite product_app, product_cons, product_repeat, <- Hprod. lia.
  - (* one 4 *)
    rewrite pw_S, pw_0 in HN4.
    assert (Hodd : Z.odd N2 = true) by (apply odd_iff_mod; dlia).
    rewrite Hodd. cbn [negb repeat].
    destruct (finish_factorisation fuel N2 (repeat 8 k8 ++ [4])) as (odds & E' & HP);
      [lia | exact Hodd | lia |].
    rewrite E'. exists k8, (repeat 8 k8 ++ [4]), odds.
    split; [reflexivity|]. split; [right; left; reflexivity|].
    split; [|split; [exact (odd_factorisation_odd _ _ HP) | apply HP]].
    destruct HP as (Hprod & _).
    rewrite !product_app, product_repeat, product_cons, <- Hprod. cbn [product fold_right]. lia.
  - (* two 4s would have been an 8 *)
    exfalso. apply Hm8. rewrite !pw_S in HN4.
    replace N1 with ((2 * N2 * pw 4 k4) * 8) by lia. apply Z_mod_mult.
Qed.


(** The powers of two at the head of an [rfftpass::factorize] result. *)
Definition rfft_twos (a : nat) (twos : list Z) : Prop :=
  twos = repeat 4 a \/ twos = 2 :: repeat 4 a.

Lemma rfft_factorize_structure fuel N :
  1 <= N <= 2 ^ 62 -> (2 * Z.to_nat N <= fuel)%nat ->
  exists a twos odds,
    rfftpass.factorize fuel N = Ok (twos ++ odds) /\
    rfft_twos a twos /\
    product (twos ++ odds) = N /\
    Forall (fun f => Z.prime f /\ f <> 2) odds /\
    StronglySorted Z.le odds.
Proof.
  intros HN Hfuel. unfold rfftpass.factorize.
  destruct (Z.ltb_spec 0 N); [|lia]. cbn [MR_assert bind].
  change (while_low_bits_zero 3 4 2) with (while_low_bits_zero (2 ^ 2 - 1) (2 ^ 2) 2).
  destruct (while_low_bits_zero_spec 2 ltac:(lia) fuel N [] ltac:(lia) ltac:(lia))
    as (k4 & N2 & E4 & HN4 & H2 & Hm4).
  rewrite E4. cbn [bind app]. change (2 ^ 2) with 4 in *.
  assert (Hp4 : 1 <= pw 4 k4) by (apply pw_ge_1; lia).
  assert (HN2 : N2 <= N) by nia.
  rewrite land_1_odd.
  destruct (Z.odd N2) eqn:Hodd; cbn [negb].
  - destruct (finish_factorisation fuel N2 (repeat 4 k4)) as (odds & E' & HP);
      [lia | exact Hodd | lia |].
    rewrite E'. exists k4, (repeat 4 k4), odds.
    split; [reflexivity|]. split; [left; reflexivity|].
    split; [|split; [exact (odd_factorisation_odd _ _ HP) | apply HP]].
    destruct HP as (Hprod & _). rewrite product_app, product_repeat, <- Hprod. lia.
  - rewrite swap_front_back_repeat, shiftr_1_half.
    apply even_iff_mod in Hodd.
    assert (Hodd3 : Z.odd (N2 / 2) = true) by (apply odd_iff_mod; dlia).
    assert (Hh : N2 = 2 * (N2 / 2)) by dlia.
    destruct (finish_factorisation fuel (N2 / 2) (2 :: repeat 4 k4))
      as (odds & E' & HP); [dlia | exact Hodd3 | dlia |].
    rewrite E'. exists k4, (2 :: repeat 4 k4), odds.
    split; [reflexivity|]. split; [right; reflexivity|].
    split; [|split; [exact (odd_factorisation_odd _ _ HP) | apply HP]].
    destruct HP as (Hprod & _).
    rewrite product_app, product_cons, product_repeat, <- Hprod. lia.
Qed.


(** *** Which lengths get a single pass *)

Lemma product_odd l : Forall (fun f => Z.prime f /\ f <> 2) l -> Z.odd (product l) = true.
Proof.
  induction 1 as [|a l [Hp Hne] _ IH]; [reflexivity|].
  rewrite product_cons, Z.odd_mul, IH, (prime_odd a Hp Hne). reflexivity.
Qed.

Lemma product_ge_2 l :
  Forall (fun f => 2 <= f) l -> (2 <= List.length l)%nat ->
  exists a b, 2 <= a /\ 2 <= b /\ product l = a * b.
Proof.
  intros H Hlen. destruct l as [|a [|b l]]; cbn [List.length] in Hlen; try lia.
  inversion H as [|? ? Ha H']; subst. inversion H' as [|? ? Hb H'']; subst.
  exists a, (b * product l). rewrite !product_cons.
  assert (1 <= product l).
  { apply product_pos. eapply Forall_impl; [|exact H'']. cbn. intros; lia. }
  repeat split; [lia | nia].
Qed.

Lemma composite_not_prime a b : 2 <= a -> 2 <= b -> ~ Z.prime (a * b).
Proof.
  intros Ha Hb [_ Hp]. apply (Hp a); [nia | exists b; lia].
Qed.

Lemma cfft_twos_ge_2 a twos : cfft_twos a twos -> Forall (fun f => 2 <= f) twos.
Proof.
  assert (H8 : forall k, Forall (fun f => 2 <= f) (repeat 8 k)).
  { induction k; constructor; [lia | assumption]. }
  intros [->|[->| ->]].
  - apply H8.
  - apply Forall_app. split; [apply H8 | constructor; [lia | constructor]].
  - constructor; [lia | apply H8].
Qed.

Lemma rfft_twos_ge_2 a twos : rfft_twos a twos -> Forall (fun f => 2 <= f) twos.
Proof.
  assert (H4 : forall k, Forall (fun f => 2 <= f) (repeat 4 k)).
  { induction k; constructor; [lia | assumption]. }
  intros [->| ->].
  - apply H4.
  - constructor; [lia | apply H4].
Qed.

Lemma odd_primes_ge_2 odds :
  Forall (fun f => Z.prime f /\ f <> 2) odds -> Forall (fun f => 2 <= f) odds.
Proof.
  apply Forall_impl. intros f [Hp _]. apply Z.prime_ge_2. exact Hp.
Qed.

(** [cfftpass::factorize] answers a single factor exactly for the primes,
    4 and 8. *)
Lemma cfft_factorize_single fuel N :
  1 <= N <= 2 ^ 62 -> (2 * Z.to_nat N <= fuel)%nat ->
  exists fs, factorize fuel N = Ok fs /\
             (List.length fs = 1%nat <-> Z.prime N \/ N = 4 \/ N = 8).
Proof.
  intros HN Hfuel.
  destruct (cfft_factorize_structure fuel N HN Hfuel)
    as (a & twos & odds & E & Htw & Hprod & Hodds & _).
  exists (twos ++ odds). split; [exact E|].
  pose proof (cfft_twos_ge_2 a twos Htw) as Hge_t.
  pose proof (odd_primes_ge_2 odds Hodds) as Hge_o.
  assert (Hge : Forall (fun f => 2 <= f) (twos ++ odds))
    by (apply Forall_app; split; assumption).
  split.
  - intros Hlen. rewrite <- Hprod.
    destruct twos as [|t [|t' twos]]; cbn [app List.length] in Hlen.
    + destruct odds as [|o [|o' odds]]; cbn [List.length] in Hlen; try lia.
      left. inversion Hodds as [|? ? [Hp _] _]; subst.
      cbn [app product fold_right]. rewrite Z.mul_1_r. exact Hp.
    + destruct odds; cbn [List.length] in Hlen; [|lia].
      cbn [app product fold_right]. rewrite Z.mul_1_r.
      destruct Htw as [Ht|[Ht|Ht]].
      * destruct a as [|[|a]]; cbn in Ht; try discriminate.
        injection Ht as ->. right; right; reflexivity.
      * destruct a as [|a]; cbn in Ht; [injection Ht as ->; right; left; reflexivity|].
        destruct a; discriminate.
      * destruct a; cbn in Ht; [|discriminate].
        injection Ht as ->. left. exact Z.prime_2.
    + rewrite length_app in Hlen. cbn [List.length] in Hlen. lia.
  - intros Hcase.
    destruct (Nat.eq_dec (List.length (twos ++ odds)) 1) as [|Hne]; [assumption|].
    exfalso.
    destruct (Nat.le_gt_cases 2 (List.length (twos ++ odds))) as [H2|H2].
    + destruct (product_ge_2 _ Hge H2) as (x & y & Hx & Hy & Hxy).
      rewrite Hprod in Hxy.
      destruct Hcase as [Hp|H48].
      * rewrite Hxy in Hp. exact (composite_not_prime x y Hx Hy Hp).
      * (* 4 and 8 are products, but not of this shape *)
        pose proof (product_odd odds Hodds) as Hoo.
        rewrite product_app in Hprod.
        assert (Hpo : 1 <= product odds).
        { apply product_pos. eapply Forall_impl; [|exact Hge_o]. cbn; intros; lia. }
        assert (Hpt : 1 <= product twos).
        { apply product_pos. eapply Forall_impl; [|exact Hge_t]. cbn; intros; lia. }
        apply odd_iff_mod in Hoo.
        assert (Ho1 : product odds = 1).
        { assert (product odds <= 8) by nia.
          assert (Hc : product odds = 1 \/ product odds = 3 \/ product odds = 5
                       \/ product odds = 7) by dlia.
          destruct Hc as [Hc|[Hc|[Hc|Hc]]]; rewrite Hc in Hprod; lia. }
        assert (Hnil : odds = []).
        { destruct odds as [|o odds]; [reflexivity|]. exfalso.
          inversion Hodds as [|? ? [Hp Hne2] Hrest]; subst.
          pose proof (Z.prime_ge_2 o Hp).
          assert (1 <= product odds).
          { apply product_pos. apply odd_primes_ge_2 in Hrest.
            eapply Forall_impl; [|exact Hrest]. cbn; intros; lia. }
          rewrite product_cons in Ho1. nia. }
        subst odds. rewrite app_nil_r in *. rewrite Ho1 in Hprod.
        destruct Htw as [Ht|[Ht|Ht]]; subst twos.
        -- rewrite product_repeat in Hprod.
           destruct a as [|[|a]]; cbn [List.length repeat] in H2; try lia.
           rewrite !pw_S in Hprod. pose proof (pw_ge_1 8 a ltac:(lia)). lia.
        -- rewrite product_app, product_repeat in Hprod. cbn [product fold_right] in Hprod.
           destruct a as [|a]; [cbn [List.length repeat app] in H2; lia|].
           rewrite pw_S in Hprod. pose proof (pw_ge_1 8 a ltac:(lia)). lia.
        -- rewrite product_cons, product_repeat in Hprod.
           destruct a as [|a]; [cbn [List.length repeat] in H2; lia|].
           rewrite pw_S in Hprod. pose proof (pw_ge_1 8 a ltac:(lia)). lia.
    + assert (Hl0 : List.length (twos ++ odds) = 0%nat) by lia.
      apply length_zero_iff_nil in Hl0. rewrite Hl0 in Hprod. cbn in Hprod.
      subst N. destruct Hcase as [Hp|?]; [|lia].
      pose proof (Z.prime_ge_2 1 Hp). lia.
Qed.

(** [rfftpass::factorize] answers a single factor exactly for the primes
    and 4. *)
Lemma rfft_factorize_single fuel N :
  1 <= N <= 2 ^ 62 -> (2 * Z.to_nat N <= fuel)%nat ->
  exists fs, rfftpass.factorize fuel N = Ok fs /\
             (List.length fs = 1%nat <-> Z.prime N \/ N = 4).
Proof.
  intros HN Hfuel.
  destruct (rfft_factorize_structure fuel N HN Hfuel)
    as (a & twos & odds & E & Htw & Hprod & Hodds & _).
  exists (twos ++ odds). split; [exact E|].
  pose proof (rfft_twos_ge_2 a twos Htw) as Hge_t.
  pose proof (odd_primes_ge_2 odds Hodds) as Hge_o.
  assert (Hge : Forall (fun f => 2 <= f) (twos ++ odds))
    by (apply Forall_app; split; assumption).
  split.
  - intros Hlen. rewrite <- Hprod.
    destruct twos as [|t [|t' twos]]; cbn [app List.length] in Hlen.
    + destruct odds as [|o [|o' odds]]; cbn [List.length] in Hlen; try lia.
      left. inversion Hodds as [|? ? [Hp _] _]; subst.
      cbn [app product fold_right]. rewrite Z.mul_1_r. exact Hp.
    + destruct odds; cbn [List.length] in Hlen; [|lia].
      cbn [app product fold_right]. rewrite Z.mul_1_r.
      destruct Htw as [Ht|Ht].
      * destruct a as [|[|a]]; cbn in Ht; try discriminate.
        injection Ht as ->. right; reflexivity.
      * destruct a; cbn in Ht; [|discriminate].
        injection Ht as ->. left. exact Z.prime_2.
    + lia.
  - intros Hcase.
    destruct (Nat.eq_dec (List.length (twos ++ odds)) 1) as [|Hne]; [assumption|].
    exfalso.
    destruct (Nat.le_gt_cases 2 (List.length (twos ++ odds))) as [H2|H2].
    + destruct (product_ge_2 _ Hge H2) as (x & y & Hx & Hy & Hxy).
      rewrite Hprod in Hxy.
      destruct Hcase as [Hp|H4].
      * rewrite Hxy in Hp. exact (composite_not_prime x y Hx Hy Hp).
      * pose proof (product_odd odds Hodds) as Hoo.
        rewrite product_app in Hprod.
        assert (Hpo : 1 <= product odds).
        { apply product_pos. eapply Forall_impl; [|exact Hge_o]. cbn; intros; lia. }
        assert (Hpt : 1 <= product twos).
        { apply product_pos. eapply Forall_impl; [|exact Hge_t]. cbn; intros; lia. }
        apply odd_iff_mod in Hoo.
        assert (Ho1 : product odds = 1).
        { assert (product odds <= 4) by nia.
          assert (Hc : product odds = 1 \/ product odds = 3) by dlia.
          destruct Hc as [Hc|Hc]; rewrite Hc in Hprod; lia. }
        assert (Hnil : odds = []).
        { destruct odds as [|o odds]; [reflexivity|]. exfalso.
          inversion Hodds as [|? ? [Hp Hne2] Hrest]; subst.
          pose proof (Z.prime_ge_2 o Hp).
          assert (1 <= product odds).
          { apply product_pos. apply odd_primes_ge_2 in Hrest.
            eapply Forall_impl; [|exact Hrest]. cbn; intros; lia. }
          rewrite product_cons in Ho1. nia. }
        subst odds. rewrite app_nil_r in *. rewrite Ho1 in Hprod.
        destruct Htw as [Ht|Ht]; subst twos.
        -- rewrite product_repeat in Hprod.
           destruct a as [|[|a]]; cbn [List.length repeat] in H2; try lia.
           rewrite !pw_S in Hprod. pose proof (pw_ge_1 4 a ltac:(lia)). lia.
        -- rewrite product_cons, product_repeat in Hprod.
           destruct a as [|a]; [cbn [List.length repeat] in H2; lia|].
           rewrite pw_S in Hprod. pose proof (pw_ge_1 4 a ltac:(lia)). lia.
    + assert (Hl0 : List.length (twos ++ odds) = 0%nat) by lia.
      apply length_zero_iff_nil in Hl0. rewrite Hl0 in Hprod. cbn in Hprod.
      subst N. destruct Hcase as [Hp|?]; [|lia].
      pose proof (Z.prime_ge_2 1 Hp). lia.
Qed.

Lemma make_cfftpblue_ok fuel l1 ido ip :
  1 <= ip -> 2 * ip - 1 <= 2 ^ 61 -> (130 <= fuel)%nat ->
  exists ip2,
    make_cfftpblue fuel l1 ido ip = Ok (cfftpblue l1 ido ip ip2) /\
    smallest_good cmplx_primes (2 * ip - 1) ip2.
Proof.
  intros H1 Hmax Hfuel. unfold make_cfftpblue. rewrite wrap_small by lia.
  replace (ip * 2 - 1) with (2 * ip - 1) by lia.
  destruct (good_size_cmplx_smallest fuel (2 * ip - 1) ltac:(lia) ltac:(lia))
    as (ip2 & -> & Hs).
  exists ip2. split; [reflexivity | exact Hs].
Qed.

(** X3.  Without vectorisation [cfftpass::make_pass] succeeds for every
    length [ip >= 1] and fails for [ip = 0]; the node it builds is a
    multipass exactly when [ip] is composite and neither 4 nor 8. *)
Theorem make_pass_multipass vlen fuel l1 ido ip :
  0 <= ip -> 2 * ip <= 2 ^ 61 -> (2 * Z.to_nat ip + 130 <= fuel)%nat ->
  (ip = 0 ->
   make_pass vlen fuel l1 ido ip false
     = Fail (AssertionFailed "no zero-sized FFTs")) /\
  (1 <= ip ->
   exists p,
     make_pass vlen fuel l1 ido ip false = Ok p /\
     (p = cfft_multipass l1 ido ip <->
      1 < ip /\ ~ Z.prime ip /\ ip <> 4 /\ ip <> 8)).
Proof.
  intros H0 Hmax Hfuel. split; [intros ->; reflexivity|]. intros H1.
  unfold make_pass. destruct (Z.leb_spec 1 ip); [|lia].
  cbn [MR_assert bind andb].
  destruct (Z.eqb_spec ip 1) as [->|Hne1].
  { exists cfftp1. split; [reflexivity|]. split; [discriminate | lia]. }
  destruct (cfft_factorize_single fuel ip ltac:(lia) ltac:(lia))
    as (fs & E & Hsingle).
  rewrite E. cbn [bind].
  destruct (Nat.eqb_spec (List.length fs) 1) as [Hlen|Hlen].
  - assert (Hcase : Z.prime ip \/ ip = 4 \/ ip = 8) by (apply Hsingle; exact Hlen).
    assert (Hno : ~ (1 < ip /\ ~ Z.prime ip /\ ip <> 4 /\ ip <> 8)) by tauto.
    repeat match goal with
           | |- context [ip =? ?c] =>
               destruct (Z.eqb_spec ip c);
               [eexists; split; [reflexivity | split; [discriminate | tauto]]|]
           end.
    destruct (Z.ltb_spec ip 110).
    + eexists; split; [reflexivity | split; [discriminate | tauto]].
    + destruct (make_cfftpblue_ok fuel l1 ido ip ltac:(lia) ltac:(lia) ltac:(lia))
        as (ip2 & Eb & _).
      rewrite Eb. eexists; split; [reflexivity | split; [discriminate | tauto]].
  - exists (cfft_multipass l1 ido ip). split; [reflexivity|].
    split; [|reflexivity]. intros _.
    assert (Hcase : ~ (Z.prime ip \/ ip = 4 \/ ip = 8))
      by (intros Hc; apply Hlen, Hsingle; exact Hc).
    repeat split; [lia | tauto | tauto | tauto].
Qed.

Lemma make_pass_multipass_witness :
  (12 = 0 ->
   make_pass 4 400 1 1 12 false
     = Fail (AssertionFailed "no zero-sized FFTs")) /\
  (1 <= 12 ->
   exists p,
     make_pass 4 400 1 1 12 false = Ok p /\
     (p = cfft_multipass 1 1 12 <->
      1 < 12 /\ ~ Z.prime 12 /\ 12 <> 4 /\ 12 <> 8)).
Proof. apply (make_pass_multipass 4 400 1 1 12); lia. Defined.

(** X4.  For a prime length [ip >= 135], [rfftpass::make_pass] builds a real
    Bluestein pass around the complex Bluestein plan of the same length
    when [ido] is odd, and fails with "ido must be odd" when [ido] is
    even. *)
Theorem rfft_make_pass_bluestein vlen k fuel l1 ido ip vectorize :
  vlen = 2 ^ k -> 0 <= k ->
  Z.prime ip -> 135 <= ip -> 2 * ip - 1 <= 2 ^ 61 ->
  (2 * Z.to_nat ip + 130 <= fuel)%nat ->
  exists ip2,
    smallest_good cmplx_primes (2 * ip - 1) ip2 /\
    rfft_make_pass vlen fuel l1 ido ip vectorize =
      if Z.odd ido
      then Ok (rfftpblue l1 ido ip (cfftpblue 1 1 ip ip2))
      else Fail (AssertionFailed "ido must be odd").
Proof.
  intros Hvlen Hk Hp Hge Hmax Hfuel.
  assert (Hne2 : ip <> 2) by lia.
  pose proof (prime_odd ip Hp Hne2) as Hodd.
  destruct (make_cfftpblue_ok fuel 1 1 ip ltac:(lia) Hmax ltac:(lia))
    as (ip2 & Eb & Hs).
  exists ip2. split; [exact Hs|].
  destruct (rfft_factorize_single fuel ip ltac:(lia) ltac:(lia))
    as (fs & E & Hsingle).
  assert (Hlen : List.length fs = 1%nat) by (apply Hsingle; left; exact Hp).
  unfold rfft_make_pass. destruct (Z.leb_spec 1 ip); [|lia].
  cbn [MR_assert bind].
  destruct (Z.eqb_spec ip 1); [lia|].
  rewrite E. cbn [bind]. rewrite Hlen. cbn [Nat.eqb].
  repeat match goal with
         | |- context [ip =? ?c] => destruct (Z.eqb_spec ip c); [lia|]
         end.
  destruct (Z.ltb_spec ip 135); [lia|].
  unfold make_rfftpblue.
  assert (Hc : make_pass vlen fuel 1 1 ip vectorize = Ok (cfftpblue 1 1 ip ip2)).
  { unfold make_pass. destruct (Z.leb_spec 1 ip); [|lia]. cbn [MR_assert bind].
    assert (Hvec : (1 <? vlen) && (Z.land ip (vlen - 1) =? 0) = false).
    { destruct (Z.ltb_spec 1 vlen) as [Hv|Hv]; [|reflexivity].
      subst vlen. rewrite odd_land; [reflexivity | | exact Hodd].
      destruct (Z.eq_dec k 0) as [->|]; [simpl in Hv; lia | lia]. }
    rewrite <- !andb_assoc, Hvec, !andb_false_r.
    destruct (Z.eqb_spec ip 1); [lia|].
    rewrite (factorize_prime fuel ip Hp Hne2) by lia.
    cbn [bind List.length Nat.eqb].
    repeat match goal with
           | |- context [ip =? ?c] => destruct (Z.eqb_spec ip c); [lia|]
           end.
    destruct (Z.ltb_spec ip 110); [lia | exact Eb]. }
  rewrite Hc. cbn [bind]. rewrite !land_1_odd, Hodd. cbn [negb MR_assert bind].
  destruct (Z.odd ido); reflexivity.
Qed.

Lemma rfft_make_pass_bluestein_witness :
  exists ip2,
    smallest_good cmplx_primes (2 * 137 - 1) ip2 /\
    rfft_make_pass 4 500 1 1 137 true =
      if Z.odd 1
      then Ok (rfftpblue 1 1 137 (cfftpblue 1 1 137 ip2))
      else Fail (AssertionFailed "ido must be odd").
Proof.
  apply (rfft_make_pass_bluestein 4 2 500 1 1 137 true).
  - reflexivity.
  - lia.
  - apply is_prime_sound. vm_compute. reflexivity.
  - lia.
  - lia.
  - lia.
Defined.

(** *** The children of a multipass *)

(** Each call gets the product of the factors before it as [l1], and the
    product of the factors after it as [ido]. *)
Lemma pass_args_spec ip :
  0 <= ip < 2 ^ 64 ->
  forall factors l1l,
    1 <= l1l -> Forall (fun f => 1 <= f) factors -> l1l * product factors = ip ->
    forall l1 ido fct,
      In (l1, ido, fct) (pass_args ip l1l factors) ->
      exists before after,
        factors = before ++ fct :: after /\
        l1 = l1l * product before /\ ido = product after.
Proof.
  intros Hip. induction factors as [|f rest IH];
    intros l1l Hl1 Hpos Hprod l1 ido fct Hin; [destruct Hin|].
  apply Forall_cons_iff in Hpos. destruct Hpos as [Hf Hrest].
  rewrite product_cons in Hprod.
  assert (Hpr : 1 <= product rest) by (apply product_pos; exact Hrest).
  assert (Hfl : 1 <= f * l1l <= l1l * (f * product rest)) by nia.
  cbn [pass_args] in Hin. rewrite !wrap_small in Hin by nia.
  destruct Hin as [Heq|Hin].
  - injection Heq as <- <- <-. exists [], rest.
    split; [reflexivity|]. split; [cbn; lia|].
    symmetry. apply Z.div_unique_exact; [lia | lia].
  - destruct (IH (l1l * f) ltac:(nia) Hrest ltac:(lia) l1 ido fct Hin)
      as (before & after & -> & -> & ->).
    exists (f :: before), after. split; [reflexivity|].
    split; [rewrite product_cons; ring | reflexivity].
Qed.

Lemma pass_args_radices ip factors l1l :
  map snd (pass_args ip l1l factors) = factors.
Proof.
  revert l1l. induction factors as [|f rest IH]; intros l1l; [reflexivity|].
  cbn [pass_args map snd]. rewrite IH. reflexivity.
Qed.

Lemma product_insert_desc x l : product (insert_desc x l) = x * product l.
Proof.
  induction l as [|y l IH]; [reflexivity|].
  cbn [insert_desc]. destruct (y <? x); [reflexivity|].
  rewrite !product_cons, IH. ring.
Qed.

Lemma product_sort_desc l : product (sort_desc l) = product l.
Proof.
  induction l as [|x l IH]; [reflexivity|].
  cbn [sort_desc fold_right]. fold (sort_desc l).
  rewrite product_insert_desc, IH. reflexivity.
Qed.

Lemma Forall_insert_desc (P : Z -> Prop) x l :
  P x -> Forall P l -> Forall P (insert_desc x l).
Proof.
  intros Hx. induction 1 as [|y l Hy Hl IH]; cbn [insert_desc].
  - constructor; [exact Hx | constructor].
  - destruct (y <? x); repeat constructor; assumption.
Qed.

Lemma Forall_sort_desc (P : Z -> Prop) l : Forall P l -> Forall P (sort_desc l).
Proof.
  induction 1 as [|x l Hx _ IH]; [constructor|].
  cbn [sort_desc fold_right]. apply Forall_insert_desc; assumption.
Qed.

(** The greedy distribution keeps the product, and never lets one packet
    exceed the other by more than the largest factor. *)
Lemma add_to_packet_fold F :
  forall l p0 p1,
    1 <= p0 -> 1 <= p1 -> Forall (fun f => 1 <= f <= F) l ->
    p0 * p1 * product l < 2 ^ 64 ->
    p0 <= p1 * F -> p1 <= p0 * F ->
    exists q0 q1,
      fold_left add_to_packet l (p0, p1) = (q0, q1) /\
      q0 * q1 = p0 * p1 * product l /\ 1 <= q0 /\ 1 <= q1 /\
      q0 <= q1 * F /\ q1 <= q0 * F.
Proof.
  induction l as [|f l IH]; intros p0 p1 H0 H1 Hl Hmax Hb0 Hb1.
  - exists p0, p1. cbn. repeat split; try assumption; lia.
  - inversion Hl as [|? ? Hf Hrest]; subst. rewrite product_cons in Hmax.
    assert (Hpl : 1 <= product l).
    { apply product_pos. eapply Forall_impl; [|exact Hrest]. cbn; intros; lia. }
    cbn [fold_left add_to_packet].
    destruct (Z.ltb_spec p1 p0) as [Hlt|Hge].
    + rewrite wrap_small by nia.
      destruct (IH p0 (p1 * f)) as (q0 & q1 & E & Hq & Hq0 & Hq1 & Hc0 & Hc1);
        try assumption; try nia.
      exists q0, q1. rewrite E, Hq, product_cons.
      repeat split; try assumption; ring.
    + rewrite wrap_small by nia.
      destruct (IH (p0 * f) p1) as (q0 & q1 & E & Hq & Hq0 & Hq1 & Hc0 & Hc1);
        try assumption; try nia.
      exists q0, q1. rewrite E, Hq, product_cons.
      repeat split; try assumption; ring.
Qed.

Lemma in_divides_prod f l : In f l -> (f | product l).
Proof.
  induction l as [|a l IH]; intros Hin; [destruct Hin|].
  rewrite product_cons. destruct Hin as [->|Hin].
  - exists (product l). ring.
  - apply Z.divide_mul_r. apply IH. exact Hin.
Qed.

(** X5.  A vectorised [cfft_multipass] of a length above 1000 has two
    children whose radices multiply to [ip]; neither radix exceeds the
    other by more than a factor [F], for any bound [F] on the prime
    factors of [ip]. *)
Theorem multipass_packets fuel ip F :
  1000 < ip <= 2 ^ 62 -> (2 * Z.to_nat ip <= fuel)%nat ->
  (forall p, Z.prime p -> (p | ip) -> p <= F) ->
  exists p0 p1,
    multipass_factors fuel ip true = Ok [p0; p1] /\
    p0 * p1 = ip /\ 1 <= p0 /\ 1 <= p1 /\ p0 <= p1 * F /\ p1 <= p0 * F.
Proof.
  intros Hip Hfuel HF. unfold multipass_factors.
  destruct (Z.leb_spec ip 1000); [lia|].
  destruct (prime_factors_structure fuel ip ltac:(lia) Hfuel)
    as (fs & E & Hprod & Hprime & _).
  rewrite E. cbn [bind].
  assert (HF2 : 2 <= F).
  { destruct (prime_divisor_exists ip ltac:(lia)) as (p & Hp & Hd).
    pose proof (Z.prime_ge_2 p Hp). specialize (HF p Hp Hd). lia. }
  assert (Hfs : Forall (fun f => 1 <= f <= F) fs).
  { rewrite Forall_forall in *. intros f Hf.
    pose proof (Z.prime_ge_2 f (Hprime f Hf)).
    split; [lia|]. apply HF; [apply Hprime; exact Hf|].
    rewrite <- Hprod. apply in_divides_prod. exact Hf. }
  destruct (add_to_packet_fold F (sort_desc fs) 1 1) as
    (q0 & q1 & Ef & Hq & Hq0 & Hq1 & Hc0 & Hc1); try lia.
  - apply Forall_sort_desc. exact Hfs.
  - rewrite product_sort_desc, Hprod. lia.
  - rewrite Ef. exists q0, q1. split; [reflexivity|].
    rewrite product_sort_desc, Hprod in Hq. repeat split; try assumption; lia.
Qed.

Lemma multipass_packets_witness :
  exists p0 p1,
    multipass_factors 3000 1001 true = Ok [p0; p1] /\
    p0 * p1 = 1001 /\ 1 <= p0 /\ 1 <= p1 /\ p0 <= p1 * 1001 /\ p1 <= p0 * 1001.
Proof.
  apply (multipass_packets 3000 1001 1001).
  - lia.
  - lia.
  - intros p Hp Hd. apply Z.divide_pos_le; [lia | exact Hd].
Defined.

(** X6.  Every [make_pass] call of the [cfft_multipass] constructor gets
    arguments with [l1 * ip' * ido = ip], where [ip'] is the child's
    radix; the radices multiply to [ip]. *)
Theorem cfft_multipass_children_spec fuel ip vectorize :
  1 <= ip <= 2 ^ 62 -> (2 * Z.to_nat ip <= fuel)%nat ->
  exists args,
    cfft_multipass_children fuel ip vectorize = Ok args /\
    product (map snd args) = ip /\
    forall l1 ido fct, In (l1, ido, fct) args -> l1 * fct * ido = ip.
Proof.
  intros Hip Hfuel. unfold cfft_multipass_children.
  assert (Hfac : exists fs, multipass_factors fuel ip vectorize = Ok fs /\
                            product fs = ip /\ Forall (fun f => 1 <= f) fs).
  { unfold multipass_factors.
    destruct (ip <=? (if vectorize then 1000 else SizeT.max)) eqn:Hlim.
    - destruct (cfft_factorize_structure fuel ip Hip Hfuel)
        as (a & twos & odds & E & Htw & Hprod & Hodds & _).
      exists (twos ++ odds). split; [exact E|]. split; [exact Hprod|].
      apply Forall_app. split.
      + eapply Forall_impl; [|exact (cfft_twos_ge_2 a twos Htw)]. cbn; intros; lia.
      + eapply Forall_impl; [|exact (odd_primes_ge_2 odds Hodds)]. cbn; intros; lia.
    - destruct (prime_factors_structure fuel ip Hip Hfuel)
        as (fs & E & Hprod & Hprime & _).
      rewrite E. cbn [bind].
      assert (Hfs : Forall (fun f => 1 <= f <= ip) fs).
      { rewrite Forall_forall in *. intros f Hf.
        pose proof (Z.prime_ge_2 f (Hprime f Hf)). split; [lia|].
        apply Z.divide_pos_le; [lia|]. rewrite <- Hprod.
        apply in_divides_prod. exact Hf. }
      destruct (add_to_packet_fold ip (sort_desc fs) 1 1) as
        (q0 & q1 & Ef & Hq & Hq0 & Hq1 & _); try lia.
      + apply Forall_sort_desc. exact Hfs.
      + rewrite product_sort_desc, Hprod. lia.
      + rewrite Ef. exists [q0; q1]. split; [reflexivity|].
        rewrite product_sort_desc, Hprod in Hq.
        split; [cbn; lia|]. repeat constructor; assumption. }
  destruct Hfac as (fs & E & Hprod & Hpos).
  rewrite E. cbn [bind]. exists (pass_args ip 1 fs).
  split; [reflexivity|]. split; [rewrite pass_args_radices; exact Hprod|].
  intros l1 ido fct Hin.
  destruct (pass_args_spec ip ltac:(lia) fs 1 ltac:(lia) Hpos ltac:(lia)
              l1 ido fct Hin) as (before & after & Hfs & -> & ->).
  rewrite <- Hprod, Hfs, product_app, product_cons. ring.
Qed.

Lemma cfft_multipass_children_spec_witness :
  exists args,
    cfft_multipass_children 800 360 false = Ok args /\
    product (map snd args) = 360 /\
    forall l1 ido fct, In (l1, ido, fct) args -> l1 * fct * ido = 360.
Proof. apply (cfft_multipass_children_spec 800 360 false); lia. Defined.

(** X7.  Every [make_pass] call of the [rfft_multipass] constructor gets
    arguments with [l1 * ip' * ido = ip], and a child of odd radix gets
    an odd [ido]: the assertion "ido must be odd" of a real Bluestein
    child cannot fail. *)
Theorem rfft_multipass_children_spec fuel ip :
  1 <= ip <= 2 ^ 62 -> (2 * Z.to_nat ip <= fuel)%nat ->
  exists args,
    rfft_multipass_children fuel ip = Ok args /\
    product (map snd args) = ip /\
    forall l1 ido fct,
      In (l1, ido, fct) args ->
      l1 * fct * ido = ip /\ (Z.odd fct = true -> Z.odd ido = true).
Proof.
  intros Hip Hfuel. unfold rfft_multipass_children.
  destruct (rfft_factorize_structure fuel ip Hip Hfuel)
    as (a & twos & odds & E & Htw & Hprod & Hodds & _).
  rewrite E. cbn [bind]. exists (pass_args ip 1 (twos ++ odds)).
  split; [reflexivity|]. split; [rewrite pass_args_radices; exact Hprod|].
  assert (Hpos : Forall (fun f => 1 <= f) (twos ++ odds)).
  { apply Forall_app. split.
    - eapply Forall_impl; [|exact (rfft_twos_ge_2 a twos Htw)]. cbn; intros; lia.
    - eapply Forall_impl; [|exact (odd_primes_ge_2 odds Hodds)]. cbn; intros; lia. }
  assert (Heven : Forall (fun f => Z.odd f = false) twos).
  { assert (H4 : forall k, Forall (fun f => Z.odd f = false) (repeat 4 k)).
    { induction k; constructor; [reflexivity | assumption]. }
    destruct Htw as [->| ->]; [apply H4 | constructor; [reflexivity | apply H4]]. }
  intros l1 ido fct Hin.
  destruct (pass_args_spec ip ltac:(lia) _ 1 ltac:(lia) Hpos ltac:(lia)
              l1 ido fct Hin) as (before & after & Hfs & -> & ->).
  split; [rewrite <- Hprod, Hfs, product_app, product_cons; ring|].
  intros Hodd.
  (* an odd radix sits among the odd primes, and so does all that follows *)
  assert (Hafter : exists pre, odds = pre ++ after).
  { clear - Hfs Heven Hodd. revert before Hfs.
    induction twos as [|t twos IH]; intros before Hfs.
    - exists (before ++ [fct]). rewrite <- app_assoc. exact Hfs.
    - inversion Heven as [|? ? Ht Hrest]; subst.
      destruct before as [|b before]; cbn [app] in Hfs.
      + injection Hfs as -> _. rewrite Hodd in Ht. discriminate.
      + injection Hfs as _ Hfs. apply (IH Hrest before Hfs). }
  destruct Hafter as (pre & ->).
  apply product_odd. apply Forall_app in Hodds. tauto.
Qed.

Lemma rfft_multipass_children_spec_witness :
  exists args,
    rfft_multipass_children 800 360 = Ok args /\
    product (map snd args) = 360 /\
    forall l1 ido fct,
      In (l1, ido, fct) args ->
      l1 * fct * ido = 360 /\ (Z.odd fct = true -> Z.odd ido = true).
Proof. apply (rfft_multipass_children_spec 800 360); lia. Defined.

(** X8.  [util1d::prime_factors] returns the prime factorisation of [N] in
    ascending order. *)
Theorem prime_factors_spec fuel N :
  1 <= N <= 2 ^ 62 -> (2 * Z.to_nat N <= fuel)%nat ->
  exists fs,
    prime_factors fuel N = Ok fs /\
    product fs = N /\ Forall Z.prime fs /\ StronglySorted Z.le fs.
Proof. exact (prime_factors_structure fuel N). Qed.

Lemma prime_factors_spec_witness :
  exists fs,
    prime_factors 800 360 = Ok fs /\
    product fs = 360 /\ Forall Z.prime fs /\ StronglySorted Z.le fs.
Proof. apply (prime_factors_spec 800 360); lia. Defined.

(** X9.  [cfftpass::factorize] returns factors whose product is [N]: first
    the powers of two, as eights followed by at most one 4 or preceded
    by one 2, then the odd prime factors in ascending order. *)
Theorem cfft_factorize_spec fuel N :
  1 <= N <= 2 ^ 62 -> (2 * Z.to_nat N <= fuel)%nat ->
  exists a twos odds,
    factorize fuel N = Ok (twos ++ odds) /\
    cfft_twos a twos /\
    product (twos ++ odds) = N /\
    Forall (fun f => Z.prime f /\ f <> 2) odds /\
    StronglySorted Z.le odds.
Proof. exact (cfft_factorize_structure fuel N). Qed.

Lemma cfft_factorize_spec_witness :
  exists a twos odds,
    factorize 800 360 = Ok (twos ++ odds) /\
    cfft_twos a twos /\
    product (twos ++ odds) = 360 /\
    Forall (fun f => Z.prime f /\ f <> 2) odds /\
    StronglySorted Z.le odds.
Proof. apply (cfft_factorize_spec 800 360); lia. Defined.

(** X10.  [rfftpass::factorize] returns factors whose product is [N]: fours,
    preceded by one 2 when the power of two is odd, then the odd prime
    factors in ascending order. *)
Theorem rfft_factorize_spec fuel N :
  1 <= N <= 2 ^ 62 -> (2 * Z.to_nat N <= fuel)%nat ->
  exists a twos odds,
    rfftpass.factorize fuel N = Ok (twos ++ odds) /\
    rfft_twos a twos /\
    product (twos ++ odds) = N /\
    Forall (fun f => Z.prime f /\ f <> 2) odds /\
    StronglySorted Z.le odds.
Proof. exact (rfft_factorize_structure fuel N). Qed.

Lemma rfft_factorize_spec_witness :
  exists a twos odds,
    rfftpass.factorize 800 360 = Ok (twos ++ odds) /\
    rfft_twos a twos /\
    product (twos ++ odds) = 360 /\
    Forall (fun f => Z.prime f /\ f <> 2) odds /\
    StronglySorted Z.le odds.
Proof. apply (rfft_factorize_spec 800 360); lia. Defined.

(** *** The Bluestein tables *)

Lemma store_length {A} i (v : A) a : List.length (store i v a) = List.length a.
Proof.
  revert i. induction a as [|h t IH]; intros [|i]; cbn; auto.
Qed.

Lemma nth_store {A} i j (v d : A) a :
  nth j (store i v a) d =
  if ((j =? i) && (i <? List.length a))%nat then v else nth j a d.
Proof.
  revert i j. induction a as [|h t IH]; intros i j.
  - cbn [List.length store].
    replace (i <? 0)%nat with false by (symmetry; apply Nat.ltb_ge; lia).
    rewrite andb_false_r. destruct i; reflexivity.
  - destruct i as [|i], j as [|j]; cbn [store nth]; try reflexivity.
    rewrite IH. reflexivity.
Qed.

Lemma zrange_S lo n :
  zrange lo (lo + Z.of_nat (S n)) = zrange lo (lo + Z.of_nat n) ++ [lo + Z.of_nat n].
Proof.
  unfold zrange.
  replace (Z.to_nat (lo + Z.of_nat (S n) - lo)) with (S n) by lia.
  replace (Z.to_nat (lo + Z.of_nat n - lo)) with n by lia.
  rewrite seq_S, map_app. reflexivity.
Qed.

Lemma zrange_nil lo hi : hi <= lo -> zrange lo hi = [].
Proof. intros H. unfold zrange. replace (Z.to_nat (hi - lo)) with O by lia. reflexivity. Qed.

Lemma zrange_length lo hi : List.length (zrange lo hi) = Z.to_nat (hi - lo).
Proof. unfold zrange. rewrite length_map, length_seq. reflexivity. Qed.

(** After [n] rounds the running index is [n^2 mod 2*ip]. *)
Lemma chirp_loop ip :
  1 <= ip <= 2 ^ 61 ->
  forall n : nat,
    Z.of_nat n < ip ->
    fold_left (chirp_step ip) (zrange 1 (1 + Z.of_nat n)) (0, []) =
    ((Z.of_nat n * Z.of_nat n) mod (2 * ip),
     map (fun m => (m * m) mod (2 * ip)) (zrange 1 (1 + Z.of_nat n))).
Proof.
  intros Hip. induction n as [|n IH]; intros Hn.
  - rewrite zrange_nil by lia. cbn [fold_left map].
    change (Z.of_nat 0) with 0. rewrite Z.mul_0_l, Z.mod_0_l by lia. reflexivity.
  - rewrite zrange_S, fold_left_app, IH by lia. cbn [fold_left chirp_step].
    rewrite map_app. cbn [map].
    set (c := (Z.of_nat n * Z.of_nat n) mod (2 * ip)).
    assert (Hc : 0 <= c < 2 * ip) by (apply Z.mod_pos_bound; lia).
    assert (Hnext : ((1 + Z.of_nat n) * (1 + Z.of_nat n)) mod (2 * ip)
                    = (c + (2 * Z.of_nat n + 1)) mod (2 * ip)).
    { unfold c. rewrite Zplus_mod_idemp_l. f_equal. ring. }
    rewrite (wrap_small (2 * (1 + Z.of_nat n))) by lia.
    rewrite (wrap_small (2 * (1 + Z.of_nat n) - 1)) by lia.
    rewrite (wrap_small (c + _)) by lia.
    rewrite (wrap_small (2 * ip)) by lia.
    replace (Z.of_nat (S n)) with (1 + Z.of_nat n) by lia.
    replace (c + (2 * (1 + Z.of_nat n) - 1)) with (c + (2 * Z.of_nat n + 1)) by lia.
    rewrite Hnext.
    destruct (Z.leb_spec (2 * ip) (c + (2 * Z.of_nat n + 1))) as [Hge|Hlt].
    + rewrite wrap_small by lia.
      assert (E : (c + (2 * Z.of_nat n + 1)) mod (2 * ip)
                  = c + (2 * Z.of_nat n + 1) - 2 * ip).
      { symmetry. apply (Z.mod_unique _ _ 1); lia. }
      rewrite E. reflexivity.
    + rewrite Z.mod_small by lia. reflexivity.
Qed.

(** X11.  The chirp [bk[m]] of a Bluestein pass is read from the table of
    [2*ip]-th roots of unity at index [m^2 mod 2*ip]. *)
Theorem chirp_indices_square ip m :
  1 <= ip <= 2 ^ 61 -> 1 <= m < ip ->
  List.length (chirp_indices ip) = Z.to_nat (ip - 1) /\
  nth (Z.to_nat (m - 1)) (chirp_indices ip) 0 = (m * m) mod (2 * ip).
Proof.
  intros Hip Hm. unfold chirp_indices.
  assert (E : zrange 1 ip = zrange 1 (1 + Z.of_nat (Z.to_nat (ip - 1))))
    by (f_equal; lia).
  rewrite E, (chirp_loop ip Hip) by lia. cbn [snd].
  rewrite length_map, zrange_length. split; [lia|].
  unfold zrange. rewrite map_map.
  set (g := fun x : nat => (1 + Z.of_nat x) * (1 + Z.of_nat x) mod (2 * ip)).
  rewrite (nth_indep _ 0 (g O)) by (rewrite length_map, length_seq; lia).
  rewrite (map_nth g). rewrite seq_nth by lia. unfold g.
  replace (1 + Z.of_nat (0 + Z.to_nat (m - 1))) with m by lia. reflexivity.
Qed.

Lemma chirp_indices_square_witness :
  List.length (chirp_indices 7) = Z.to_nat (7 - 1) /\
  nth (Z.to_nat (5 - 1)) (chirp_indices 7) 0 = (5 * 5) mod (2 * 7).
Proof. apply (chirp_indices_square 7 5); lia. Defined.

Section TbkfCorrect.

Variable T : Type.
Variable zero : T.
Variable bk_xn2 : Z -> T.
Variables ip ip2 : Z.
Hypothesis ip_pos : 1 <= ip.
Hypothesis ip2_big : 2 * ip - 1 <= ip2 < 2 ^ 64.

Let a0 : list (option T) :=
  store 0 (Some (bk_xn2 0)) (repeat None (Z.to_nat ip2)).

Let mirror (a : list (option T)) (m : Z) : list (option T) :=
  store (Z.to_nat m) (Some (bk_xn2 m))
    (store (Z.to_nat (wrap (ip2 - m))) (Some (bk_xn2 m)) a).

Let zero_fill (a : list (option T)) (m : Z) : list (option T) :=
  store (Z.to_nat m) (Some zero) a.

Lemma tbkf_mirror_loop (n : nat) :
  Z.of_nat n < ip ->
  let a := fold_left mirror (zrange 1 (1 + Z.of_nat n)) a0 in
  List.length a = Z.to_nat ip2 /\
  forall k, 0 <= k < ip2 ->
    nth (Z.to_nat k) a None =
    if k <=? Z.of_nat n then Some (bk_xn2 k)
    else if ip2 - Z.of_nat n <=? k then Some (bk_xn2 (ip2 - k))
    else None.
Proof.
  induction n as [|n IH]; intros Hn; cbv zeta.
  - rewrite zrange_nil by lia. cbn [fold_left]. unfold a0.
    rewrite store_length, repeat_length. split; [reflexivity|].
    intros k Hk. rewrite nth_store, repeat_length.
    change (Z.of_nat 0) with 0.
    destruct (Nat.eqb_spec (Z.to_nat k) 0) as [E|E]; cbn [andb].
    + destruct (Nat.ltb_spec 0 (Z.to_nat ip2)); [|lia].
      destruct (Z.leb_spec k 0); [|lia]. replace k with 0 by lia. reflexivity.
    + destruct (Z.leb_spec k 0); [lia|].
      destruct (Z.leb_spec (ip2 - 0) k); [lia|].
      apply nth_repeat.
  - specialize (IH ltac:(lia)). cbv zeta in IH. destruct IH as [Hlen IH].
    rewrite zrange_S, fold_left_app. cbn [fold_left].
    set (a := fold_left mirror (zrange 1 (1 + Z.of_nat n)) a0) in *.
    unfold mirror. rewrite wrap_small by lia.
    rewrite !store_length. split; [exact Hlen|].
    intros k Hk. rewrite !nth_store, store_length, Hlen, (IH k Hk).
    replace (Z.of_nat (S n)) with (1 + Z.of_nat n) by lia.
    destruct (Nat.eqb_spec (Z.to_nat k) (Z.to_nat (1 + Z.of_nat n))) as [E|E];
      cbn [andb].
    + destruct (Nat.ltb_spec (Z.to_nat (1 + Z.of_nat n)) (Z.to_nat ip2)); [|lia].
      destruct (Z.leb_spec k (1 + Z.of_nat n)); [|lia].
      replace k with (1 + Z.of_nat n) by lia. reflexivity.
    + destruct (Nat.eqb_spec (Z.to_nat k)
                  (Z.to_nat (ip2 - (1 + Z.of_nat n)))) as [E'|E']; cbn [andb].
      * destruct (Nat.ltb_spec (Z.to_nat (ip2 - (1 + Z.of_nat n)))
                    (Z.to_nat ip2)); [|lia].
        destruct (Z.leb_spec k (1 + Z.of_nat n)); [lia|].
        destruct (Z.leb_spec (ip2 - (1 + Z.of_nat n)) k); [|lia].
        replace (ip2 - k) with (1 + Z.of_nat n) by lia. reflexivity.
      * destruct (Z.leb_spec k (Z.of_nat n)), (Z.leb_spec k (1 + Z.of_nat n));
          try lia; try reflexivity.
        destruct (Z.leb_spec (ip2 - Z.of_nat n) k),
                 (Z.leb_spec (ip2 - (1 + Z.of_nat n)) k);
          try lia; reflexivity.
Qed.

Lemma tbkf_clear_loop (a1 : list (option T)) (n : nat) :
  List.length a1 = Z.to_nat ip2 ->
  ip + Z.of_nat n <= ip2 ->
  let a := fold_left zero_fill (zrange ip (ip + Z.of_nat n)) a1 in
  List.length a = Z.to_nat ip2 /\
  forall k, 0 <= k < ip2 ->
    nth (Z.to_nat k) a None =
    if (ip <=? k) && (k <? ip + Z.of_nat n) then Some zero
    else nth (Z.to_nat k) a1 None.
Proof.
  intros Hlen1. induction n as [|n IH]; intros Hn; cbv zeta.
  - rewrite zrange_nil by lia. cbn [fold_left]. split; [exact Hlen1|].
    intros k Hk.
    destruct (Z.leb_spec ip k), (Z.ltb_spec k (ip + Z.of_nat 0));
      cbn [andb]; try reflexivity; lia.
  - specialize (IH ltac:(lia)). cbv zeta in IH. destruct IH as [Hlen IH].
    rewrite zrange_S, fold_left_app. cbn [fold_left].
    set (a := fold_left zero_fill (zrange ip (ip + Z.of_nat n)) a1) in *.
    unfold zero_fill. rewrite store_length. split; [exact Hlen|].
    intros k Hk. rewrite nth_store, Hlen, (IH k Hk).
    destruct (Nat.eqb_spec (Z.to_nat k) (Z.to_nat (ip + Z.of_nat n))) as [E|E];
      cbn [andb].
    + destruct (Nat.ltb_spec (Z.to_nat (ip + Z.of_nat n)) (Z.to_nat ip2)); [|lia].
      destruct (Z.leb_spec ip k), (Z.ltb_spec k (ip + Z.of_nat (S n)));
        cbn [andb]; try reflexivity; lia.
    + destruct (Z.leb_spec ip k), (Z.ltb_spec k (ip + Z.of_nat n)),
               (Z.ltb_spec k (ip + Z.of_nat (S n)));
        cbn [andb]; try reflexivity; lia.
Qed.

Lemma tbkf_content :
  List.length (tbkf T zero bk_xn2 ip ip2) = Z.to_nat ip2 /\
  forall k, 0 <= k < ip2 ->
    nth (Z.to_nat k) (tbkf T zero bk_xn2 ip ip2) None =
    Some (if k <? ip then bk_xn2 k
          else if ip2 - ip <? k then bk_xn2 (ip2 - k)
          else zero).
Proof.
  unfold tbkf. rewrite (wrap_small (ip2 - ip)) by lia.
  change (fold_left _ (zrange 1 ip) _) with (fold_left mirror (zrange 1 ip) a0).
  change (fold_left _ (zrange ip (ip2 - ip + 1)) ?a)
    with (fold_left zero_fill (zrange ip (ip2 - ip + 1)) a).
  pose proof (tbkf_mirror_loop (Z.to_nat (ip - 1)) ltac:(lia)) as H1.
  cbv zeta in H1.
  replace (1 + Z.of_nat (Z.to_nat (ip - 1))) with ip in H1 by lia.
  destruct H1 as [Hlen1 H1].
  pose proof (tbkf_clear_loop _ (Z.to_nat (ip2 - ip + 1 - ip)) Hlen1 ltac:(lia))
    as H2.
  cbv zeta in H2.
  replace (ip + Z.of_nat (Z.to_nat (ip2 - ip + 1 - ip))) with (ip2 - ip + 1)
    in H2 by lia.
  destruct H2 as [Hlen2 H2]. split; [exact Hlen2|].
  intros k Hk. rewrite (H2 k Hk), (H1 k Hk).
  replace (Z.of_nat (Z.to_nat (ip - 1))) with (ip - 1) by lia.
  destruct (Z.leb_spec ip k), (Z.ltb_spec k (ip2 - ip + 1)), (Z.ltb_spec k ip),
           (Z.leb_spec k (ip - 1)), (Z.ltb_spec (ip2 - ip) k),
           (Z.leb_spec (ip2 - (ip - 1)) k);
    cbn [andb]; try reflexivity; lia.
Qed.

End TbkfCorrect.

(** X12.  When the sub-transform length [ip2] is at least [2*ip - 1], every
    element of the zero-padded chirp [tbkf] is written before the
    sub-plan reads it, and the array is symmetric:
    [tbkf[k] = tbkf[ip2-k]] for [0 < k < ip2]. *)
Theorem tbkf_initialised_symmetric (T : Type) (zero : T) (bk_xn2 : Z -> T) ip ip2 :
  1 <= ip -> 2 * ip - 1 <= ip2 < 2 ^ 64 ->
  List.length (tbkf T zero bk_xn2 ip ip2) = Z.to_nat ip2 /\
  (forall k, 0 <= k < ip2 ->
     nth (Z.to_nat k) (tbkf T zero bk_xn2 ip ip2) None =
     Some (if k <? ip then bk_xn2 k
           else if ip2 - ip <? k then bk_xn2 (ip2 - k)
           else zero)) /\
  (forall k, 0 < k < ip2 ->
     nth (Z.to_nat k) (tbkf T zero bk_xn2 ip ip2) None =
     nth (Z.to_nat (ip2 - k)) (tbkf T zero bk_xn2 ip ip2) None).
Proof.
  intros Hip Hip2.
  destruct (tbkf_content T zero bk_xn2 ip ip2 Hip Hip2) as [Hlen H].
  split; [exact Hlen|]. split; [exact H|].
  intros k Hk. rewrite (H k) by lia. rewrite (H (ip2 - k)) by lia.
  replace (ip2 - (ip2 - k)) with k by lia.
  destruct (Z.ltb_spec k ip), (Z.ltb_spec (ip2 - ip) k),
           (Z.ltb_spec (ip2 - k) ip), (Z.ltb_spec (ip2 - ip) (ip2 - k));
    try reflexivity; lia.
Qed.

Lemma tbkf_initialised_symmetric_witness :
  List.length (tbkf Z 0 (fun m => m + 1) 3 6) = Z.to_nat 6 /\
  (forall k, 0 <= k < 6 ->
     nth (Z.to_nat k) (tbkf Z 0 (fun m => m + 1) 3 6) None =
     Some (if k <? 3 then (fun m => m + 1) k
           else if 6 - 3 <? k then (fun m => m + 1) (6 - k)
           else 0)) /\
  (forall k, 0 < k < 6 ->
     nth (Z.to_nat k) (tbkf Z 0 (fun m => m + 1) 3 6) None =
     nth (Z.to_nat (6 - k)) (tbkf Z 0 (fun m => m + 1) 3 6) None).
Proof. apply (tbkf_initialised_symmetric Z 0 (fun m => m + 1) 3 6); lia. Defined.

(** *** The axes of a call *)

Lemma normalize_axes_spec ndim tmp axes :
  0 <= ndim ->
  (normalize_axes ndim tmp = Ok axes <->
   Forall (fun a => - ndim <= a < ndim) tmp /\
   axes = map (fun a => Z.to_nat (a mod ndim)) tmp).
Proof.
  intros Hnd. revert axes. induction tmp as [|sz rest IH]; intros axes.
  - cbn. split.
    + intros H. injection H as <-. split; [constructor | reflexivity].
    + intros [_ ->]. reflexivity.
  - cbn [normalize_axes map].
    assert (Hmod : - ndim <= sz < ndim ->
                   (if sz <? 0 then sz + ndim else sz) = sz mod ndim).
    { intros Hr. destruct (Z.ltb_spec sz 0).
      - apply (Z.mod_unique _ _ (-1)); lia.
      - symmetry. apply Z.mod_small. lia. }
    destruct (Z.leb_spec ndim (if sz <? 0 then sz + ndim else sz)) as [Hge|Hlt];
      cbn [orb].
    + split; [discriminate|]. intros [HF _]. exfalso.
      apply Forall_cons_iff in HF. destruct HF as [Hr _].
      destruct (Z.ltb_spec sz 0); lia.
    + destruct (Z.ltb_spec (if sz <? 0 then sz + ndim else sz) 0) as [Hneg|Hpos].
      * split; [discriminate|]. intros [HF _]. exfalso.
        apply Forall_cons_iff in HF. destruct HF as [Hr _].
        destruct (Z.ltb_spec sz 0); lia.
      * assert (Hr : - ndim <= sz < ndim) by (destruct (Z.ltb_spec sz 0); lia).
        rewrite (Hmod Hr).
        destruct (normalize_axes ndim rest) as [rest'| e |] eqn:E; cbn [bind].
        -- destruct (IH rest') as [IH1 _]. destruct (IH1 eq_refl) as [HF ->].
           split.
           ++ intros H. injection H as <-. split; [|reflexivity].
              constructor; assumption.
           ++ intros [_ ->]. reflexivity.
        -- split; [discriminate|]. intros [HF ->]. exfalso.
           apply Forall_cons_iff in HF. destruct HF as [_ HF].
           destruct (IH (map (fun a => Z.to_nat (a mod ndim)) rest)) as [_ IH2].
           specialize (IH2 (conj HF eq_refl)). discriminate.
        -- split; [discriminate|]. intros [HF ->]. exfalso.
           apply Forall_cons_iff in HF. destruct HF as [_ HF].
           destruct (IH (map (fun a => Z.to_nat (a mod ndim)) rest)) as [_ IH2].
           specialize (IH2 (conj HF eq_refl)). discriminate.
Qed.

Lemma makeaxes_iff ndim axes_ axes :
  makeaxes ndim axes_ = Ok axes <->
  match axes_ with
  | None => axes = seq 0 ndim
  | Some tmp =>
      (1 <= List.length tmp <= ndim)%nat /\
      Forall (fun a => - Z.of_nat ndim <= a < Z.of_nat ndim) tmp /\
      axes = map (fun a => Z.to_nat (a mod Z.of_nat ndim)) tmp
  end.
Proof.
  unfold makeaxes. destruct axes_ as [tmp|].
  - destruct (Nat.ltb_spec ndim (List.length tmp)) as [Hlong|Hle]; cbn [orb].
    + split; [discriminate | lia].
    + destruct (Nat.eqb_spec (List.length tmp) 0) as [H0|H0].
      * split; [discriminate | lia].
      * rewrite normalize_axes_spec by lia. split.
        -- intros [HF ->]. split; [lia|]. split; [exact HF | reflexivity].
        -- intros (_ & HF & ->). split; [exact HF | reflexivity].
  - split; [intros H; injection H as <-; reflexivity | intros ->; reflexivity].
Qed.

Lemma makeaxes_below ndim axes_ axes :
  makeaxes ndim axes_ = Ok axes -> Forall (fun a => (a < ndim)%nat) axes.
Proof.
  intros H. apply makeaxes_iff in H. destruct axes_ as [tmp|].
  - destruct H as (Hlen & HF & ->). rewrite Forall_map.
    eapply Forall_impl; [|exact HF]. cbn. intros a Ha.
    pose proof (Z.mod_pos_bound a (Z.of_nat ndim) ltac:(lia)). lia.
  - subst axes. apply Forall_forall. intros a Ha. apply in_seq in Ha. lia.
Qed.

(** X13.  [makeaxes] accepts a list of axes exactly when it has between 1
    and [ndim] entries, all in [-ndim, ndim); the answer is each entry
    modulo [ndim] (negative axes count from the end; a repeated axis is
    not rejected).  Without a list the axes are [0, ..., ndim-1].  All
    axes returned are below [ndim]. *)
Theorem makeaxes_spec ndim axes_ axes :
  (makeaxes ndim axes_ = Ok axes <->
   match axes_ with
   | None => axes = seq 0 ndim
   | Some tmp =>
       (1 <= List.length tmp <= ndim)%nat /\
       Forall (fun a => - Z.of_nat ndim <= a < Z.of_nat ndim) tmp /\
       axes = map (fun a => Z.to_nat (a mod Z.of_nat ndim)) tmp
   end) /\
  (makeaxes ndim axes_ = Ok axes -> Forall (fun a => (a < ndim)%nat) axes).
Proof.
  split; [apply makeaxes_iff | apply makeaxes_below].
Qed.

(** *** [r2c] followed by [c2r] *)

Lemma set_nth_set_nth i x y l : set_nth i x (set_nth i y l) = set_nth i x l.
Proof.
  revert i. induction l as [|h t IH]; intros [|i]; cbn; try reflexivity.
  rewrite IH. reflexivity.
Qed.

Lemma set_nth_same i l : set_nth i (nth i l 0) l = l.
Proof.
  revert i. induction l as [|h t IH]; intros [|i]; cbn; try reflexivity.
  rewrite IH. reflexivity.
Qed.

Lemma nth_set_nth_same i x l :
  (i < List.length l)%nat -> nth i (set_nth i x l) 0 = x.
Proof.
  intros Hi. rewrite nth_set_nth.
  rewrite Nat.eqb_refl. destruct (Nat.ltb_spec i (List.length l)); [reflexivity | lia].
Qed.

(** X14.  [c2r] undoes the shape change of [r2c]: called on the output
    shape of [r2c] with the same axes and [inorm] and with [lastsize]
    set to the original length [n] of the last transformed axis, it
    answers the original shape and the same normalisation factor.  With
    the default [lastsize = 0] it does so exactly when [n] is odd. *)
Theorem r2c_c2r_round_trip shape axes_ axes inorm dims fct :
  Forall (fun s => 0 <= s < 2 ^ 63) shape ->
  makeaxes (List.length shape) axes_ = Ok axes ->
  axes <> [] ->
  r2c_internal shape axes_ inorm = Ok (dims, fct) ->
  let n := nth (last axes 0%nat) shape 0 in
  (n <> 0 -> c2r_internal dims axes_ n inorm = Ok (shape, fct)) /\
  (c2r_internal dims axes_ 0 inorm = Ok (shape, fct) <-> Z.odd n = true).
Proof.
  intros Hshape Haxes Hne Hr2c n.
  pose proof (makeaxes_below _ _ _ Haxes) as Hbound.
  assert (Haxis : (last axes 0%nat < List.length shape)%nat).
  { rewrite Forall_forall in Hbound. apply Hbound.
    destruct axes as [|a axes]; [congruence|].
    apply (@exists_last _ (a :: axes)) in Hne. destruct Hne as (l' & x & E).
    rewrite E, last_last. apply in_or_app. right. left. reflexivity. }
  set (axis := last axes 0%nat) in *.
  assert (Hn : 0 <= n < 2 ^ 63).
  { subst n. apply (nth_in_bounds (fun s => 0 <= s < 2 ^ 63)); [lia | exact Hshape]. }
  unfold r2c_internal in Hr2c. rewrite Haxes in Hr2c. cbn [bind] in Hr2c.
  fold axis in Hr2c. fold n in Hr2c.
  destruct (norm_fct inorm shape axes 1 0) as [f|e|] eqn:Efct;
    cbn [bind] in Hr2c; try discriminate.
  injection Hr2c as <- <-.
  rewrite shiftr_1_half, wrap_small by dlia.
  unfold c2r_internal. rewrite set_nth_length, Haxes. cbn [bind].
  fold axis. rewrite nth_set_nth_same by exact Haxis.
  rewrite !set_nth_set_nth.
  split.
  - intros Hn0. destruct (Z.eqb_spec n 0); [lia|].
    rewrite Z.eqb_refl. cbn [negb].
    replace (set_nth axis n shape) with shape
      by (unfold n; symmetry; apply set_nth_same).
    rewrite Efct. reflexivity.
  - cbn [Z.eqb]. rewrite wrap_small by dlia.
    assert (Hhalf : (2 * (n / 2 + 1) - 1) / 2 + 1 = n / 2 + 1) by dlia.
    rewrite Hhalf, Z.eqb_refl. cbn [negb].
    split.
    + destruct (norm_fct inorm (set_nth axis (2 * (n / 2 + 1) - 1) shape) axes 1 0)
        as [f'|e|] eqn:Efct';
        cbn [bind]; intros H; try discriminate.
      assert (Hshape' : set_nth axis (2 * (n / 2 + 1) - 1) shape = shape)
        by congruence.
      assert (E : nth axis (set_nth axis (2 * (n / 2 + 1) - 1) shape) 0 = n)
        by (rewrite Hshape'; reflexivity).
      rewrite nth_set_nth_same in E by exact Haxis.
      apply odd_iff_mod. dlia.
    + intros Hodd. apply odd_iff_mod in Hodd.
      replace (2 * (n / 2 + 1) - 1) with n by dlia.
      replace (set_nth axis n shape) with shape
        by (unfold n; symmetry; apply set_nth_same).
      rewrite Efct. reflexivity.
Qed.

Lemma r2c_c2r_round_trip_witness :
  let n := nth (last [0%nat; 1%nat] 0%nat) [3; 8] 0 in
  (n <> 0 -> c2r_internal [3; 5] None n 2 = Ok ([3; 8], Inv 24)) /\
  (c2r_internal [3; 5] None 0 2 = Ok ([3; 8], Inv 24) <-> Z.odd n = true).
Proof.
  apply (r2c_c2r_round_trip [3; 8] None [0%nat; 1%nat] 2 [3; 5] (Inv 24)).
  - repeat constructor; lia.
  - reflexivity.
  - discriminate.
  - reflexivity.
Defined.

(** *** Ordering of visibility ranges *)

Lemma uint16_range z : 0 <= uint16 z < 2 ^ 16.
Proof. unfold uint16. apply Z.mod_pos_bound. lia. Qed.

Lemma uvwidx_value r :
  0 <= tile_u r < 2 ^ 16 -> 0 <= tile_v r < 2 ^ 16 -> 0 <= minplane r < 2 ^ 16 ->
  uvwidx r = tile_u r * 2 ^ 32 + tile_v r * 2 ^ 16 + minplane r.
Proof.
  intros Hu Hv Hp. unfold uvwidx. rewrite !Z.shiftl_mul_pow2 by lia.
  rewrite (wrap_small (tile_u r * 2 ^ 32)) by lia.
  rewrite (wrap_small (tile_v r * 2 ^ 16)) by lia.
  rewrite (wrap_small (tile_u r * 2 ^ 32 + tile_v r * 2 ^ 16)) by lia.
  apply wrap_small. lia.
Qed.

(** X15.  The sort key [uvwidx] orders ranges by tile row, then tile
    column, then first w-plane, and two ranges have the same key exactly
    when these three fields agree. *)
Theorem uvwidx_lexicographic tu tv mp r c0 c1 tu' tv' mp' r' c0' c1' :
  let a := make_visrange tu tv mp r c0 c1 in
  let b := make_visrange tu' tv' mp' r' c0' c1' in
  (uvwidx a < uvwidx b <->
   tile_u a < tile_u b \/
   (tile_u a = tile_u b /\
    (tile_v a < tile_v b \/ (tile_v a = tile_v b /\ minplane a < minplane b)))) /\
  (uvwidx a = uvwidx b <->
   tile_u a = tile_u b /\ tile_v a = tile_v b /\ minplane a = minplane b).
Proof.
  intros a b.
  rewrite (uvwidx_value a), (uvwidx_value b) by apply uint16_range.
  pose proof (uint16_range tu). pose proof (uint16_range tv).
  pose proof (uint16_range mp). pose proof (uint16_range tu').
  pose proof (uint16_range tv'). pose proof (uint16_range mp').
  subst a b. cbn [tile_u tile_v minplane make_visrange].
  change (2 ^ 32) with 4294967296 in *. change (2 ^ 16) with 65536 in *.
  split; split; intros; lia.
Qed.

(** *** Hartley and complex grids *)

Lemma mirrored_lt n i : (i < n)%nat -> (mirrored n i < n)%nat.
Proof. intros H. unfold mirrored. destruct (Nat.eqb_spec i 0); lia. Qed.

Lemma mirrored_involutive n i : (i < n)%nat -> mirrored n (mirrored n i) = i.
Proof.
  intros H. unfold mirrored.
  destruct (Nat.eqb_spec i 0) as [->|Hi]; [reflexivity|].
  destruct (Nat.eqb_spec (n - i) 0); lia.
Qed.

(** Floating-point addition commutes. *)
Lemma fadd_comm T a b : a +[T] b = b +[T] a.
Proof.
  unfold fadd.
  destruct a as [sa|sa| |sa ma ea], b as [sb|sb| |sb mb eb];
    try destruct sa; try destruct sb; try reflexivity;
    cbn [SFadd]; rewrite (Z.min_comm eb ea); f_equal; apply Z.add_comm.
Qed.

Lemma SFopp_binary_round p em s m e :
  SFopp (binary_round p em s m e) = binary_round p em (negb s) m e.
Proof.
  unfold binary_round. destruct (shl_align _ _ _) as [mz ez].
  unfold binary_round_aux.
  destruct (shr_fexp _ _ _ _ _) as [mrs' e'].
  destruct (shr_fexp _ _ _ _ _) as [mrs'' e''].
  destruct (shr_m mrs'') as [|q|q]; [reflexivity| |reflexivity].
  destruct (e'' <=? em - p); reflexivity.
Qed.

(** The same number: the same datum, or two zeros. *)
Definition same_number (x y : fp) : Prop :=
  x = y \/ exists s s', x = S754_zero s /\ y = S754_zero s'.

(** [b - a] is [-(a - b)], up to the sign of a zero. *)
Lemma fsub_opp T a b : same_number (b -[T] a) (SFopp (a -[T] b)).
Proof.
  unfold fsub, same_number.
  destruct a as [sa|sa| |sa ma ea], b as [sb|sb| |sb mb eb];
    try destruct sa; try destruct sb; cbn [SFsub SFopp negb];
    try (left; reflexivity); try (right; eauto; fail);
    rewrite (Z.min_comm eb ea);
    match goal with
    | |- context [binary_normalize _ _ (?x - ?y) _ _] =>
        replace (x - y) with (- (y - x)) by lia;
        destruct (y - x) as [|d|d]
    end; cbn [Z.opp binary_normalize SFopp];
    try (right; eauto; fail); left;
    rewrite SFopp_binary_round; reflexivity.
Qed.

(** X17.  The complex grid that [hartley2complex] makes of a Hartley
    grid is Hermitian: its element at the mirrored position has the
    same real part and the negated imaginary part (up to the sign of a
    zero), in the rounding arithmetic of [T]. *)
Theorem hartley2complex_hermitian T (h : mav2 fp) (c0 : mav2 complex) :
  conformable h c0 = true ->
  exists c,
    hartley2complex T h c0 = Ok c /\
    forall iu iv, (iu < shape0 h)%nat -> (iv < shape1 h)%nat ->
      fst (at2 c (mirrored (shape0 h) iu) (mirrored (shape1 h) iv))
        = fst (at2 c iu iv) /\
      same_number
        (snd (at2 c (mirrored (shape0 h) iu) (mirrored (shape1 h) iv)))
        (SFopp (snd (at2 c iu iv))).
Proof.
  intros Hc1. unfold hartley2complex.
  rewrite Hc1. cbn [MR_assert bind]. eexists.
  split; [reflexivity|].
  intros iu iv Hu Hv. cbn [at2 shape0 shape1].
  pose proof (mirrored_lt _ _ Hu) as Hxu. pose proof (mirrored_lt _ _ Hv) as Hxv.
  rewrite !mirrored_involutive by assumption.
  repeat match goal with
         | |- context [(?a <? ?b)%nat] =>
             destruct (Nat.ltb_spec a b); [|lia]
         end.
  cbn [andb fst snd]. split; [apply fadd_comm | apply fsub_opp].
Qed.

Definition sample_hartley : mav2 fp :=
  {| shape0 := 2; shape1 := 3;
     at2 := fun i j => dbl (Z.of_nat (3 * i + j)) |}.

Definition blank_complex : mav2 complex :=
  {| shape0 := 2; shape1 := 3; at2 := fun _ _ => (zero, zero) |}.

Lemma hartley2complex_hermitian_witness :
  exists c,
    hartley2complex binary64 sample_hartley blank_complex = Ok c /\
    forall iu iv, (iu < shape0 sample_hartley)%nat ->
                  (iv < shape1 sample_hartley)%nat ->
      fst (at2 c (mirrored (shape0 sample_hartley) iu)
                 (mirrored (shape1 sample_hartley) iv))
        = fst (at2 c iu iv) /\
      same_number
        (snd (at2 c (mirrored (shape0 sample_hartley) iu)
                    (mirrored (shape1 sample_hartley) iv)))
        (SFopp (snd (at2 c iu iv))).
Proof.
  apply (hartley2complex_hermitian binary64 sample_hartley blank_complex).
  reflexivity.
Defined.

(** *** The ranges of one row *)

Lemma StronglySorted_snoc {A} (R : A -> A -> Prop) l y :
  StronglySorted R l -> Forall (fun x => R x y) l -> StronglySorted R (l ++ [y]).
Proof.
  induction 1 as [|a l Hs IH Ha]; intros Hy; cbn [app].
  - constructor; constructor.
  - apply Forall_cons_iff in Hy. destruct Hy as [Hay Hy].
    constructor; [apply IH; exact Hy|].
    apply Forall_app. split; [exact Ha | constructor; [exact Hay | constructor]].
Qed.

Lemma uint16_small z : 0 <= z < 2 ^ 16 -> uint16 z = z.
Proof. intros H. unfold uint16. apply Z.mod_small. exact H. Qed.

Lemma uint32_small z : 0 <= z < 2 ^ 32 -> uint32 z = z.
Proof. intros H. unfold uint32. apply Z.mod_small. exact H. Qed.

Section RowRangesCorrect.

Variable active_chan : Z -> bool.
Variable tile : Z -> Z * Z * Z.
Variables irow nchan : Z.

Hypothesis irow_range : 0 <= irow < 2 ^ 32.
Hypothesis nchan_range : 0 <= nchan < 2 ^ 16.
Hypothesis tile_range :
  forall c, 0 <= c < nchan -> active_chan c = true ->
    let '(iu0, iv0, iw) := tile c in
    0 <= iu0 < 2 ^ 16 /\ 0 <= iv0 < 2 ^ 16 /\ 0 <= iw < 2 ^ 16.

(** A range of this row: its channels are active and share its tile. *)
Definition uniform_range (r : visrange) : Prop :=
  row r = irow /\ 0 <= ch_begin r < ch_end r /\ ch_end r <= nchan /\
  forall c, ch_begin r <= c < ch_end r ->
    active_chan c = true /\ tile c = (tile_u r, tile_v r, minplane r).

Definition covers (r : visrange) (c : Z) : Prop := ch_begin r <= c < ch_end r.

Definition frontier (n : Z) (st : run_state) : Z :=
  if on st then chan0 st else n.

Definition run_inv (n : Z) (st : run_state) : Prop :=
  Forall (fun r => uniform_range r /\ ch_end r <= frontier n st) (myranges st) /\
  (forall c, 0 <= c < frontier n st -> active_chan c = true ->
             exists r, In r (myranges st) /\ covers r c) /\
  StronglySorted (fun r r' => ch_end r <= ch_begin r') (myranges st) /\
  (on st = true ->
   0 <= chan0 st < n /\
   forall c, chan0 st <= c < n ->
     active_chan c = true /\ tile c = (iulast st, ivlast st, plast st)).

(** Closing the open region [chan0 .. stop) keeps the invariant parts. *)
Lemma close_region n st stop :
  run_inv n st -> on st = true -> n <= stop <= nchan ->
  (forall c, n <= c < stop -> active_chan c = true /\
                              tile c = (iulast st, ivlast st, plast st)) ->
  let r := make_visrange (iulast st) (ivlast st) (plast st) irow (chan0 st) stop in
  let l := myranges st ++ [r] in
  Forall (fun r => uniform_range r /\ ch_end r <= stop) l /\
  (forall c, 0 <= c < stop -> active_chan c = true ->
             exists r, In r l /\ covers r c) /\
  StronglySorted (fun r r' => ch_end r <= ch_begin r') l.
Proof.
  intros (HA & HB & HS & HC) Hon Hstop Hext r l. subst l.
  unfold frontier in HA, HB. rewrite Hon in HA, HB.
  destruct (HC Hon) as [Hc0 Hrun].
  assert (Hall : forall c, chan0 st <= c < stop ->
            active_chan c = true /\ tile c = (iulast st, ivlast st, plast st)).
  { intros c Hc. destruct (Z.lt_ge_cases c n); [apply Hrun | apply Hext]; lia. }
  pose proof (Hall (chan0 st) ltac:(lia)) as [Hact0 Htile0].
  pose proof (tile_range (chan0 st) ltac:(lia) Hact0) as Htr.
  rewrite Htile0 in Htr. destruct Htr as (Hu & Hv & Hp).
  assert (Hr : tile_u r = iulast st /\ tile_v r = ivlast st /\
               minplane r = plast st /\ row r = irow /\
               ch_begin r = chan0 st /\ ch_end r = stop).
  { subst r. cbn [make_visrange tile_u tile_v minplane row ch_begin ch_end].
    rewrite !uint16_small, uint32_small by lia. repeat split; reflexivity. }
  destruct Hr as (Eu & Ev & Ep & Er & Eb & Ee). clearbody r.
  split; [|split].
  - apply Forall_app. split.
    + eapply Forall_impl; [|exact HA]. cbn. intros x [Hx Hle]. split; [exact Hx | lia].
    + constructor; [|constructor]. split; [|lia].
      unfold uniform_range. rewrite Er, Eb, Ee, Eu, Ev, Ep.
      split; [reflexivity|]. split; [lia|]. split; [lia|]. exact Hall.
  - intros c Hc Hact. destruct (Z.lt_ge_cases c (chan0 st)) as [Hlt|Hge].
    + destruct (HB c ltac:(lia) Hact) as (x & Hx & Hcov).
      exists x. split; [apply in_or_app; left; exact Hx | exact Hcov].
    + exists r. split; [apply in_or_app; right; left; reflexivity|].
      unfold covers. rewrite Eb, Ee. lia.
  - apply StronglySorted_snoc; [exact HS|].
    eapply Forall_impl; [|exact HA]. cbn. intros x [_ Hle]. rewrite Eb. exact Hle.
Qed.

Lemma channel_step_inv n st :
  0 <= n < nchan -> run_inv n st ->
  run_inv (n + 1) (channel_step active_chan tile irow st n).
Proof.
  intros Hn Hinv. pose proof Hinv as (HA & HB & HS & HC).
  unfold channel_step.
  destruct (active_chan n) eqn:Hact.
  - pose proof (tile_range n ltac:(lia) Hact) as Htr.
    destruct (tile n) as [[iu0 iv0] iw] eqn:Htile.
    destruct (on st) eqn:Hon; cbn [negb].
    + destruct (negb (iu0 =? iulast st) || negb (iv0 =? ivlast st)
                || negb (iw =? plast st)) eqn:Hchg.
      * (* change of active region *)
        destruct (close_region n st n Hinv Hon ltac:(lia) ltac:(intros; lia))
          as (HA' & HB' & HS').
        unfold run_inv, frontier. cbn [on chan0 myranges iulast ivlast plast].
        split; [exact HA'|]. split; [exact HB'|]. split; [exact HS'|].
        intros _. split; [lia|]. intros c Hc. replace c with n by lia.
        split; [exact Hact | exact Htile].
      * (* the region goes on *)
        apply orb_false_iff in Hchg. destruct Hchg as [Hchg Hw].
        apply orb_false_iff in Hchg. destruct Hchg as [Hu Hv].
        apply negb_false_iff, Z.eqb_eq in Hu, Hv, Hw. subst iu0 iv0 iw.
        unfold run_inv, frontier in *. rewrite Hon in *.
        split; [exact HA|]. split; [exact HB|]. split; [exact HS|].
        intros _. destruct (HC eq_refl) as [Hc0 Hrun]. split; [lia|].
        intros c Hc. destruct (Z.eq_dec c n) as [->|Hne].
        -- split; [exact Hact | exact Htile].
        -- apply Hrun. lia.
    + (* new active region *)
      unfold run_inv, frontier in *. rewrite Hon in *.
      cbn [on chan0 myranges iulast ivlast plast].
      split; [exact HA|]. split; [exact HB|]. split; [exact HS|].
      intros _. split; [lia|]. intros c Hc. replace c with n by lia.
      split; [exact Hact | exact Htile].
  - destruct (on st) eqn:Hon.
    + (* end of active region *)
      destruct (close_region n st n Hinv Hon ltac:(lia) ltac:(intros; lia))
        as (HA' & HB' & HS').
      unfold run_inv, frontier. cbn [on chan0 myranges iulast ivlast plast].
      split; [|split; [|split]].
      * eapply Forall_impl; [|exact HA']. cbn. intros x [Hx Hle].
        split; [exact Hx | lia].
      * intros c Hc Hactc. apply HB'; [|exact Hactc].
        destruct (Z.eq_dec c n) as [->|]; [congruence | lia].
      * exact HS'.
      * discriminate.
    + unfold run_inv, frontier in *. rewrite Hon in *.
      split; [|split; [|split]].
      * eapply Forall_impl; [|exact HA]. cbn. intros x [Hx Hle].
        split; [exact Hx | lia].
      * intros c Hc Hactc. apply HB; [|exact Hactc].
        destruct (Z.eq_dec c n) as [->|]; [congruence | lia].
      * exact HS.
      * discriminate.
Qed.

Lemma channel_loop_inv (n : nat) :
  Z.of_nat n <= nchan ->
  run_inv (Z.of_nat n)
    (fold_left (channel_step active_chan tile irow) (zrange 0 (0 + Z.of_nat n))
       {| on := false; iulast := 0; ivlast := 0; plast := 0; chan0 := 0;
          myranges := [] |}).
Proof.
  induction n as [|n IH]; intros Hn.
  - rewrite zrange_nil by lia. cbn [fold_left].
    unfold run_inv, frontier. cbn [on myranges].
    split; [constructor|]. split; [intros; lia|].
    split; [constructor | discriminate].
  - rewrite zrange_S, fold_left_app. cbn [fold_left].
    replace (Z.of_nat (S n)) with (Z.of_nat n + 1) by lia.
    replace (0 + Z.of_nat n) with (Z.of_nat n) at 2 by lia.
    apply channel_step_inv; [lia|]. apply IH. lia.
Qed.

Lemma row_ranges_partition_aux :
  let rs := row_ranges active_chan tile irow nchan [] in
  Forall uniform_range rs /\
  (forall c, 0 <= c < nchan -> active_chan c = true ->
             exists r, In r rs /\ covers r c) /\
  StronglySorted (fun r r' => ch_end r <= ch_begin r') rs.
Proof.
  cbv zeta. unfold row_ranges.
  pose proof (channel_loop_inv (Z.to_nat nchan) ltac:(lia)) as Hinv.
  replace (0 + Z.of_nat (Z.to_nat nchan)) with nchan in Hinv by lia.
  replace (Z.of_nat (Z.to_nat nchan)) with nchan in Hinv by lia.
  set (st := fold_left _ _ _) in *.
  destruct (on st) eqn:Hon.
  - destruct (close_region nchan st nchan Hinv Hon ltac:(lia) ltac:(intros; lia))
      as (HA & HB & HS).
    split; [|split; [exact HB | exact HS]].
    eapply Forall_impl; [|exact HA]. cbn. tauto.
  - destruct Hinv as (HA & HB & HS & _). unfold frontier in *. rewrite Hon in *.
    split; [|split; [exact HB | exact HS]].
    eapply Forall_impl; [|exact HA]. cbn. tauto.
Qed.

End RowRangesCorrect.

(** X18.  The ranges [countRanges] emits for a row partition its active
    channels: every range is a non-empty run [ch_begin, ch_end) of
    active channels that share the range's tile and w-plane, every
    active channel lies in a range, and the ranges follow one another
    without overlap.  (Fewer than [2^16] channels and tile indices, so
    that the 16-bit fields hold them.) *)
Theorem row_ranges_partition active_chan tile irow nchan :
  0 <= irow < 2 ^ 32 -> 0 <= nchan < 2 ^ 16 ->
  (forall c, 0 <= c < nchan -> active_chan c = true ->
     let '(iu0, iv0, iw) := tile c in
     0 <= iu0 < 2 ^ 16 /\ 0 <= iv0 < 2 ^ 16 /\ 0 <= iw < 2 ^ 16) ->
  let rs := row_ranges active_chan tile irow nchan [] in
  Forall (uniform_range active_chan tile irow nchan) rs /\
  (forall c, 0 <= c < nchan -> active_chan c = true ->
             exists r, In r rs /\ covers r c) /\
  StronglySorted (fun r r' => ch_end r <= ch_begin r') rs.
Proof.
  intros Hrow Hn Htile.
  exact (row_ranges_partition_aux active_chan tile irow nchan Hrow Hn Htile).
Qed.

Lemma row_ranges_partition_witness :
  let active_chan := fun c => negb (c =? 2) in
  let tile := fun c => (c / 3, 0, 1) in
  let rs := row_ranges active_chan tile 5 6 [] in
  Forall (uniform_range active_chan tile 5 6) rs /\
  (forall c, 0 <= c < 6 -> active_chan c = true ->
             exists r, In r rs /\ covers r c) /\
  StronglySorted (fun r r' => ch_end r <= ch_begin r') rs.
Proof.
  apply (row_ranges_partition (fun c => negb (c =? 2)) (fun c => (c / 3, 0, 1)) 5 6).
  - lia.
  - lia.
  - intros c Hc _. split; [|lia].
    split; [apply Z.div_pos; lia|].
    apply Z.div_lt_upper_bound; lia.
Defined.

(** *** Assignments to array elements *)

Definition write {A : Type} (m : mav2 A) (w : nat * nat * A) : mav2 A :=
  upd2 m (fst (fst w)) (snd (fst w)) (snd w).

Lemma loop2_writes {A} (outer : list Z) (inner : Z -> list Z)
    (cell : Z -> Z -> nat * nat) (val : Z -> Z -> A) m :
  loop2 outer inner cell val m =
  fold_left write
    (flat_map (fun i => map (fun j => (cell i j, val i j)) (inner i)) outer) m.
Proof.
  unfold loop2. revert m. induction outer as [|i outer IH]; intros m.
  - reflexivity.
  - cbn [fold_left flat_map]. rewrite fold_left_app, <- IH. f_equal.
    generalize m. induction (inner i) as [|j js IHj]; intros m'.
    + reflexivity.
    + cbn [fold_left map]. rewrite IHj. reflexivity.
Qed.

Lemma in_loop2_writes {A} (outer : list Z) (inner : Z -> list Z)
    (cell : Z -> Z -> nat * nat) (val : Z -> Z -> A) w :
  In w (flat_map (fun i => map (fun j => (cell i j, val i j)) (inner i)) outer)
  <-> exists i j, In i outer /\ In j (inner i) /\ w = (cell i j, val i j).
Proof.
  rewrite in_flat_map. split.
  - intros (i & Hi & Hw). apply in_map_iff in Hw. destruct Hw as (j & E & Hj).
    exists i, j. auto.
  - intros (i & j & Hi & Hj & ->). exists i. split; [exact Hi|].
    apply in_map_iff. exists j. auto.
Qed.

Lemma writes_shape {A} (ws : list (nat * nat * A)) m :
  shape0 (fold_left write ws m) = shape0 m /\
  shape1 (fold_left write ws m) = shape1 m.
Proof.
  revert m. induction ws as [|w ws IH]; intros m; [split; reflexivity|].
  cbn [fold_left]. destruct (IH (write m w)) as [-> ->]. split; reflexivity.
Qed.

Lemma writes_untouched {A} (ws : list (nat * nat * A)) m a b :
  (forall w, In w ws -> fst w <> (a, b)) ->
  at2 (fold_left write ws m) a b = at2 m a b.
Proof.
  revert m. induction ws as [|w ws IH]; intros m Hno; [reflexivity|].
  cbn [fold_left]. rewrite IH by (intros w' Hw'; apply Hno; right; exact Hw').
  unfold write, upd2. cbn [at2].
  destruct (Nat.eqb_spec a (fst (fst w))) as [Ea|Ea]; [|reflexivity].
  destruct (Nat.eqb_spec b (snd (fst w))) as [Eb|Eb]; [|reflexivity].
  exfalso. apply (Hno w); [left; reflexivity|].
  destruct w as [[wa wb] wx]. cbn in *. congruence.
Qed.

Lemma writes_written {A} (ws : list (nat * nat * A)) m a b x :
  (exists w, In w ws /\ fst w = (a, b)) ->
  (forall w, In w ws -> fst w = (a, b) -> snd w = x) ->
  at2 (fold_left write ws m) a b = x.
Proof.
  revert m. induction ws as [|w ws IH] using rev_ind; intros m Hex Hall.
  - destruct Hex as (w & [] & _).
  - rewrite fold_left_app. cbn [fold_left]. unfold write at 1, upd2. cbn [at2].
    destruct w as [[wa wb] wx]. cbn [fst snd].
    destruct (Nat.eqb_spec a wa) as [Ea|Ea];
      [destruct (Nat.eqb_spec b wb) as [Eb|Eb]|]; cbn [andb].
    + subst. apply (Hall (wa, wb, wx)); [apply in_or_app; right; left|]; reflexivity.
    + apply IH.
      * destruct Hex as (w & Hw & E). apply in_app_or in Hw.
        destruct Hw as [Hw|[<-|[]]]; [exists w; auto|].
        cbn in E. congruence.
      * intros w Hw. apply Hall. apply in_or_app. left. exact Hw.
    + apply IH.
      * destruct Hex as (w & Hw & E). apply in_app_or in Hw.
        destruct Hw as [Hw|[<-|[]]]; [exists w; auto|].
        cbn in E. congruence.
      * intros w Hw. apply Hall. apply in_or_app. left. exact Hw.
Qed.

Lemma in_zrange lo hi x : In x (zrange lo hi) <-> lo <= x < hi.
Proof.
  unfold zrange. rewrite in_map_iff. split.
  - intros (i & <- & Hi). apply in_seq in Hi. lia.
  - intros H. exists (Z.to_nat (x - lo)). split; [lia|]. apply in_seq. lia.
Qed.

(** *** Index maps between the dirty image and the grid *)

(** The pixel of the dirty image that lands on grid row (or column) [a],
    if any. *)
Definition dirty_index (nu nxdirty a : Z) : option Z :=
  if a + nxdirty / 2 <? nxdirty then Some (a + nxdirty / 2)
  else if nu - nxdirty / 2 <=? a then Some (a + nxdirty / 2 - nu)
  else None.

Lemma grid_index_value nu nxdirty i :
  0 <= nxdirty <= nu -> nu < 2 ^ 63 -> 0 <= i < nxdirty ->
  grid_index nu nxdirty i =
  if i <? nxdirty / 2 then nu - nxdirty / 2 + i else i - nxdirty / 2.
Proof.
  intros Hn Hnu Hi. unfold grid_index.
  assert (Hh : 0 <= nxdirty / 2 <= nxdirty) by dlia.
  rewrite (wrap_small (nu - nxdirty / 2)) by lia.
  rewrite (wrap_small (nu - nxdirty / 2 + i)) by lia.
  destruct (Z.ltb_spec i (nxdirty / 2)).
  - destruct (Z.leb_spec nu (nu - nxdirty / 2 + i)); [lia | reflexivity].
  - destruct (Z.leb_spec nu (nu - nxdirty / 2 + i)); [|lia].
    rewrite wrap_small by lia. lia.
Qed.

Lemma grid_index_range nu nxdirty i :
  0 <= nxdirty <= nu -> nu < 2 ^ 63 -> 0 <= i < nxdirty ->
  0 <= grid_index nu nxdirty i < nu.
Proof.
  intros Hn Hnu Hi. rewrite grid_index_value by assumption.
  assert (Hh : 0 <= nxdirty / 2 <= nxdirty) by dlia.
  destruct (Z.ltb_spec i (nxdirty / 2)); lia.
Qed.

Lemma dirty_index_grid_index nu nxdirty i a :
  0 <= nxdirty <= nu -> nu < 2 ^ 63 -> 0 <= a < nu ->
  (0 <= i < nxdirty /\ grid_index nu nxdirty i = a) <->
  dirty_index nu nxdirty a = Some i.
Proof.
  intros Hn Hnu Ha.
  assert (Hh : 0 <= nxdirty / 2 /\ 2 * (nxdirty / 2) <= nxdirty) by dlia.
  unfold dirty_index. split.
  - intros [Hi E]. rewrite grid_index_value in E by assumption.
    destruct (Z.ltb_spec i (nxdirty / 2)), (Z.ltb_spec (a + nxdirty / 2) nxdirty),
             (Z.leb_spec (nu - nxdirty / 2) a); try lia; f_equal; lia.
  - intros E.
    destruct (Z.ltb_spec (a + nxdirty / 2) nxdirty);
      [|destruct (Z.leb_spec (nu - nxdirty / 2) a); [|discriminate]];
      injection E as <-.
    + split; [lia|]. rewrite grid_index_value by (assumption || lia).
      destruct (Z.ltb_spec (a + nxdirty / 2) (nxdirty / 2)); lia.
    + split; [lia|]. rewrite grid_index_value by (assumption || lia).
      destruct (Z.ltb_spec (a + nxdirty / 2 - nu) (nxdirty / 2)); lia.
Qed.

Lemma icf_range nxdirty i : 0 <= i < nxdirty -> 0 <= icf nxdirty i <= nxdirty / 2.
Proof. intros Hi. unfold icf. assert (0 <= nxdirty / 2 /\ nxdirty <= 2 * (nxdirty / 2) + 1) by dlia. lia. Qed.

Section DirtyGridCorrect.

Variable T : format.
Variables nxdirty nydirty nu nv : Z.
Variables cfu cfv : Z -> fp.
Variables dirty grid : mav2 fp.

Hypothesis nx_range : 2 <= nxdirty <= nu.
Hypothesis ny_range : 2 <= nydirty <= nv.
Hypothesis nu_max : nu < 2 ^ 63.
Hypothesis nv_max : nv < 2 ^ 63.
Hypothesis dirty_shape : shape2 dirty = (Z.to_nat nxdirty, Z.to_nat nydirty).
Hypothesis grid_shape : shape2 grid = (Z.to_nat nu, Z.to_nat nv).

Lemma checkShape_ok (s : nat * nat) : checkShape s s = Ok tt.
Proof.
  unfold checkShape. destruct s as [a b].
  repeat match goal with
         | |- context [MR_assert ?c _] =>
             let E := fresh in
             assert (E : c = true);
             [|rewrite E; reflexivity]
         end.
  cbn. rewrite !Nat.eqb_refl. reflexivity.
Qed.

(** The grid after the zeroing loops of [dirty2grid_pre]. *)
Let zeroed : mav2 fp :=
  loop2 (zrange 0 nu)
    (fun i =>
       if (i <? nxdirty / 2) || (wrap (nu - nxdirty / 2) <=? i)
       then zrange (nydirty / 2) (wrap (wrap (nv - nydirty / 2) + 1))
       else zrange 0 nv)
    (fun i j => (Z.to_nat i, Z.to_nat j))
    (fun _ _ => zero)
    grid.

Lemma zeroed_outside a b :
  0 <= a < nu -> 0 <= b < nv ->
  dirty_index nu nxdirty a = None \/ dirty_index nv nydirty b = None ->
  at2 zeroed (Z.to_nat a) (Z.to_nat b) = zero.
Proof.
  intros Ha Hb Hnone. unfold zeroed. rewrite loop2_writes.
  assert (Hhx : 0 <= nxdirty / 2 /\ 2 * (nxdirty / 2) <= nxdirty
                /\ nxdirty <= 2 * (nxdirty / 2) + 1) by dlia.
  assert (Hhy : 0 <= nydirty / 2 /\ 2 * (nydirty / 2) <= nydirty
                /\ nydirty <= 2 * (nydirty / 2) + 1) by dlia.
  apply writes_written.
  - exists ((Z.to_nat a, Z.to_nat b), zero). split; [|reflexivity].
    apply in_loop2_writes. exists a, b.
    split; [apply in_zrange; lia|]. split; [|reflexivity].
    rewrite (wrap_small (nu - nxdirty / 2)) by lia.
    rewrite (wrap_small (nv - nydirty / 2)) by lia.
    rewrite (wrap_small (nv - nydirty / 2 + 1)) by lia.
    unfold dirty_index in Hnone.
    destruct (Z.ltb_spec a (nxdirty / 2)), (Z.leb_spec (nu - nxdirty / 2) a);
      cbn [orb]; apply in_zrange; try lia;
      destruct (Z.ltb_spec (a + nxdirty / 2) nxdirty),
               (Z.ltb_spec (b + nydirty / 2) nydirty),
               (Z.leb_spec (nv - nydirty / 2) b);
      try lia; destruct Hnone; try discriminate; lia.
  - intros w Hw _. apply in_loop2_writes in Hw.
    destruct Hw as (i & j & _ & _ & ->). reflexivity.
Qed.

Lemma dirty2grid_pre_value :
  exists g,
    dirty2grid_pre T nxdirty nydirty nu nv cfu cfv dirty grid = Ok g /\
    shape2 g = shape2 grid /\
    forall a b, 0 <= a < nu -> 0 <= b < nv ->
      at2 g (Z.to_nat a) (Z.to_nat b) =
      match dirty_index nu nxdirty a, dirty_index nv nydirty b with
      | Some i, Some j =>
          at2 dirty (Z.to_nat i) (Z.to_nat j)
           *[T] corr T nxdirty nydirty cfu cfv i j
      | _, _ => zero
      end.
Proof.
  unfold dirty2grid_pre. rewrite dirty_shape, grid_shape, !checkShape_ok.
  cbn [bind]. eexists. split; [reflexivity|].
  fold zeroed. rewrite loop2_writes.
  split.
  { unfold shape2.
    destruct (writes_shape
      (flat_map (fun i => map (fun j =>
         ((Z.to_nat (grid_index nu nxdirty i), Z.to_nat (grid_index nv nydirty j)),
          at2 dirty (Z.to_nat i) (Z.to_nat j) *[T] corr T nxdirty nydirty cfu cfv i j))
         (zrange 0 nydirty)) (zrange 0 nxdirty)) zeroed) as [-> ->].
    unfold zeroed. rewrite loop2_writes.
    match goal with
    | |- context [fold_left write ?ws grid] =>
        destruct (writes_shape ws grid) as [-> ->]
    end.
    exact grid_shape. }
  intros a b Ha Hb.
  destruct (dirty_index nu nxdirty a) as [i|] eqn:Ei;
    [destruct (dirty_index nv nydirty b) as [j|] eqn:Ej|].
  - apply dirty_index_grid_index in Ei; [|lia|lia|lia].
    apply dirty_index_grid_index in Ej; [|lia|lia|lia].
    destruct Ei as [Hi Ei]. destruct Ej as [Hj Ej].
    apply writes_written.
    + eexists. split.
      * apply in_loop2_writes. exists i, j.
        split; [apply in_zrange; lia|]. split; [apply in_zrange; lia | reflexivity].
      * cbn [fst]. rewrite Ei, Ej. reflexivity.
    + intros w Hw E. apply in_loop2_writes in Hw.
      destruct Hw as (i' & j' & Hi' & Hj' & ->). cbn [fst snd] in *.
      apply in_zrange in Hi', Hj'.
      injection E as Ea Eb.
      pose proof (grid_index_range nu nxdirty i' ltac:(lia) ltac:(lia) ltac:(lia)).
      pose proof (grid_index_range nv nydirty j' ltac:(lia) ltac:(lia) ltac:(lia)).
      assert (Ei' : dirty_index nu nxdirty a = Some i')
        by (apply dirty_index_grid_index; [lia|lia|lia|split; lia]).
      assert (Ej' : dirty_index nv nydirty b = Some j')
        by (apply dirty_index_grid_index; [lia|lia|lia|split; lia]).
      assert (Ei2 : dirty_index nu nxdirty a = Some i)
        by (apply dirty_index_grid_index; [lia|lia|lia|split; lia]).
      assert (Ej2 : dirty_index nv nydirty b = Some j)
        by (apply dirty_index_grid_index; [lia|lia|lia|split; lia]).
      congruence.
  - rewrite writes_untouched; [apply zeroed_outside; auto|].
    intros w Hw E. apply in_loop2_writes in Hw.
    destruct Hw as (i' & j' & Hi' & Hj' & ->). cbn [fst] in E.
    apply in_zrange in Hi', Hj'. injection E as Ea Eb.
    pose proof (grid_index_range nv nydirty j' ltac:(lia) ltac:(lia) ltac:(lia)).
    assert (Ej' : dirty_index nv nydirty b = Some j')
      by (apply dirty_index_grid_index; [lia|lia|lia|split; lia]).
    congruence.
  - rewrite writes_untouched; [apply zeroed_outside; auto|].
    intros w Hw E. apply in_loop2_writes in Hw.
    destruct Hw as (i' & j' & Hi' & Hj' & ->). cbn [fst] in E.
    apply in_zrange in Hi', Hj'. injection E as Ea Eb.
    pose proof (grid_index_range nu nxdirty i' ltac:(lia) ltac:(lia) ltac:(lia)).
    assert (Ei' : dirty_index nu nxdirty a = Some i')
      by (apply dirty_index_grid_index; [lia|lia|lia|split; lia]).
    congruence.
Qed.

Lemma grid2dirty_post_value (tmav dirty0 : mav2 fp) :
  shape2 dirty0 = (Z.to_nat nxdirty, Z.to_nat nydirty) ->
  exists d,
    grid2dirty_post T nxdirty nydirty nu nv cfu cfv tmav dirty0 = Ok d /\
    forall i j, 0 <= i < nxdirty -> 0 <= j < nydirty ->
      at2 d (Z.to_nat i) (Z.to_nat j) =
      at2 tmav (Z.to_nat (grid_index nu nxdirty i))
                (Z.to_nat (grid_index nv nydirty j))
       *[T] corr T nxdirty nydirty cfu cfv i j.
Proof.
  intros Hshape. unfold grid2dirty_post. rewrite Hshape, checkShape_ok.
  cbn [bind]. eexists. split; [reflexivity|].
  intros i j Hi Hj. rewrite loop2_writes. apply writes_written.
  - eexists. split.
    + apply in_loop2_writes. exists i, j.
      split; [apply in_zrange; lia|]. split; [apply in_zrange; lia | reflexivity].
    + reflexivity.
  - intros w Hw E. apply in_loop2_writes in Hw.
    destruct Hw as (i' & j' & Hi' & Hj' & ->). cbn [fst snd] in *.
    apply in_zrange in Hi', Hj'. injection E as Ea Eb.
    replace i' with i by lia. replace j' with j by lia. reflexivity.
Qed.

End DirtyGridCorrect.

(** X20.  After [dirty2grid_pre] every element of the grid is determined by
    the dirty image alone: it is the corrected dirty pixel that the
    index shift places there, and 0 where no pixel lands; nothing of
    the previous content of [grid] survives, although the zeroing loop
    skips part of the rows. *)
Theorem dirty2grid_pre_no_stale T nxdirty nydirty nu nv cfu cfv dirty grid :
  2 <= nxdirty <= nu -> 2 <= nydirty <= nv -> nu < 2 ^ 63 -> nv < 2 ^ 63 ->
  shape2 dirty = (Z.to_nat nxdirty, Z.to_nat nydirty) ->
  shape2 grid = (Z.to_nat nu, Z.to_nat nv) ->
  exists g,
    dirty2grid_pre T nxdirty nydirty nu nv cfu cfv dirty grid = Ok g /\
    shape2 g = shape2 grid /\
    forall a b, 0 <= a < nu -> 0 <= b < nv ->
      at2 g (Z.to_nat a) (Z.to_nat b) =
      match dirty_index nu nxdirty a, dirty_index nv nydirty b with
      | Some i, Some j =>
          at2 dirty (Z.to_nat i) (Z.to_nat j)
           *[T] corr T nxdirty nydirty cfu cfv i j
      | _, _ => zero
      end.
Proof.
  intros. apply dirty2grid_pre_value; assumption.
Qed.

Definition sample_image : mav2 fp :=
  {| shape0 := 2; shape1 := 4;
     at2 := fun i j => dbl (Z.of_nat (4 * i + j + 1)) |}.

Definition sample_grid : mav2 fp :=
  {| shape0 := 4; shape1 := 6; at2 := fun _ _ => dbl 7 |}.

Definition sample_corfunc (k : Z) : fp := dbl (k + 1).

Lemma dirty2grid_pre_no_stale_witness :
  exists g,
    dirty2grid_pre binary64 2 4 4 6 sample_corfunc sample_corfunc sample_image sample_grid
      = Ok g /\
    shape2 g = shape2 sample_grid /\
    forall a b, 0 <= a < 4 -> 0 <= b < 6 ->
      at2 g (Z.to_nat a) (Z.to_nat b) =
      match dirty_index 4 2 a, dirty_index 6 4 b with
      | Some i, Some j =>
          at2 sample_image (Z.to_nat i) (Z.to_nat j)
           *[binary64] corr binary64 2 4 sample_corfunc sample_corfunc i j
      | _, _ => zero
      end.
Proof.
  apply (dirty2grid_pre_no_stale binary64 2 4 4 6 sample_corfunc sample_corfunc
           sample_image sample_grid); try lia; reflexivity.
Defined.

(** X21.  [grid2dirty_post] reads the grid where [dirty2grid_pre] wrote:
    applied to the result of [dirty2grid_pre] it returns every dirty
    pixel multiplied twice by its correction factor.  Both index the
    correction tables within their [nxdirty/2+1] and [nydirty/2+1]
    entries. *)
Theorem grid2dirty_post_after_pre T nxdirty nydirty nu nv cfu cfv dirty grid dirty0 :
  2 <= nxdirty <= nu -> 2 <= nydirty <= nv -> nu < 2 ^ 63 -> nv < 2 ^ 63 ->
  shape2 dirty = (Z.to_nat nxdirty, Z.to_nat nydirty) ->
  shape2 grid = (Z.to_nat nu, Z.to_nat nv) ->
  shape2 dirty0 = (Z.to_nat nxdirty, Z.to_nat nydirty) ->
  exists g d,
    dirty2grid_pre T nxdirty nydirty nu nv cfu cfv dirty grid = Ok g /\
    grid2dirty_post T nxdirty nydirty nu nv cfu cfv g dirty0 = Ok d /\
    forall i j, 0 <= i < nxdirty -> 0 <= j < nydirty ->
      at2 d (Z.to_nat i) (Z.to_nat j) =
      at2 dirty (Z.to_nat i) (Z.to_nat j)
       *[T] corr T nxdirty nydirty cfu cfv i j
       *[T] corr T nxdirty nydirty cfu cfv i j /\
      0 <= icf nxdirty i <= nxdirty / 2 /\ 0 <= icf nydirty j <= nydirty / 2.
Proof.
  intros Hnx Hny Hnu Hnv Hd Hg Hd0.
  destruct (dirty2grid_pre_value T nxdirty nydirty nu nv cfu cfv dirty grid
              Hnx Hny Hnu Hnv Hd Hg) as (g & Eg & _ & Hgv).
  destruct (grid2dirty_post_value T nxdirty nydirty nu nv cfu cfv g dirty0 Hd0)
    as (d & Ed & Hdv).
  exists g, d. split; [exact Eg|]. split; [exact Ed|].
  intros i j Hi Hj. split; [|split; apply icf_range; assumption].
  rewrite (Hdv i j Hi Hj).
  pose proof (grid_index_range nu nxdirty i ltac:(lia) Hnu Hi) as Ha.
  pose proof (grid_index_range nv nydirty j ltac:(lia) Hnv Hj) as Hb.
  rewrite (Hgv _ _ Ha Hb).
  assert (Ei : dirty_index nu nxdirty (grid_index nu nxdirty i) = Some i)
    by (apply dirty_index_grid_index; [lia | lia | lia | split; [lia | reflexivity]]).
  assert (Ej : dirty_index nv nydirty (grid_index nv nydirty j) = Some j)
    by (apply dirty_index_grid_index; [lia | lia | lia | split; [lia | reflexivity]]).
  rewrite Ei, Ej. reflexivity.
Qed.

Lemma grid2dirty_post_after_pre_witness :
  exists g d,
    dirty2grid_pre binary64 2 4 4 6 sample_corfunc sample_corfunc sample_image sample_grid
      = Ok g /\
    grid2dirty_post binary64 2 4 4 6 sample_corfunc sample_corfunc g sample_image = Ok d /\
    forall i j, 0 <= i < 2 -> 0 <= j < 4 ->
      at2 d (Z.to_nat i) (Z.to_nat j) =
      at2 sample_image (Z.to_nat i) (Z.to_nat j)
       *[binary64] corr binary64 2 4 sample_corfunc sample_corfunc i j
       *[binary64] corr binary64 2 4 sample_corfunc sample_corfunc i j /\
      0 <= icf 2 i <= 2 / 2 /\ 0 <= icf 4 j <= 4 / 2.
Proof.
  apply (grid2dirty_post_after_pre binary64 2 4 4 6 sample_corfunc sample_corfunc
           sample_image sample_grid sample_image); try lia; reflexivity.
Defined.

(** *** Selection of the evaluation routine in [HornerKernelFlexible] *)

Lemma evfhelper2_steps D NV : forall fuel DEG,
  (DEG <= 21)%nat -> (23 - DEG <= fuel)%nat ->
  HornerKernelFlexible.evfhelper2 fuel D NV DEG =
  Some (if (DEG <=? D)%nat && (D <=? 21)%nat then HornerKernelFlexible.eval_intern NV D
        else HornerKernelFlexible.eval_intern_general).
Proof.
  induction fuel as [|fuel IH]; intros DEG Hdeg Hfuel; [lia|].
  cbn [HornerKernelFlexible.evfhelper2]. unfold HornerKernelFlexible.MAXDEG.
  destruct (Nat.eqb_spec DEG D) as [->|Hne].
  - destruct (Nat.leb_spec D D); [|lia].
    destruct (Nat.leb_spec D 21); [reflexivity | lia].
  - destruct (Nat.ltb_spec 20 DEG) as [Hgt|Hle].
    + assert (DEG = 21%nat) by lia. subst DEG.
      destruct (Nat.leb_spec 21 D), (Nat.leb_spec D 21); cbn [andb];
        try reflexivity; lia.
    + rewrite IH by lia.
      destruct (Nat.leb_spec (S DEG) D), (Nat.leb_spec DEG D),
               (Nat.leb_spec D 21); cbn [andb]; try reflexivity; lia.
Qed.

Lemma evfhelper1_steps vlen nv D : forall fuel NV,
  (1 <= vlen)%nat -> (1 <= NV <= nv)%nat ->
  (NV = nv \/ nv * vlen <= 16)%nat ->
  (nv - NV + 23 <= fuel)%nat ->
  HornerKernelFlexible.evfhelper1 fuel vlen nv D NV =
  Some (if (D <=? 21)%nat then HornerKernelFlexible.eval_intern nv D else HornerKernelFlexible.eval_intern_general).
Proof.
  induction fuel as [|fuel IH]; intros NV Hv HNV Hsmall Hfuel; [lia|].
  cbn [HornerKernelFlexible.evfhelper1]. unfold HornerKernelFlexible.MAXW.
  destruct (Nat.eqb_spec nv NV) as [->|Hne].
  - rewrite evfhelper2_steps by lia. reflexivity.
  - destruct Hsmall as [|Hsmall]; [lia|].
    destruct (Nat.ltb_spec 16 (nv * vlen)); [lia|].
    destruct (Nat.ltb_spec 16 (NV * vlen)); [nia|].
    apply IH; [lia | lia | right; lia | lia].
Qed.

Lemma evfhelper1_large vlen nv D fuel :
  (1 <= vlen)%nat -> (1 < nv)%nat -> (16 < nv * vlen)%nat -> (1 <= fuel)%nat ->
  HornerKernelFlexible.evfhelper1 fuel vlen nv D 1 = Some HornerKernelFlexible.eval_intern_general.
Proof.
  intros Hv Hnv Hbig Hfuel. destruct fuel as [|fuel]; [lia|].
  cbn [HornerKernelFlexible.evfhelper1]. unfold HornerKernelFlexible.MAXW.
  destruct (Nat.eqb_spec nv 1); [lia|].
  destruct (Nat.ltb_spec 16 (nv * vlen)); [reflexivity | lia].
Qed.

Lemma evfhelper1_never vlen D : forall fuel NV,
  (1 <= NV)%nat -> HornerKernelFlexible.evfhelper1 fuel vlen 0 D NV = None.
Proof.
  induction fuel as [|fuel IH]; intros NV HNV; [reflexivity|].
  cbn [HornerKernelFlexible.evfhelper1]. destruct (Nat.eqb_spec 0 NV); [lia|].
  change (HornerKernelFlexible.MAXW <? 0 * vlen)%nat with false. cbv iota.
  apply IH. destruct (HornerKernelFlexible.MAXW <? NV * vlen)%nat; lia.
Qed.

Lemma nvec_pos W vlen : (1 <= W)%nat -> (1 <= vlen)%nat -> (1 <= nvec W vlen)%nat.
Proof.
  intros HW Hv. unfold nvec.
  apply Nat.div_le_lower_bound; lia.
Qed.

Lemma nvec_zero vlen : (1 <= vlen)%nat -> nvec 0 vlen = 0%nat.
Proof. intros Hv. unfold nvec. apply Nat.div_small. lia. Qed.

Lemma evfhelper1_returns W D vlen fuel :
  (1 <= vlen)%nat -> (40 <= fuel)%nat -> (1 <= W)%nat ->
  exists f,
    HornerKernelFlexible.evfhelper1 fuel vlen (nvec W vlen) D 1 = Some f /\
    (f = HornerKernelFlexible.eval_intern (nvec W vlen) D <->
     (D <= 21 /\ (nvec W vlen = 1 \/ nvec W vlen * vlen <= 16))%nat) /\
    (f = HornerKernelFlexible.eval_intern (nvec W vlen) D \/
     f = HornerKernelFlexible.eval_intern_general).
Proof.
  intros Hv Hfuel HW. pose proof (nvec_pos W vlen HW Hv) as Hnv.
  set (nv := nvec W vlen) in *.
  destruct (Nat.eq_dec nv 1) as [E1|E1];
    [|destruct (Nat.le_gt_cases (nv * vlen) 16) as [Hs|Hb]].
  - rewrite (evfhelper1_steps vlen nv D fuel 1) by lia.
    destruct (Nat.leb_spec D 21) as [HD|HD]; eexists; (split; [reflexivity|]).
    + split; [|left; reflexivity]. split; [intros _; lia | reflexivity].
    + split; [|right; reflexivity]. split; [discriminate | lia].
  - rewrite (evfhelper1_steps vlen nv D fuel 1) by nia.
    destruct (Nat.leb_spec D 21) as [HD|HD]; eexists; (split; [reflexivity|]).
    + split; [|left; reflexivity]. split; [intros _; lia | reflexivity].
    + split; [|right; reflexivity]. split; [discriminate | lia].
  - rewrite (evfhelper1_large vlen nv D fuel) by lia.
    eexists. split; [reflexivity|].
    split; [|right; reflexivity]. split; [discriminate | lia].
Qed.

Lemma call_general T W D vlen coeff f x :
  f = HornerKernelFlexible.eval_intern (nvec W vlen) D \/
  f = HornerKernelFlexible.eval_intern_general ->
  HornerKernelFlexible.call T W D vlen coeff f x =
  HornerKernelFlexible.run_eval_intern_general T W D vlen coeff x.
Proof. intros [-> | ->]; reflexivity. Qed.

(** X22.  For [W >= 1] the constructor's selection of an evaluation routine
    returns, and whichever routine it selects computes what
    [eval_intern_general] computes; the unrolled routine
    [eval_intern<nvec,D>] is selected exactly when [D <= 21] and either
    [nvec = 1] or [nvec*vlen <= 16].  For [W = 0] the selection never
    returns. *)
Theorem flexible_selection T W D vlen fuel coeff x :
  (1 <= vlen)%nat -> (40 <= fuel)%nat ->
  ((1 <= W)%nat ->
   exists f,
     HornerKernelFlexible.evfhelper1 fuel vlen (nvec W vlen) D 1 = Some f /\
     HornerKernelFlexible.call T W D vlen coeff f x =
       HornerKernelFlexible.run_eval_intern_general T W D vlen coeff x /\
     (f = HornerKernelFlexible.eval_intern (nvec W vlen) D <->
      (D <= 21 /\ (nvec W vlen = 1 \/ nvec W vlen * vlen <= 16))%nat)) /\
  (W = 0%nat ->
   forall fuel', HornerKernelFlexible.evfhelper1 fuel' vlen (nvec W vlen) D 1 = None).
Proof.
  intros Hv Hfuel. split.
  - intros HW.
    destruct (evfhelper1_returns W D vlen fuel Hv Hfuel HW) as (f & E & Hiff & Hor).
    exists f. split; [exact E|]. split; [apply call_general; exact Hor | exact Hiff].
  - intros -> fuel'. rewrite nvec_zero by lia. apply evfhelper1_never. lia.
Qed.

Lemma flexible_selection_witness :
  ((1 <= 7)%nat ->
   exists f,
     HornerKernelFlexible.evfhelper1 40 4 (nvec 7 4) 9 1 = Some f /\
     HornerKernelFlexible.call binary64 7 9 4 [] f zero =
       HornerKernelFlexible.run_eval_intern_general binary64 7 9 4 [] zero /\
     (f = HornerKernelFlexible.eval_intern (nvec 7 4) 9 <->
      (9 <= 21 /\ (nvec 7 4 = 1 \/ nvec 7 4 * 4 <= 16))%nat)) /\
  (7%nat = 0%nat ->
   forall fuel', HornerKernelFlexible.evfhelper1 fuel' 4 (nvec 7 4) 9 1 = None).
Proof. apply (flexible_selection binary64 7 9 4 40 [] zero); lia. Defined.

(** *** The coefficient tables *)

Lemma modify_length {A} i (f : A -> A) l : List.length (modify i f l) = List.length l.
Proof. revert i. induction l as [|h t IH]; intros [|i]; cbn; auto. Qed.

Lemma nth_modify {A} i k (f : A -> A) l d :
  nth k (modify i f l) d =
  if ((k =? i) && (i <? List.length l))%nat then f (nth i l d) else nth k l d.
Proof.
  revert i k. induction l as [|h t IH]; intros i k.
  - cbn [List.length modify].
    replace (i <? 0)%nat with false by (symmetry; apply Nat.ltb_ge; lia).
    rewrite andb_false_r. destruct i, k; reflexivity.
  - destruct i as [|i], k as [|k]; cbn [modify nth]; try reflexivity.
    rewrite IH. reflexivity.
Qed.

Lemma div_mod_eq vlen i i' :
  (0 < vlen)%nat ->
  (i' / vlen = i / vlen /\ i' mod vlen = i mod vlen)%nat <-> i' = i.
Proof.
  intros Hv. split; [|intros ->; auto]. intros [Hd Hm].
  rewrite (Nat.div_mod i vlen), (Nat.div_mod i' vlen) by lia. rewrite Hd, Hm. reflexivity.
Qed.

Lemma div_lt_cols vlen n i : (0 < vlen)%nat -> (i < vlen * n)%nat -> (i / vlen < n)%nat.
Proof. intros Hv Hi. apply Nat.Div0.div_lt_upper_bound. exact Hi. Qed.

(** Loops of assignments over an abstract table with lookup [get] and
    assignment [set] on [rows * cols] elements. *)
Section FillLoop.

Context {Tbl : Type}.
Variable get : Tbl -> nat -> nat -> fp.
Variable set : nat -> nat -> fp -> Tbl -> Tbl.
Variable ok : Tbl -> Prop.
Variables rows cols : nat.

Hypothesis set_ok : forall s j i v, ok s -> ok (set j i v s).
Hypothesis get_set : forall s j i v j' i',
  ok s -> (j < rows)%nat -> (i < cols)%nat -> (j' < rows)%nat -> (i' < cols)%nat ->
  get (set j i v s) j' i' =
  if ((j' =? j) && (i' =? i))%nat then v else get s j' i'.

Definition assign (s : Tbl) (w : nat * nat * fp) : Tbl :=
  set (fst (fst w)) (snd (fst w)) (snd w) s.

Definition in_table (w : nat * nat * fp) : Prop :=
  (fst (fst w) < rows)%nat /\ (snd (fst w) < cols)%nat.

Lemma assign_ok ws s : ok s -> ok (fold_left assign ws s).
Proof.
  revert s. induction ws as [|w ws IH]; intros s Hs; [exact Hs|].
  cbn [fold_left]. apply IH. apply set_ok. exact Hs.
Qed.

Lemma assign_untouched ws s j i :
  ok s -> Forall in_table ws -> (j < rows)%nat -> (i < cols)%nat ->
  (forall w, In w ws -> fst w <> (j, i)) ->
  get (fold_left assign ws s) j i = get s j i.
Proof.
  revert s. induction ws as [|w ws IH]; intros s Hs Hin Hj Hi Hno; [reflexivity|].
  apply Forall_cons_iff in Hin. destruct Hin as [[Hwj Hwi] Hin].
  cbn [fold_left]. rewrite IH; try assumption.
  - unfold assign. rewrite get_set by assumption.
    destruct (Nat.eqb_spec j (fst (fst w))) as [Ej|]; [|reflexivity].
    destruct (Nat.eqb_spec i (snd (fst w))) as [Ei|]; [|reflexivity].
    exfalso. apply (Hno w); [left; reflexivity|].
    destruct w as [[wj wi] wv]. cbn in *. congruence.
  - apply set_ok. exact Hs.
  - intros w' Hw'. apply Hno. right. exact Hw'.
Qed.

Lemma assign_written ws s j i x :
  ok s -> Forall in_table ws -> (j < rows)%nat -> (i < cols)%nat ->
  (exists w, In w ws /\ fst w = (j, i)) ->
  (forall w, In w ws -> fst w = (j, i) -> snd w = x) ->
  get (fold_left assign ws s) j i = x.
Proof.
  revert s. induction ws as [|w ws IH] using rev_ind;
    intros s Hs Hin Hj Hi Hex Hall.
  - destruct Hex as (w & [] & _).
  - apply Forall_app in Hin. destruct Hin as [Hin Hw].
    apply Forall_cons_iff in Hw. destruct Hw as [[Hwj Hwi] _].
    rewrite fold_left_app. cbn [fold_left]. unfold assign at 1.
    rewrite get_set; try assumption; [|apply assign_ok; exact Hs].
    destruct w as [[wj wi] wv]. cbn [fst snd] in *.
    destruct (Nat.eqb_spec j wj) as [Ej|Ej];
      [destruct (Nat.eqb_spec i wi) as [Ei|Ei]|]; cbn [andb].
    + subst. apply (Hall (wj, wi, wv)); [apply in_or_app; right; left|]; reflexivity.
    + apply IH; try assumption.
      * destruct Hex as (w & Hw & E). apply in_app_or in Hw.
        destruct Hw as [Hw|[<-|[]]]; [exists w; auto|].
        cbn in E. congruence.
      * intros w Hw. apply Hall. apply in_or_app. left. exact Hw.
    + apply IH; try assumption.
      * destruct Hex as (w & Hw & E). apply in_app_or in Hw.
        destruct Hw as [Hw|[<-|[]]]; [exists w; auto|].
        cbn in E. congruence.
      * intros w Hw. apply Hall. apply in_or_app. left. exact Hw.
Qed.

Variable T : format.
Variables W D vlen : nat.
Variable coeff_raw : nat -> fp.
Hypothesis rows_eq : rows = (D + 1)%nat.
Hypothesis cols_eq : cols = (vlen * nvec W vlen)%nat.
Hypothesis W_le : (W <= cols)%nat.

(** What the constructors assign to position [i] of row [j]:
    [T(coeff_raw[j*W+i])], or [T(0)] in the padding. *)
Definition raw_or_zero (j i : nat) : fp :=
  if (i <? W)%nat then convert T (coeff_raw (j * W + i)%nat) else zero.

Lemma fill_coeff_assign s :
  fill_coeff T set W D vlen coeff_raw s =
  fold_left assign
    (flat_map (fun j => map (fun i => ((j, i), raw_or_zero j i)) (seq 0 cols))
              (seq 0 rows)) s.
Proof.
  unfold fill_coeff. rewrite <- cols_eq, <- rows_eq.
  generalize (seq 0 rows). intros js. revert s.
  induction js as [|j js IH]; intros s; [reflexivity|].
  cbn [fold_left flat_map]. rewrite fold_left_app, <- IH. f_equal.
  replace (seq 0 cols) with (seq 0 W ++ seq W (cols - W))
    by (rewrite <- seq_app; f_equal; lia).
  rewrite map_app, fold_left_app.
  assert (H1 : forall l s', (forall i, In i l -> (i < W)%nat) ->
    fold_left (fun c i => set j i (convert T (coeff_raw (j * W + i)%nat)) c) l s' =
    fold_left assign (map (fun i => ((j, i), raw_or_zero j i)) l) s').
  { induction l as [|i l IHl]; intros s' Hl; [reflexivity|].
    cbn [fold_left map]. rewrite IHl by (intros; apply Hl; right; assumption).
    unfold assign at 2, raw_or_zero. cbn [fst snd].
    destruct (Nat.ltb_spec i W) as [_|Hge]; [reflexivity|].
    specialize (Hl i ltac:(left; reflexivity)). lia. }
  assert (H2 : forall l s', (forall i, In i l -> (W <= i)%nat) ->
    fold_left (fun c i => set j i zero c) l s' =
    fold_left assign (map (fun i => ((j, i), raw_or_zero j i)) l) s').
  { induction l as [|i l IHl]; intros s' Hl; [reflexivity|].
    cbn [fold_left map]. rewrite IHl by (intros; apply Hl; right; assumption).
    unfold assign at 2, raw_or_zero. cbn [fst snd].
    destruct (Nat.ltb_spec i W) as [Hlt|_]; [|reflexivity].
    specialize (Hl i ltac:(left; reflexivity)). lia. }
  rewrite H1 by (intros i Hi; apply in_seq in Hi; lia).
  rewrite H2 by (intros i Hi; apply in_seq in Hi; lia).
  reflexivity.
Qed.

Lemma fill_coeff_get s j i :
  ok s -> (j < rows)%nat -> (i < cols)%nat ->
  ok (fill_coeff T set W D vlen coeff_raw s) /\
  get (fill_coeff T set W D vlen coeff_raw s) j i = raw_or_zero j i.
Proof.
  intros Hs Hj Hi. rewrite fill_coeff_assign. split; [apply assign_ok; exact Hs|].
  apply assign_written; try assumption.
  - apply Forall_forall. intros w Hw. apply in_flat_map in Hw.
    destruct Hw as (j' & Hj' & Hw). apply in_map_iff in Hw.
    destruct Hw as (i' & <- & Hi'). apply in_seq in Hj', Hi'.
    split; cbn; lia.
  - exists ((j, i), raw_or_zero j i). split; [|reflexivity].
    apply in_flat_map. exists j. split; [apply in_seq; lia|].
    apply in_map_iff. exists i. split; [reflexivity | apply in_seq; lia].
  - intros w Hw E. apply in_flat_map in Hw.
    destruct Hw as (j' & Hj' & Hw). apply in_map_iff in Hw.
    destruct Hw as (i' & <- & Hi'). cbn [fst snd] in *.
    injection E as -> ->. reflexivity.
Qed.

End FillLoop.

Lemma Forall_modify {A} (P : A -> Prop) i f l :
  (forall x, P x -> P (f x)) -> Forall P l -> Forall P (modify i f l).
Proof.
  intros Hf H. revert i. induction H as [|h t Hh Ht IH]; intros [|i]; cbn [modify];
    constructor; auto.
Qed.

Section Tables.

Variable T : format.
Variables W D vlen : nat.
Hypothesis vlen_pos : (0 < vlen)%nat.

Let nv : nat := nvec W vlen.

Definition get_nested (c : list (list simd)) (j i : nat) : fp :=
  nth (i mod vlen) (coeff_at c j (i / vlen)) zero.

Definition nested_shape (c : list (list simd)) : Prop :=
  List.length c = (D + 1)%nat /\
  Forall (fun r => List.length r = nv /\
                   Forall (fun v => List.length v = vlen) r) c.

Definition get_flat (c : list simd) (j i : nat) : fp :=
  nth (i mod vlen) (nth (j * nv + i / vlen) c []) zero.

Definition flat_shape (c : list simd) : Prop :=
  List.length c = (nv * (D + 1))%nat /\ Forall (fun v => List.length v = vlen) c.

Lemma set_nested_shape c j i v :
  nested_shape c -> nested_shape (set_nested vlen j i v c).
Proof.
  intros [Hlen Hrows]. unfold set_nested. split; [rewrite modify_length; exact Hlen|].
  apply Forall_modify; [|exact Hrows].
  intros r [Hr Hv]. split; [rewrite modify_length; exact Hr|].
  apply Forall_modify; [|exact Hv].
  intros x Hx. rewrite store_length. exact Hx.
Qed.

Lemma nested_shape_at c j k :
  nested_shape c -> (j <= D)%nat -> (k < nv)%nat ->
  List.length (nth j c []) = nv /\ List.length (coeff_at c j k) = vlen.
Proof.
  intros [Hlen Hrows] Hj Hk. rewrite Forall_forall in Hrows.
  assert (Hin : In (nth j c []) c) by (apply nth_In; lia).
  destruct (Hrows _ Hin) as [Hr Hv]. split; [exact Hr|].
  rewrite Forall_forall in Hv. apply Hv. unfold coeff_at. apply nth_In.
  unfold simd in *. rewrite Hr. exact Hk.
Qed.

Lemma get_set_nested c j i v j' i' :
  nested_shape c ->
  (j < D + 1)%nat -> (i < vlen * nv)%nat -> (j' < D + 1)%nat -> (i' < vlen * nv)%nat ->
  get_nested (set_nested vlen j i v c) j' i' =
  if ((j' =? j) && (i' =? i))%nat then v else get_nested c j' i'.
Proof.
  intros Hc Hj Hi Hj' Hi'. pose proof Hc as [Hlen _].
  pose proof (div_lt_cols vlen nv i vlen_pos Hi) as Hk.
  pose proof (Nat.mod_upper_bound i vlen ltac:(lia)) as Hl.
  destruct (nested_shape_at c j (i / vlen) Hc ltac:(lia) Hk) as [Hrow Hvec].
  unfold get_nested, set_nested, coeff_at in *.
  rewrite nth_modify, Hlen.
  destruct (Nat.eqb_spec j' j) as [->|Hne]; cbn [andb]; [|reflexivity].
  destruct (Nat.ltb_spec j (D + 1)); [|lia].
  rewrite nth_modify, Hrow.
  destruct (Nat.eqb_spec (i' / vlen) (i / vlen)) as [Ed|Ed]; cbn [andb].
  - destruct (Nat.ltb_spec (i / vlen) nv); [|lia].
    rewrite nth_store, Hvec.
    destruct (Nat.eqb_spec (i' mod vlen) (i mod vlen)) as [Em|Em]; cbn [andb].
    + destruct (Nat.ltb_spec (i mod vlen) vlen); [|lia].
      assert (i' = i) by (apply (div_mod_eq vlen); auto).
      subst i'. rewrite Nat.eqb_refl. reflexivity.
    + destruct (Nat.eqb_spec i' i) as [->|_]; [congruence|].
      rewrite Ed. reflexivity.
  - destruct (Nat.eqb_spec i' i) as [->|_]; [congruence | reflexivity].
Qed.

Lemma set_flat_shape c j i v : flat_shape c -> flat_shape (set_flat W vlen j i v c).
Proof.
  intros [Hlen Hv]. unfold set_flat. split; [rewrite modify_length; exact Hlen|].
  apply Forall_modify; [|exact Hv].
  intros x Hx. rewrite store_length. exact Hx.
Qed.

Lemma get_set_flat c j i v j' i' :
  flat_shape c ->
  (j < D + 1)%nat -> (i < vlen * nv)%nat -> (j' < D + 1)%nat -> (i' < vlen * nv)%nat ->
  get_flat (set_flat W vlen j i v c) j' i' =
  if ((j' =? j) && (i' =? i))%nat then v else get_flat c j' i'.
Proof.
  intros [Hlen Hv] Hj Hi Hj' Hi'.
  pose proof (div_lt_cols vlen nv i vlen_pos Hi) as Hk.
  pose proof (div_lt_cols vlen nv i' vlen_pos Hi') as Hk'.
  pose proof (Nat.mod_upper_bound i vlen ltac:(lia)) as Hl.
  assert (Hidx : (j * nv + i / vlen < nv * (D + 1))%nat) by nia.
  assert (Hvec : List.length (nth (j * nv + i / vlen) c []) = vlen).
  { rewrite Forall_forall in Hv. apply Hv. apply nth_In. lia. }
  unfold get_flat, set_flat. fold nv. rewrite nth_modify, Hlen.
  destruct (Nat.eqb_spec (j' * nv + i' / vlen) (j * nv + i / vlen)) as [E|E];
    cbn [andb].
  - destruct (Nat.ltb_spec (j * nv + i / vlen) (nv * (D + 1))); [|lia].
    assert (Ej : j' = j) by nia. subst j'.
    assert (Ed : (i' / vlen = i / vlen)%nat) by lia.
    rewrite Nat.eqb_refl. cbn [andb]. rewrite nth_store, Hvec.
    destruct (Nat.eqb_spec (i' mod vlen) (i mod vlen)) as [Em|Em]; cbn [andb].
    + destruct (Nat.ltb_spec (i mod vlen) vlen); [|lia].
      assert (i' = i) by (apply (div_mod_eq vlen); auto).
      subst i'. rewrite Nat.eqb_refl. reflexivity.
    + destruct (Nat.eqb_spec i' i) as [->|_]; [congruence|].
      rewrite E. reflexivity.
  - destruct (Nat.eqb_spec j' j) as [->|_]; cbn [andb]; [|reflexivity].
    destruct (Nat.eqb_spec i' i) as [->|_]; [congruence | reflexivity].
Qed.

Lemma zero_table_shape : flat_shape (repeat (repeat zero vlen) (nv * (D + 1))).
Proof.
  split; [apply repeat_length|].
  apply Forall_forall. intros v Hv. apply repeat_spec in Hv. subst v.
  apply repeat_length.
Qed.

Variable coeff_raw : nat -> fp.

Lemma W_le_cols : (W <= vlen * nv)%nat.
Proof.
  unfold nv, nvec.
  pose proof (Nat.div_mod (W + vlen - 1) vlen ltac:(lia)) as E.
  pose proof (Nat.mod_upper_bound (W + vlen - 1) vlen ltac:(lia)).
  nia.
Qed.

(** What the constructor of [HornerKernel] leaves in [coeff]. *)
Lemma HornerKernel_init_get coeff0 j i :
  nested_shape coeff0 -> (j <= D)%nat -> (i < vlen * nv)%nat ->
  nested_shape (HornerKernel_init T W D vlen coeff_raw coeff0) /\
  get_nested (HornerKernel_init T W D vlen coeff_raw coeff0) j i =
  raw_or_zero T W coeff_raw j i.
Proof.
  intros Hc Hj Hi. unfold HornerKernel_init.
  apply (fill_coeff_get get_nested (set_nested vlen) nested_shape
           (D + 1) (vlen * nv)).
  - intros. apply set_nested_shape. assumption.
  - intros. apply get_set_nested; assumption.
  - reflexivity.
  - reflexivity.
  - apply W_le_cols.
  - exact Hc.
  - lia.
  - exact Hi.
Qed.

(** What the constructor of [HornerKernelFlexible] leaves in [coeff]. *)
Lemma HornerKernelFlexible_init_get j i :
  (j <= D)%nat -> (i < vlen * nv)%nat ->
  flat_shape (HornerKernelFlexible_init T W D vlen coeff_raw) /\
  get_flat (HornerKernelFlexible_init T W D vlen coeff_raw) j i =
  raw_or_zero T W coeff_raw j i.
Proof.
  intros Hj Hi. unfold HornerKernelFlexible_init.
  apply (fill_coeff_get get_flat (set_flat W vlen) flat_shape
           (D + 1) (vlen * nv)).
  - intros. apply set_flat_shape. assumption.
  - intros. apply get_set_flat; assumption.
  - reflexivity.
  - reflexivity.
  - apply W_le_cols.
  - apply zero_table_shape.
  - lia.
  - exact Hi.
Qed.

End Tables.

Lemma fold_left_ext_in {A B} (f g : A -> B -> A) l a :
  (forall x b, In b l -> f x b = g x b) -> fold_left f l a = fold_left g l a.
Proof.
  revert a. induction l as [|b l IH]; intros a H; [reflexivity|].
  cbn [fold_left]. rewrite (H a b (or_introl eq_refl)).
  apply IH. intros x b' Hb'. apply H. right. exact Hb'.
Qed.

(** X23.  A [HornerKernel] built from the raw coefficients of [getCoeffs]
    evaluates, in entry [i] of [eval(x)], the polynomial with the
    coefficients [T(coeff_raw[j*W+i])], [j = 0..D], by Horner's rule at
    [(x+1)*W-1], in the rounding arithmetic of [T]; the padding lanes
    [W <= i < vlen*nvec] hold the polynomial with all coefficients 0.
    The result does not depend on what [coeff] held before the
    constructor ran. *)
Theorem horner_kernel_evaluates_raw T W D vlen coeff_raw coeff0 x i :
  (0 < vlen)%nat -> nested_shape W D vlen coeff0 -> (i < vlen * nvec W vlen)%nat ->
  scalar_view vlen (eval T W D vlen (HornerKernel_init T W D vlen coeff_raw coeff0) x) i
  = fold_left
      (fun tval j => tval *[T] rescale T W x +[T] raw_or_zero T W coeff_raw j i)
      (seq 1 D) (raw_or_zero T W coeff_raw 0 i).
Proof.
  intros Hv Hc Hi.
  set (c := HornerKernel_init T W D vlen coeff_raw coeff0).
  assert (Hget : forall j, (j <= D)%nat ->
            nth (i mod vlen) (coeff_at c j (i / vlen)) zero = raw_or_zero T W coeff_raw j i).
  { intros j Hj.
    exact (proj2 (HornerKernel_init_get T W D vlen Hv coeff_raw coeff0 j i Hc Hj Hi)). }
  assert (Hshape : nested_shape W D vlen c).
  { exact (proj1 (HornerKernel_init_get T W D vlen Hv coeff_raw coeff0 0 i Hc
                    ltac:(lia) Hi)). }
  pose proof (div_lt_cols vlen _ i Hv Hi) as Hiv.
  pose proof (Nat.mod_upper_bound i vlen ltac:(lia)) as Hlane.
  unfold scalar_view, eval.
  rewrite (nth_indep _ [] (fold_left (fun tval j =>
             vfma T tval (rescale T W x) (coeff_at c j 0))
             (seq 1 D) (coeff_at c 0 0)))
    by (rewrite length_map, length_seq; exact Hiv).
  rewrite (map_nth (fun i0 => fold_left (fun tval j =>
             vfma T tval (rescale T W x) (coeff_at c j i0))
             (seq 1 D) (coeff_at c 0 i0)) (seq 0 (nvec W vlen)) 0%nat).
  rewrite seq_nth by exact Hiv. cbn [Nat.add].
  rewrite (horner_lane T (fun j => coeff_at c j (i / vlen)) _ vlen).
  - rewrite Hget by lia. apply fold_left_ext_in.
    intros t j Hj. apply in_seq in Hj. rewrite Hget by lia. reflexivity.
  - apply (nested_shape_at W D vlen Hv c 0 (i / vlen) Hshape); [lia | exact Hiv].
  - intros j Hj. apply in_seq in Hj.
    apply (nested_shape_at W D vlen Hv c j (i / vlen) Hshape); [lia | exact Hiv].
  - exact Hlane.
Qed.

Definition blank_coeff : list (list simd) :=
  repeat (repeat (repeat (dbl 5) 2) 2) 3.

(** Raw coefficients [0, 1, 2, ...] and the argument [0.25]. *)
Definition sample_raw (k : nat) : fp := dbl (Z.of_nat k).
Definition sample_quarter : fp := (dbl 1 / dbl 4)%D.

Lemma horner_kernel_evaluates_raw_witness :
  scalar_view 2
    (eval binary64 3 2 2
       (HornerKernel_init binary64 3 2 2 sample_raw blank_coeff) sample_quarter) 3
  = fold_left
      (fun tval j =>
         tval *[binary64] rescale binary64 3 sample_quarter
         +[binary64] raw_or_zero binary64 3 sample_raw j 3)
      (seq 1 2) (raw_or_zero binary64 3 sample_raw 0 3).
Proof.
  apply (horner_kernel_evaluates_raw binary64 3 2 2 sample_raw
           blank_coeff sample_quarter 3).
  - lia.
  - split; [reflexivity|]. repeat constructor.
  - vm_compute. lia.
Defined.

(** X24.  Built from the same raw coefficients, [HornerKernelFlexible] and
    [HornerKernel] answer the same vectors from [eval], for every
    selection the flexible kernel makes. *)
Theorem flexible_eval_agrees T W D vlen coeff_raw coeff0 fuel x :
  (1 <= W)%nat -> (1 <= vlen)%nat -> (40 <= fuel)%nat ->
  nested_shape W D vlen coeff0 ->
  HornerKernelFlexible.eval T W D vlen
    (HornerKernelFlexible_init T W D vlen coeff_raw) fuel x
  = Some (eval T W D vlen (HornerKernel_init T W D vlen coeff_raw coeff0) x).
Proof.
  intros HW Hv Hfuel Hc. unfold HornerKernelFlexible.eval.
  destruct (evfhelper1_returns W D vlen fuel Hv Hfuel HW) as (f & -> & _ & Hor).
  rewrite (call_general T W D vlen _ f x Hor). f_equal.
  unfold HornerKernelFlexible.run_eval_intern_general, eval.
  set (flat := HornerKernelFlexible_init T W D vlen coeff_raw).
  set (c := HornerKernel_init T W D vlen coeff_raw coeff0).
  assert (Hvec : forall j k, (j <= D)%nat -> (k < nvec W vlen)%nat ->
            nth (j * nvec W vlen + k) flat [] = coeff_at c j k).
  { intros j k Hj Hk.
    assert (Hi0 : (k * vlen < vlen * nvec W vlen)%nat) by nia.
    destruct (HornerKernelFlexible_init_get T W D vlen ltac:(lia) coeff_raw j
                (k * vlen) Hj Hi0) as [[Hflen Hfv] _].
    destruct (HornerKernel_init_get T W D vlen ltac:(lia) coeff_raw coeff0 j
                (k * vlen) Hc Hj Hi0) as [Hcs _].
    fold flat in Hflen, Hfv. fold c in Hcs.
    destruct (nested_shape_at W D vlen ltac:(lia) c j k Hcs Hj Hk) as [_ Hcl].
    assert (Hfl : List.length (nth (j * nvec W vlen + k) flat []) = vlen).
    { rewrite Forall_forall in Hfv. apply Hfv. apply nth_In. nia. }
    apply (nth_ext _ _ zero zero); [unfold simd in *; congruence|].
    intros l Hl. rewrite Hfl in Hl.
    assert (Hi : (k * vlen + l < vlen * nvec W vlen)%nat) by nia.
    pose proof (proj2 (HornerKernelFlexible_init_get T W D vlen ltac:(lia) coeff_raw j
                  (k * vlen + l) Hj Hi)) as Gf.
    pose proof (proj2 (HornerKernel_init_get T W D vlen ltac:(lia) coeff_raw coeff0 j
                  (k * vlen + l) Hc Hj Hi)) as Gc.
    fold flat in Gf. fold c in Gc. unfold get_flat, get_nested in Gf, Gc.
    assert (Ed : ((k * vlen + l) / vlen = k)%nat).
    { rewrite Nat.div_add_l by lia. rewrite Nat.div_small by lia. lia. }
    assert (Em : ((k * vlen + l) mod vlen = l)%nat).
    { rewrite Nat.add_comm, Nat.Div0.mod_add. apply Nat.mod_small. lia. }
    rewrite Ed, Em in Gf, Gc. rewrite Gf, Gc. reflexivity. }
  apply map_ext_in. intros k Hk. apply in_seq in Hk.
  change (nth k flat []) with (nth (0 * nvec W vlen + k) flat []).
  rewrite Hvec by lia.
  apply fold_left_ext_in. intros t j Hj. apply in_seq in Hj.
  rewrite Hvec by lia. reflexivity.
Qed.

Lemma flexible_eval_agrees_witness :
  HornerKernelFlexible.eval binary64 3 2 2
    (HornerKernelFlexible_init binary64 3 2 2 sample_raw) 40 sample_quarter
  = Some (eval binary64 3 2 2
            (HornerKernel_init binary64 3 2 2 sample_raw blank_coeff)
            sample_quarter).
Proof.
  apply (flexible_eval_agrees binary64 3 2 2 sample_raw blank_coeff
           40 sample_quarter).
  - lia.
  - lia.
  - lia.
  - split; [reflexivity|]. repeat constructor.
Defined.

(** *** Aligned allocation *)

Lemma land_not63 ptr :
  0 <= ptr < 2 ^ 64 -> Z.land ptr (wrap (Z.lnot 63)) = 64 * (ptr / 64).
Proof.
  intros Hp.
  assert (E : wrap (Z.lnot 63) = Z.land (Z.lnot 63) (Z.ones 64)).
  { rewrite Z.land_ones by lia. reflexivity. }
  rewrite E, Z.land_assoc, (Z.land_comm ptr), <- Z.land_assoc.
  rewrite (Z.land_ones ptr 64) by lia. rewrite Z.mod_small by exact Hp.
  rewrite Z.land_comm, <- Z.ldiff_land.
  change 63 with (Z.ones 6). rewrite Z.ldiff_ones_r by lia.
  rewrite Z.shiftr_div_pow2, Z.shiftl_mul_pow2 by lia.
  change (2 ^ 6) with 64. lia.
Qed.

(** X25.  When [malloc] succeeds with an address aligned to 8 bytes, the
    portable [ralloc] answers an address aligned to 64 bytes, between 8
    and 64 bytes above the start of the block: the pointer saved in
    [res[-1]] and the [num] elements after [res] all lie within the
    block of [num*sizeof(T)+64] bytes.  [ralloc(0)] is [nullptr], and a
    failed [malloc] raises [bad_alloc]. *)
Theorem ralloc_aligned malloc sizeofT num ptr :
  0 < num -> 0 < sizeofT -> num * sizeofT + 64 < 2 ^ 64 ->
  malloc (num * sizeofT + 64) = Some ptr ->
  0 < ptr -> ptr mod 8 = 0 -> ptr + (num * sizeofT + 64) <= 2 ^ 64 ->
  exists res,
    ralloc malloc sizeofT num = Block res ptr /\
    res mod 64 = 0 /\
    ptr <= res - 8 /\
    res + num * sizeofT <= ptr + (num * sizeofT + 64).
Proof.
  intros Hnum Hsz Hfit Hmalloc Hptr Halign Hend. unfold ralloc.
  destruct (Z.eqb_spec num 0); [lia|].
  assert (Hprod : 0 < num * sizeofT) by nia.
  rewrite (wrap_small (num * sizeofT)) by lia.
  rewrite (wrap_small (num * sizeofT + 64)) by lia.
  rewrite Hmalloc, land_not63 by lia.
  assert (Hres : 64 * (ptr / 64) + 64 < 2 ^ 64) by dlia.
  rewrite wrap_small by dlia.
  eexists. split; [reflexivity|].
  split; [|split].
  - rewrite Z.add_comm, Z.mul_comm.
    replace (64 + ptr / 64 * 64) with (64 + (ptr / 64) * 64) by lia.
    rewrite Z.mod_add by lia. reflexivity.
  - dlia.
  - dlia.
Qed.

Lemma ralloc_aligned_witness :
  exists res,
    ralloc (fun _ => Some 4104) 16 10 = Block res 4104 /\
    res mod 64 = 0 /\
    4104 <= res - 8 /\
    res + 10 * 16 <= 4104 + (10 * 16 + 64).
Proof.
  apply (ralloc_aligned (fun _ => Some 4104) 16 10 4104); try lia; reflexivity.
Defined.

(** *** Layout of spherical-harmonic coefficients *)

Lemma ptrdiff_small z : - 2 ^ 63 <= z < 2 ^ 63 -> ptrdiff_t z = z.
Proof. intros H. unfold ptrdiff_t. rewrite Z.mod_small by lia. lia. Qed.

Lemma nth_zrange lo hi k :
  lo <= k < hi -> nth (Z.to_nat (k - lo)) (zrange lo hi) 0 = k.
Proof.
  intros Hk. unfold zrange.
  rewrite (nth_indep _ 0 ((fun i => lo + Z.of_nat i) O))
    by (rewrite length_map, length_seq; lia).
  rewrite (map_nth (fun i => lo + Z.of_nat i)). rewrite seq_nth by lia. lia.
Qed.

Lemma nth_map_zrange (f : Z -> Z) hi k :
  0 <= k < hi -> nth (Z.to_nat k) (map f (zrange 0 hi)) 0 = f k.
Proof.
  intros Hk.
  rewrite (nth_indep _ 0 (f 0)) by (rewrite length_map, zrange_length; lia).
  rewrite (map_nth f).
  replace (Z.to_nat k) with (Z.to_nat (k - 0)) by lia.
  rewrite nth_zrange by lia. reflexivity.
Qed.

(** The start of column [m] in units of [stride]. *)
Definition column_start (lmax m : Z) : Z := (m * (2 * lmax + 1 - m)) / 2.

Lemma column_start_next lmax m :
  column_start lmax (m + 1) = column_start lmax m + (lmax - m).
Proof.
  unfold column_start.
  replace ((m + 1) * (2 * lmax + 1 - (m + 1)))
    with (m * (2 * lmax + 1 - m) + (lmax - m) * 2) by ring.
  apply Z.div_add. lia.
Qed.

Lemma column_start_range lmax m :
  0 <= m <= lmax -> 0 <= column_start lmax m <= lmax * (lmax + 1).
Proof.
  intros Hm. unfold column_start.
  assert (0 <= m * (2 * lmax + 1 - m)) by nia.
  assert (m * (2 * lmax + 1 - m) <= 2 * (lmax * (lmax + 1))) by nia.
  split; [apply Z.div_pos; lia|].
  apply Z.div_le_upper_bound; lia.
Qed.

Lemma triangular_index lmax mmax stride_ l m :
  0 <= mmax <= lmax -> lmax <= 2 ^ 20 -> - 2 ^ 20 <= stride_ <= 2 ^ 20 ->
  0 <= m <= mmax -> 0 <= l <= lmax ->
  index (sharp_make_triangular_alm_info lmax mmax stride_) l m =
  stride_ * (column_start lmax m + l).
Proof.
  intros Hmm Hl Hs Hm Hll.
  unfold index, sharp_make_triangular_alm_info, make_standard_alm_info.
  cbn [mvstart stride].
  pose proof (column_start_range lmax m ltac:(lia)) as Hc.
  assert (Hsq : lmax * (lmax + 1) <= 2 ^ 20 * (2 ^ 20 + 1)) by nia.
  rewrite (nth_map_zrange _ (mmax + 1) m) by lia.
  rewrite nth_map_zrange by lia.
  rewrite (wrap_small (2 * lmax)) by lia.
  rewrite (wrap_small (2 * lmax + 1)) by lia.
  rewrite (wrap_small (2 * lmax + 1 - m)) by lia.
  rewrite (wrap_small (m * _)) by nia.
  rewrite shiftr_1_half. fold (column_start lmax m).
  rewrite (ptrdiff_small (column_start lmax m)) by lia.
  rewrite (ptrdiff_small l) by lia.
  rewrite (ptrdiff_small (stride_ * column_start lmax m)) by nia.
  rewrite (ptrdiff_small (stride_ * l)) by nia.
  rewrite ptrdiff_small by nia. ring.
Qed.

(** X26.  The triangular layout stores the coefficients of column [m]
    ([l = m..lmax]) one [stride] apart, and column [m+1] starts one
    [stride] after column [m] ends: the coefficients with [m <= mmax]
    fill the array without gap or overlap, starting at index 0. *)
Theorem triangular_alm_layout lmax mmax stride_ :
  0 <= mmax <= lmax -> lmax <= 2 ^ 20 -> - 2 ^ 20 <= stride_ <= 2 ^ 20 ->
  let info := sharp_make_triangular_alm_info lmax mmax stride_ in
  mval_ info = zrange 0 (mmax + 1) /\
  index info 0 0 = 0 /\
  (forall m l, 0 <= m <= mmax -> m <= l < lmax ->
     index info (l + 1) m = index info l m + stride_) /\
  (forall m, 0 <= m < mmax ->
     index info (m + 1) (m + 1) = index info lmax m + stride_).
Proof.
  intros Hmm Hl Hs info. subst info.
  split; [reflexivity|]. split; [|split].
  - rewrite triangular_index by lia. unfold column_start. cbn. lia.
  - intros m l Hm Hll. rewrite !triangular_index by lia. ring.
  - intros m Hm. rewrite !triangular_index by lia.
    rewrite column_start_next. ring.
Qed.

Lemma triangular_alm_layout_witness :
  let info := sharp_make_triangular_alm_info 4 2 1 in
  mval_ info = zrange 0 (2 + 1) /\
  index info 0 0 = 0 /\
  (forall m l, 0 <= m <= 2 -> m <= l < 4 ->
     index info (l + 1) m = index info l m + 1) /\
  (forall m, 0 <= m < 2 ->
     index info (m + 1) (m + 1) = index info 4 m + 1).
Proof. apply (triangular_alm_layout 4 2 1); lia. Defined.

(** *** [mmax()] *)

Lemma mmax_loop_spec nm_ : forall mval mcheck,
  List.length mcheck = Z.to_nat nm_ -> Forall (fun m => 0 <= m) mval ->
  ((exists r, mmax_loop nm_ mval mcheck = Ok r) <->
   Forall (fun m => m < nm_) mval /\ NoDup mval /\
   forall m, In m mval -> nth (Z.to_nat m) mcheck false = false).
Proof.
  induction mval as [|m rest IH]; intros mcheck Hlen Hpos.
  - cbn. split.
    + intros _. split; [constructor|]. split; [constructor | intros ? []].
    + intros _. eexists. reflexivity.
  - apply Forall_cons_iff in Hpos. destruct Hpos as [Hm Hpos].
    cbn [mmax_loop].
    destruct (Z.ltb_spec m nm_) as [Hlt|Hge]; cbn [MR_assert bind].
    + destruct (nth (Z.to_nat m) mcheck false) eqn:Hseen; cbn [negb MR_assert bind].
      * split; [intros [r Hr]; discriminate|].
        intros (_ & _ & Hfresh). specialize (Hfresh m (or_introl eq_refl)). congruence.
      * rewrite IH by (rewrite ?store_length; assumption).
        assert (Hstore : forall m', 0 <= m' ->
                  nth (Z.to_nat m') (store (Z.to_nat m) true mcheck) false = false
                  <-> m' <> m /\ nth (Z.to_nat m') mcheck false = false).
        { intros m' Hm'. rewrite nth_store, Hlen.
          destruct (Nat.eqb_spec (Z.to_nat m') (Z.to_nat m)) as [E|E]; cbn [andb].
          - destruct (Nat.ltb_spec (Z.to_nat m) (Z.to_nat nm_)); [|lia].
            split; [discriminate|]. intros [Hne _]. lia.
          - split; [intros H; split; [lia | exact H] | tauto]. }
        rewrite Forall_forall in Hpos.
        split.
        -- intros (Hb & Hnd & Hfresh). split; [constructor; assumption|].
           split.
           ++ constructor; [|exact Hnd]. intros Hin.
              pose proof (Hfresh m Hin) as Hf. apply Hstore in Hf; [|lia]. tauto.
           ++ intros m' [<-|Hin]; [exact Hseen|].
              pose proof (Hfresh m' Hin) as Hf.
              apply Hstore in Hf; [tauto | apply Hpos; exact Hin].
        -- intros (Hb & Hnd & Hfresh).
           apply Forall_cons_iff in Hb. destruct Hb as [_ Hb].
           apply NoDup_cons_iff in Hnd. destruct Hnd as [Hnotin Hnd].
           split; [exact Hb|]. split; [exact Hnd|].
           intros m' Hin. apply Hstore; [apply Hpos; exact Hin|].
           split; [intros ->; contradiction|].
           apply Hfresh. right. exact Hin.
    + split; [intros [r Hr]; discriminate|].
      intros (Hb & _). apply Forall_cons_iff in Hb. lia.
Qed.

Lemma nth_repeat_false k n : nth k (repeat false n) false = false.
Proof. apply nth_repeat. Qed.

Lemma mmax_ok_iff info r :
  Forall (fun m => 0 <= m) (mval_ info) ->
  (mmax info = Ok r <->
   NoDup (mval_ info) /\
   Forall (fun m => m < Z.of_nat (List.length (mval_ info))) (mval_ info) /\
   r = wrap (Z.of_nat (List.length (mval_ info)) - 1)).
Proof.
  intros Hpos. unfold mmax.
  set (nm_ := Z.of_nat (List.length (mval_ info))).
  pose proof (mmax_loop_spec nm_ (mval_ info) (repeat false (Z.to_nat nm_))
                (repeat_length _ _) Hpos) as Hspec.
  destruct (mmax_loop nm_ (mval_ info) (repeat false (Z.to_nat nm_)))
    as [mc|e|] eqn:E; cbn [bind].
  - destruct Hspec as [Hspec _].
    destruct (Hspec (ex_intro _ mc eq_refl)) as (Hb & Hnd & _).
    split.
    + intros H. injection H as <-. auto.
    + intros (_ & _ & ->). reflexivity.
  - split; [discriminate|]. intros (Hnd & Hb & _).
    destruct Hspec as [_ Hspec].
    destruct Hspec as [x Hx]; [|discriminate].
    split; [exact Hb|]. split; [exact Hnd|]. intros; apply nth_repeat_false.
  - split; [discriminate|]. intros (Hnd & Hb & _).
    destruct Hspec as [_ Hspec].
    destruct Hspec as [x Hx]; [|discriminate].
    split; [exact Hb|]. split; [exact Hnd|]. intros; apply nth_repeat_false.
Qed.

(** X27.  [mmax()] succeeds exactly when the stored [m] values are distinct
    and all below their number [nm]; it then answers [nm-1], and every
    [m] from 0 to [nm-1] is among them. *)
Theorem mmax_spec info r :
  Forall (fun m => 0 <= m) (mval_ info) ->
  let nm_ := Z.of_nat (List.length (mval_ info)) in
  (mmax info = Ok r <->
   NoDup (mval_ info) /\ Forall (fun m => m < nm_) (mval_ info) /\
   r = wrap (nm_ - 1)) /\
  (mmax info = Ok r -> forall m, 0 <= m < nm_ -> In m (mval_ info)).
Proof.
  intros Hpos nm_. split; [apply mmax_ok_iff; exact Hpos|].
  intros H. apply mmax_ok_iff in H; [|exact Hpos].
  destruct H as (Hnd & Hb & _).
  intros m Hm.
  apply (NoDup_length_incl Hnd (l' := zrange 0 nm_)).
  - rewrite zrange_length. subst nm_. lia.
  - intros x Hx. apply in_zrange. rewrite Forall_forall in Hpos, Hb.
    split; [apply Hpos | apply Hb]; exact Hx.
  - apply in_zrange. lia.
Qed.

Lemma mmax_spec_witness :
  let info := {| lmax_ := 5; mval_ := [2; 0; 1]; mvstart := [0; 0; 0]; stride := 1 |} in
  let nm_ := Z.of_nat (List.length (mval_ info)) in
  (mmax info = Ok 2 <->
   NoDup (mval_ info) /\ Forall (fun m => m < nm_) (mval_ info) /\
   2 = wrap (nm_ - 1)) /\
  (mmax info = Ok 2 -> forall m, 0 <= m < nm_ -> In m (mval_ info)).
Proof.
  apply (mmax_spec
           {| lmax_ := 5; mval_ := [2; 0; 1]; mvstart := [0; 0; 0]; stride := 1 |} 2).
  repeat constructor; lia.
Defined.

Lemma NoDup_map_injective {A B} (f : A -> B) l :
  (forall x y, f x = f y -> x = y) -> NoDup l -> NoDup (map f l).
Proof.
  intros Hf H. induction H as [|a l Ha _ IH]; cbn [map]; constructor; [|exact IH].
  intros Hin. apply in_map_iff in Hin. destruct Hin as (y & E & Hy).
  apply Hf in E. subst y. contradiction.
Qed.

Lemma NoDup_zrange lo hi : NoDup (zrange lo hi).
Proof.
  unfold zrange. apply NoDup_map_injective; [|apply seq_NoDup].
  intros a b H. lia.
Qed.

(** X28.  An [alm_info] made by the constructor with [mmax_], or by
    [sharp_make_triangular_alm_info], answers [mmax_] from [mmax()]. *)
Theorem mmax_of_constructed lmax mmax_ stride_ mstart :
  0 <= mmax_ < 2 ^ 62 ->
  mmax (make_standard_alm_info lmax mmax_ stride_ mstart) = Ok mmax_ /\
  mmax (sharp_make_triangular_alm_info lmax mmax_ stride_) = Ok mmax_.
Proof.
  intros Hm.
  assert (H : forall ms,
            mmax (make_standard_alm_info lmax mmax_ stride_ ms) = Ok mmax_).
  { intros ms. apply mmax_ok_iff; cbn [mval_ make_standard_alm_info].
    - apply Forall_forall. intros m Hin. apply in_zrange in Hin. lia.
    - rewrite zrange_length. split; [apply NoDup_zrange|]. split.
      + apply Forall_forall. intros m Hin. apply in_zrange in Hin. lia.
      + rewrite wrap_small by lia. lia. }
  split; [apply H|]. unfold sharp_make_triangular_alm_info. apply H.
Qed.

Lemma mmax_of_constructed_witness :
  mmax (make_standard_alm_info 4 2 1 [0; 5; 9]) = Ok 2 /\
  mmax (sharp_make_triangular_alm_info 4 2 1) = Ok 2.
Proof. apply (mmax_of_constructed 4 2 1 [0; 5; 9]); lia. Defined.

(** *** Merging keeps every range and the order *)

Definition by_uvwidx (a b : visrange) : Prop := uvwidx a <= uvwidx b.

Definition visrange_eq_dec (a b : visrange) : {a = b} + {a <> b}.
Proof. decide equality; apply Z.eq_dec. Defined.

(** A measure of lists that adds up over [merge_ranges]. *)
Definition occurrences (x : visrange) (l : list visrange) : nat :=
  count_occ visrange_eq_dec l x.

Lemma merge_ranges_nil_r a : merge_ranges a [] = a.
Proof. destruct a; reflexivity. Qed.

Lemma merge_ranges_cons x a y b :
  merge_ranges (x :: a) (y :: b) =
  if uvwidx y <? uvwidx x then y :: merge_ranges (x :: a) b
  else x :: merge_ranges a (y :: b).
Proof. reflexivity. Qed.

Lemma occurrences_cons x y l :
  occurrences x (y :: l) =
  ((if visrange_eq_dec y x then 1 else 0) + occurrences x l)%nat.
Proof.
  unfold occurrences. cbn [count_occ]. destruct (visrange_eq_dec y x); reflexivity.
Qed.

Lemma occurrences_merge x : forall a b,
  occurrences x (merge_ranges a b) = (occurrences x a + occurrences x b)%nat.
Proof.
  induction a as [|h a IHa]; intros b; [reflexivity|].
  induction b as [|y b IHb].
  - rewrite merge_ranges_nil_r. cbn. lia.
  - rewrite merge_ranges_cons. destruct (uvwidx y <? uvwidx h).
    + rewrite !occurrences_cons, IHb, occurrences_cons. lia.
    + rewrite !occurrences_cons, IHa, occurrences_cons. lia.
Qed.

Lemma merge_ranges_Forall (P : visrange -> Prop) : forall a b,
  Forall P a -> Forall P b -> Forall P (merge_ranges a b).
Proof.
  induction a as [|h a IHa]; intros b Ha Hb; [exact Hb|].
  induction Hb as [|y b Hy Hb IHb].
  - rewrite merge_ranges_nil_r. exact Ha.
  - rewrite merge_ranges_cons. destruct (uvwidx y <? uvwidx h).
    + constructor; [exact Hy | exact IHb].
    + apply Forall_cons_iff in Ha. destruct Ha as [Hh Ha].
      constructor; [exact Hh|]. apply IHa; [exact Ha|].
      constructor; assumption.
Qed.

Lemma merge_ranges_sorted : forall a b,
  StronglySorted by_uvwidx a -> StronglySorted by_uvwidx b ->
  StronglySorted by_uvwidx (merge_ranges a b).
Proof.
  induction a as [|h a IHa]; intros b Ha Hb; [exact Hb|].
  induction b as [|y b IHb].
  - rewrite merge_ranges_nil_r. exact Ha.
  - rewrite merge_ranges_cons.
    apply StronglySorted_inv in Ha. destruct Ha as [Ha Hha].
    apply StronglySorted_inv in Hb. destruct Hb as [Hb Hyb].
    destruct (Z.ltb_spec (uvwidx y) (uvwidx h)) as [Hlt|Hge].
    + constructor.
      * apply IHb. exact Hb.
      * apply merge_ranges_Forall; [|exact Hyb].
        constructor; [unfold by_uvwidx; lia|].
        eapply Forall_impl; [|exact Hha]. unfold by_uvwidx in *. intros; lia.
    + constructor.
      * apply IHa; [exact Ha|]. constructor; assumption.
      * apply merge_ranges_Forall; [exact Hha|].
        constructor; [exact Hge|].
        eapply Forall_impl; [|exact Hyb]. unfold by_uvwidx in *. intros; lia.
Qed.

(** The total of a measure over the lists of all threads. *)
Definition total (mu : list visrange -> nat) (l : list (list visrange)) : nat :=
  list_sum (map mu l).

Lemma total_store mu i v l :
  (i < List.length l)%nat ->
  (total mu (store i v l) + mu (nth i l []) = total mu l + mu v)%nat.
Proof.
  unfold total, list_sum. revert i.
  induction l as [|h t IH]; intros i Hi; cbn in Hi; [lia|].
  destruct i as [|i]; cbn [store map fold_right nth]; [lia|].
  specialize (IH i ltac:(lia)). lia.
Qed.

Lemma Forall_store {A} (P : A -> Prop) i v l :
  P v -> Forall P l -> Forall P (store i v l).
Proof.
  intros Hv H. revert i. induction H as [|h t Hh Ht IH]; intros [|i]; cbn [store];
    constructor; auto.
Qed.

Lemma Forall_nth_default {A} (P : A -> Prop) l i d : P d -> Forall P l -> P (nth i l d).
Proof.
  intros Hd H. revert i. induction H as [|h t Hh _ IH]; intros [|i]; cbn; auto.
Qed.

Section MergeRounds.

Variable x : visrange.
Variable N : nat.

(** What a round maintains after its first [t] threads. *)
Definition round_inv (n t : nat) (l0 l : list (list visrange)) : Prop :=
  List.length l = N /\
  Forall (StronglySorted by_uvwidx) l /\
  total (occurrences x) l = total (occurrences x) l0 /\
  forall k, (n <= k + t)%nat -> nth k l [] = [].

Lemma merge_step_inv n t l0 l :
  (n <= N)%nat -> (2 * t + 2 <= n)%nat ->
  round_inv n t l0 l -> round_inv n (S t) l0 (merge_step n l t).
Proof.
  intros HnN Ht (Hlen & Hsorted & Htotal & Hempty).
  unfold merge_step.
  set (p := (n - 1 - t)%nat).
  set (tmp := merge_ranges (nth t l []) (nth p l [])).
  assert (Hp : (t < p < N)%nat) by (unfold p; lia).
  split; [rewrite !store_length; exact Hlen|].
  split.
  { apply Forall_store; [constructor|]. apply Forall_store; [|exact Hsorted].
    apply merge_ranges_sorted; apply Forall_nth_default;
      (constructor || exact Hsorted). }
  split.
  { pose proof (total_store (occurrences x) t tmp l ltac:(lia)) as H1.
    pose proof (total_store (occurrences x) p [] (store t tmp l)
                  ltac:(rewrite store_length; lia)) as H2.
    rewrite nth_store in H2.
    destruct (Nat.eqb_spec p t); [lia|]. cbn [andb] in H2.
    unfold tmp in H1 at 2. rewrite occurrences_merge in H1.
    change (occurrences x []) with 0%nat in H2. lia. }
  intros k Hk. rewrite nth_store, store_length, Hlen.
  destruct (Nat.eqb_spec k p) as [->|Hkp]; cbn [andb].
  - destruct (Nat.ltb_spec p N); [reflexivity | lia].
  - rewrite nth_store, Hlen.
    destruct (Nat.eqb_spec k t) as [->|Hkt]; cbn [andb]; [unfold p in *; lia|].
    apply Hempty. unfold p in *. lia.
Qed.

Lemma merge_round_inv n l0 l : forall t,
  (n <= N)%nat -> (2 * t <= n)%nat ->
  round_inv n 0 l0 l ->
  round_inv n t l0 (fold_left (merge_step n) (seq 0 t) l).
Proof.
  induction t as [|t IH]; intros HnN Ht Hinv; [exact Hinv|].
  rewrite seq_S, fold_left_app. cbn [fold_left Nat.add].
  apply merge_step_inv; [exact HnN | lia|]. apply IH; [exact HnN | lia | exact Hinv].
Qed.

Lemma merge_loop_inv l0 : forall fuel n l,
  (1 <= n <= N)%nat -> (n <= fuel)%nat ->
  round_inv n 0 l0 l ->
  exists l', merge_loop fuel n l = Some l' /\ round_inv 1 0 l0 l'.
Proof.
  induction fuel as [|fuel IH]; intros n l Hn Hfuel Hinv; [lia|].
  cbn [merge_loop]. destruct (Nat.ltb_spec 1 n) as [Hgt|Hle].
  - pose proof (Nat.div_mod n 2 ltac:(lia)) as Hdm.
    pose proof (Nat.mod_upper_bound n 2 ltac:(lia)) as Hmod.
    apply IH; [lia | lia|].
    pose proof (merge_round_inv n l0 l (n / 2) ltac:(lia) ltac:(lia) Hinv)
      as (Hlen & Hs & Ht & He).
    split; [exact Hlen|]. split; [exact Hs|]. split; [exact Ht|].
    intros k Hk. apply He. lia.
  - assert (n = 1%nat) by lia. subst n. exists l. split; [reflexivity | exact Hinv].
Qed.

Lemma total_first mu (l : list (list visrange)) :
  mu [] = 0%nat -> (forall k, (1 <= k)%nat -> nth k l [] = []) ->
  total mu l = mu (nth 0%nat l []).
Proof.
  intros Hmu He. unfold total, list_sum. destruct l as [|h t]; [cbn; lia|].
  cbn [map fold_right nth].
  assert (Ht : fold_right Nat.add 0%nat (map mu t) = 0%nat).
  { assert (Hall : forall k, nth k t [] = []) by (intros k; apply (He (S k)); lia).
    clear He. induction t as [|h' t IH]; [reflexivity|].
    cbn [map fold_right]. rewrite IH by (intros k; apply (Hall (S k))).
    rewrite (Hall 0%nat : h' = []). lia. }
  lia.
Qed.

End MergeRounds.

Lemma occurrences_concat x (l : list (list visrange)) :
  occurrences x (List.concat l) = total (occurrences x) l.
Proof.
  unfold total, occurrences, list_sum. induction l as [|h t IH]; [reflexivity|].
  cbn [List.concat map fold_right]. rewrite count_occ_app, IH. reflexivity.
Qed.

(** X29.  Merging the sorted range lists of the threads loses and invents
    nothing: the final [ranges] is a rearrangement of all threads'
    ranges together, sorted by [uvwidx]. *)
Theorem merged_ranges_complete fuel nthreads lranges :
  (1 <= nthreads)%nat -> List.length lranges = nthreads ->
  (nthreads <= fuel)%nat ->
  Forall (StronglySorted by_uvwidx) lranges ->
  exists ranges,
    merged_ranges fuel nthreads lranges = Some ranges /\
    Permutation ranges (List.concat lranges) /\
    StronglySorted by_uvwidx ranges.
Proof.
  intros Hn Hlen Hfuel Hsorted. unfold merged_ranges.
  assert (Hinv0 : forall x, round_inv x nthreads nthreads 0 lranges lranges).
  { intros x. split; [exact Hlen|]. split; [exact Hsorted|]. split; [reflexivity|].
    intros k Hk. apply nth_overflow. lia. }
  destruct (merge_loop_inv (make_visrange 0 0 0 0 0 0) nthreads lranges fuel
              nthreads lranges ltac:(lia) Hfuel (Hinv0 _)) as (l' & E & _ & Hs & _).
  rewrite E. eexists. split; [reflexivity|]. split.
  - apply (Permutation_count_occ visrange_eq_dec). intros x.
    destruct (merge_loop_inv x nthreads lranges fuel nthreads lranges
                ltac:(lia) Hfuel (Hinv0 x)) as (l'' & E' & _ & _ & Ht & He).
    rewrite E in E'. injection E' as <-.
    change (occurrences x (nth 0%nat l' []) = occurrences x (List.concat lranges)).
    rewrite occurrences_concat, <- Ht. symmetry.
    apply total_first; [reflexivity|]. intros k Hk. apply He. lia.
  - apply Forall_nth_default; [constructor | exact Hs].
Qed.

Lemma merged_ranges_complete_witness :
  exists ranges,
    merged_ranges 3 3
      [[make_visrange 0 1 0 0 0 2; make_visrange 1 0 0 0 2 4];
       [make_visrange 0 0 1 1 0 3];
       []] = Some ranges /\
    Permutation ranges
      (List.concat [[make_visrange 0 1 0 0 0 2; make_visrange 1 0 0 0 2 4];
               [make_visrange 0 0 1 1 0 3];
               []]) /\
    StronglySorted by_uvwidx ranges.
Proof.
  apply (merged_ranges_complete 3 3).
  - lia.
  - reflexivity.
  - lia.
  - repeat constructor; unfold by_uvwidx; vm_compute; discriminate.
Defined.
